(** * A6.c: slicing floorplans from a post-order description

    A shallow embedding of [src/A6.c] and the properties of its tree
    builder, its two geometric passes and its three report writers.

    The C program keeps its tree in [malloc]ed [Node] structs linked by
    pointers and updates them in place.  The embedding keeps that shape:
    a heap of [Node] records addressed by allocation order, pointers that
    may be [NULL], and a small state-and-error monad in which the C
    functions are written statement by statement.  Whatever the C standard
    leaves undefined (an access outside the stack array, a [NULL]
    dereference, signed overflow, the use of a variable [sscanf] did not
    assign) is an explicit outcome [Undef] of the monad.  *)

From Stdlib Require Import ZArith String Ascii List Lia Bool.
From Stdlib Require Import DecimalString DecimalPos.
From stdpp Require Import base list.

Local Open Scope string_scope.
Local Open Scope list_scope.
Local Open Scope Z_scope.

(** ** Data model *)

(** [Node *]: [None] is [NULL], [Some a] the [a]-th struct handed out by
    [malloc]. *)
Definition ptr := option nat.

(** [struct Node]. *)
Record Node := mkNode {
  label : Z;
  width : Z;
  height : Z;
  x : Z;
  y : Z;
  type : ascii;
  left : ptr;
  right : ptr
}.

Definition set_type (c : ascii) (n : Node) : Node :=
  mkNode (label n) (width n) (height n) (x n) (y n) c (left n) (right n).
Definition set_left (p : ptr) (n : Node) : Node :=
  mkNode (label n) (width n) (height n) (x n) (y n) (type n) p (right n).
Definition set_right (p : ptr) (n : Node) : Node :=
  mkNode (label n) (width n) (height n) (x n) (y n) (type n) (left n) p.
Definition set_width (v : Z) (n : Node) : Node :=
  mkNode (label n) v (height n) (x n) (y n) (type n) (left n) (right n).
Definition set_height (v : Z) (n : Node) : Node :=
  mkNode (label n) (width n) v (x n) (y n) (type n) (left n) (right n).
Definition set_x (v : Z) (n : Node) : Node :=
  mkNode (label n) (width n) (height n) v (y n) (type n) (left n) (right n).
Definition set_y (v : Z) (n : Node) : Node :=
  mkNode (label n) (width n) (height n) (x n) v (type n) (left n) (right n).

(** The characters the program tests for. *)
Definition NUL : ascii := "000"%char.
Definition LF : ascii := "010"%char.
Definition chH : ascii := "H"%char.
Definition chV : ascii := "V"%char.

(** Range of [int] (32 bits). *)
Definition INT_MIN : Z := - 2147483648.
Definition INT_MAX : Z := 2147483647.
Definition in_int (v : Z) : bool := (INT_MIN <=? v) && (v <=? INT_MAX).

(** ** Outcomes and the program monad *)

(** What the C standard does not define. *)
Inductive undefined :=
| OutOfBounds     (* access outside [stack[0..999]] or outside the heap *)
| Indeterminate   (* use of a variable that was never assigned *)
| NullDeref       (* [p->f] with [p == NULL] *)
| IntOverflow.    (* an [int] result that is not representable *)

Inductive result (A : Type) :=
| Done (a : A)
| Undef (u : undefined)
| OutOfFuel.
Arguments Done {A} a.
Arguments Undef {A} u.
Arguments OutOfFuel {A}.

(** The state of a run: the heap of structs, the unread part of the input
    stream, and the text written so far to each output stream. *)
Record world := mkWorld {
  mem : list Node;
  input : string;
  output : list string
}.

Definition set_mem (h : list Node) (w : world) : world :=
  mkWorld h (input w) (output w).
Definition set_input (s : string) (w : world) : world :=
  mkWorld (mem w) s (output w).
Definition set_output (o : list string) (w : world) : world :=
  mkWorld (mem w) (input w) o.

Definition M (A : Type) : Type := world -> result (A * world).

Definition ret {A} (a : A) : M A := fun w => Done (a, w).
Definition bind {A B} (m : M A) (k : A -> M B) : M B :=
  fun w => match m w with
           | Done (a, w') => k a w'
           | Undef u => Undef u
           | OutOfFuel => OutOfFuel
           end.
Definition undef {A} (u : undefined) : M A := fun _ => Undef u.
Definition out_of_fuel {A} : M A := fun _ => OutOfFuel.

Notation "x <- m ;; k" := (bind m (fun x => k))
  (at level 100, m at next level, right associativity).
Notation "m ;;; k" := (bind m (fun _ => k))
  (at level 100, right associativity).

Infix "+++" := String.append (right associativity, at level 60).

(** [p->f]. *)
Definition load {A} (p : ptr) (f : Node -> A) : M A :=
  fun w => match p with
           | None => Undef NullDeref
           | Some a => match mem w !! a with
                       | Some n => Done (f n, w)
                       | None => Undef OutOfBounds
                       end
           end.

(** [p->f = v], as the field update [upd]. *)
Definition store (p : ptr) (upd : Node -> Node) : M unit :=
  fun w => match p with
           | None => Undef NullDeref
           | Some a => match mem w !! a with
                       | Some n => Done (tt, set_mem (<[a := upd n]> (mem w)) w)
                       | None => Undef OutOfBounds
                       end
           end.

(** [a + b] on [int]. *)
Definition int_add (a b : Z) : M Z :=
  if in_int (a + b) then ret (a + b) else undef IntOverflow.

(** [fprintf(f, ...)] where the formatted text is [s]. *)
Definition fprintf (f : nat) (s : string) : M unit :=
  fun w => match output w !! f with
           | Some old => Done (tt, set_output (<[f := String.append old s]> (output w)) w)
           | None => Undef NullDeref
           end.

(** ** The C library: [fgets], [sscanf], [%d] *)

(** Up to [n] characters of [s], stopping after a newline. *)
Fixpoint fgets_chars (n : nat) (s : string) : string * string :=
  match n with
  | O => ("", s)
  | S n' =>
    match s with
    | "" => ("", "")
    | String c s' =>
      if Ascii.eqb c LF then (String c "", s')
      else let '(l, r) := fgets_chars n' s' in (String c l, r)
    end
  end.

(** [fgets(line, size, input)]: [None] is the [NULL] returned at end of
    file. *)
Definition fgets (size : nat) : M (option string) :=
  fun w => let '(line, rest) := fgets_chars (size - 1) (input w) in
           match line with
           | "" => Done (None, w)
           | _ => Done (Some line, set_input rest w)
           end.

Definition isspace (c : ascii) : bool :=
  let n := N_of_ascii c in ((9 <=? n) && (n <=? 13) || (n =? 32))%N.

Definition digit_of (c : ascii) : option Z :=
  let n := Z.of_N (N_of_ascii c) in
  if (48 <=? n) && (n <=? 57) then Some (n - 48) else None.

Fixpoint skip_space (s : string) : string :=
  match s with
  | String c s' => if isspace c then skip_space s' else s
  | "" => ""
  end.

(** The longest run of digits at the head of [s], read in base ten on top
    of [acc]. *)
Fixpoint scan_digits (acc : Z) (s : string) : Z * string :=
  match s with
  | String c s' =>
    match digit_of c with
    | Some d => scan_digits (10 * acc + d) s'
    | None => (acc, s)
    end
  | "" => (acc, "")
  end.

Inductive scanned :=
| Matched (v : Z) (rest : string)
| NoMatch
| Unrepresentable.

Definition scan_number (neg : bool) (s : string) : scanned :=
  match s with
  | String c _ =>
    match digit_of c with
    | Some _ =>
      let '(v, rest) := scan_digits 0 s in
      let v := if neg then - v else v in
      if in_int v then Matched v rest else Unrepresentable
    | None => NoMatch
    end
  | "" => NoMatch
  end.

(** One [%d] directive: white space, an optional sign, digits. *)
Definition scan_d (s : string) : scanned :=
  match skip_space s with
  | String c s' =>
    if Ascii.eqb c "-" then scan_number true s'
    else if Ascii.eqb c "+" then scan_number false s'
    else scan_number false (String c s')
  | "" => NoMatch
  end.

(** An ordinary character of the format: it must be the next one. *)
Definition literal (c : ascii) (s : string) : option string :=
  match s with
  | String c' s' => if Ascii.eqb c' c then Some s' else None
  | "" => None
  end.

(** [sscanf(line, "%d(%d,%d)", &label, &width, &height)]: the values
    assigned, in order; the scan stops at the first directive that does not
    match. *)
Definition sscanf (line : string) : result (list Z) :=
  match scan_d line with
  | Unrepresentable => Undef IntOverflow
  | NoMatch => Done []
  | Matched l r =>
    match literal "(" r with
    | None => Done [l]
    | Some r1 =>
      match scan_d r1 with
      | Unrepresentable => Undef IntOverflow
      | NoMatch => Done [l]
      | Matched w r' =>
        match literal "," r' with
        | None => Done [l; w]
        | Some r2 =>
          match scan_d r2 with
          | Unrepresentable => Undef IntOverflow
          | NoMatch => Done [l; w]
          | Matched h _ => Done [l; w; h]
          end
        end
      end
    end
  end.

(** [printf]'s [%d]. *)
Definition fmt_d (v : Z) : string := NilZero.string_of_int (Z.to_int v).

(** ** [createNode] and [buildTree] *)

(** [malloc] is taken to succeed: the new struct gets the next address. *)
Definition createNode (label width height : Z) : M ptr :=
  fun w => Done (Some (length (mem w)),
                 set_mem (mem w ++ [mkNode label width height 0 0 NUL None None]) w).

(** [Node *stack[1000]] with [stackTop]: the list holds
    [stack[stackTop], ..., stack[0]]. *)
Definition STACK_SIZE : nat := 1000.
Definition LINE_SIZE : nat := 20.

(** [stack[stackTop--]] *)
Definition pop (stack : list ptr) : M (ptr * list ptr) :=
  match stack with
  | p :: stack' => ret (p, stack')
  | [] => undef OutOfBounds
  end.

(** [stack[++stackTop] = node] *)
Definition push (stack : list ptr) (node : ptr) : M (list ptr) :=
  if (length stack <? STACK_SIZE)%nat then ret (node :: stack)
  else undef OutOfBounds.

(** [line[0] == 'H' || line[0] == 'V'] *)
Definition is_cut_char (c : ascii) : bool := Ascii.eqb c chH || Ascii.eqb c chV.

(** The body of the [while] loop for one line.  When [sscanf] assigns
    fewer than three variables, [createNode] is called with the others
    unassigned: their values are not determined by the program.  ([fgets]
    never hands over an empty line; the last case is there for totality and
    is what an empty buffer would lead to.) *)
Definition buildTree_line (line : string) (stack : list ptr) : M (list ptr) :=
  match line with
  | String c _ =>
    if is_cut_char c then
      node <- createNode 0 0 0 ;;
      store node (set_type c) ;;;
      pr <- pop stack ;;
      store node (set_right (fst pr)) ;;;
      pl <- pop (snd pr) ;;
      store node (set_left (fst pl)) ;;;
      push (snd pl) node
    else
      match sscanf line with
      | Done [label; width; height] =>
        node <- createNode label width height ;;
        push stack node
      | Done _ => undef Indeterminate
      | Undef u => undef u
      | OutOfFuel => out_of_fuel
      end
  | "" => undef Indeterminate
  end.

Fixpoint buildTree_loop (fuel : nat) (stack : list ptr) : M (list ptr) :=
  match fuel with
  | O => out_of_fuel
  | S fuel' =>
    l <- fgets LINE_SIZE ;;
    match l with
    | None => ret stack
    | Some line =>
      stack' <- buildTree_line line stack ;;
      buildTree_loop fuel' stack'
    end
  end.

(** [buildTree(input)].  Every turn of the loop consumes at least one
    character, so the length of the input bounds the number of turns (see
    [buildTree_fuel]). *)
Definition buildTree : M ptr :=
  fun w =>
    (stack <- buildTree_loop (S (String.length (input w))) [] ;;
     match stack with
     | p :: _ => ret p
     | [] => undef OutOfBounds
     end) w.

(** ** The report writers and the two passes *)

(** ["%d(%d,%d)\n"], ["%c\n"], ["%c(%d,%d)\n"] and ["%d((%d,%d)(%d,%d))\n"]. *)
Definition eol : string := String LF "".
Definition fmt_leaf (l w h : Z) : string :=
  fmt_d l +++ "(" +++ fmt_d w +++ "," +++ fmt_d h +++ ")" +++ eol.
Definition fmt_cut (c : ascii) : string := String c eol.
Definition fmt_cut_dims (c : ascii) (w h : Z) : string :=
  String c ("(" +++ fmt_d w +++ "," +++ fmt_d h +++ ")" +++ eol).
Definition fmt_coords (l w h x y : Z) : string :=
  fmt_d l +++ "((" +++ fmt_d w +++ "," +++ fmt_d h +++ ")("
          +++ fmt_d x +++ "," +++ fmt_d y +++ "))" +++ eol.

Fixpoint preorderTraversal (fuel : nat) (root : ptr) (outputFile : nat) : M unit :=
  match fuel with
  | O => out_of_fuel
  | S fuel' =>
    match root with
    | None => ret tt
    | Some _ =>
      t <- load root type ;;
      (if Ascii.eqb t NUL then
         l <- load root label ;;
         w <- load root width ;;
         h <- load root height ;;
         fprintf outputFile (fmt_leaf l w h)
       else
         fprintf outputFile (fmt_cut t)) ;;;
      l <- load root left ;;
      preorderTraversal fuel' l outputFile ;;;
      r <- load root right ;;
      preorderTraversal fuel' r outputFile
    end
  end.

Fixpoint computeDimensions (fuel : nat) (root : ptr) : M unit :=
  match fuel with
  | O => out_of_fuel
  | S fuel' =>
    match root with
    | None => ret tt
    | Some _ =>
      t <- load root type ;;
      if Ascii.eqb t NUL then ret tt
      else
        l <- load root left ;;
        computeDimensions fuel' l ;;;
        r <- load root right ;;
        computeDimensions fuel' r ;;;
        t <- load root type ;;
        if Ascii.eqb t chH then
          l <- load root left ;;
          r <- load root right ;;
          lw <- load l width ;;
          rw <- load r width ;;
          store root (set_width (if lw >? rw then lw else rw)) ;;;
          lh <- load l height ;;
          rh <- load r height ;;
          h <- int_add lh rh ;;
          store root (set_height h)
        else if Ascii.eqb t chV then
          l <- load root left ;;
          r <- load root right ;;
          lw <- load l width ;;
          rw <- load r width ;;
          w <- int_add lw rw ;;
          store root (set_width w) ;;;
          lh <- load l height ;;
          rh <- load r height ;;
          store root (set_height (if lh >? rh then lh else rh))
        else ret tt
    end
  end.

Fixpoint writeDimensions (fuel : nat) (root : ptr) (outputFile : nat) : M unit :=
  match fuel with
  | O => out_of_fuel
  | S fuel' =>
    match root with
    | None => ret tt
    | Some _ =>
      l <- load root left ;;
      writeDimensions fuel' l outputFile ;;;
      r <- load root right ;;
      writeDimensions fuel' r outputFile ;;;
      t <- load root type ;;
      w <- load root width ;;
      h <- load root height ;;
      if Ascii.eqb t NUL then
        l <- load root label ;;
        fprintf outputFile (fmt_leaf l w h)
      else
        fprintf outputFile (fmt_cut_dims t w h)
    end
  end.

Fixpoint computeCoordinates (fuel : nat) (root : ptr) (x y : Z) : M unit :=
  match fuel with
  | O => out_of_fuel
  | S fuel' =>
    match root with
    | None => ret tt
    | Some _ =>
      t <- load root type ;;
      if Ascii.eqb t NUL then
        store root (set_x x) ;;;
        store root (set_y y)
      else if Ascii.eqb t chH then
        l <- load root left ;;
        r <- load root right ;;
        rh <- load r height ;;
        y' <- int_add y rh ;;
        computeCoordinates fuel' l x y' ;;;
        r <- load root right ;;
        computeCoordinates fuel' r x y
      else if Ascii.eqb t chV then
        l <- load root left ;;
        computeCoordinates fuel' l x y ;;;
        r <- load root right ;;
        l <- load root left ;;
        lw <- load l width ;;
        x' <- int_add x lw ;;
        computeCoordinates fuel' r x' y
      else ret tt
    end
  end.

Fixpoint writeCoordinates (fuel : nat) (root : ptr) (outputFile : nat) : M unit :=
  match fuel with
  | O => out_of_fuel
  | S fuel' =>
    match root with
    | None => ret tt
    | Some _ =>
      t <- load root type ;;
      (if Ascii.eqb t NUL then
         l <- load root label ;;
         w <- load root width ;;
         h <- load root height ;;
         cx <- load root x ;;
         cy <- load root y ;;
         fprintf outputFile (fmt_coords l w h cx cy)
       else ret tt) ;;;
      l <- load root left ;;
      writeCoordinates fuel' l outputFile ;;;
      r <- load root right ;;
      writeCoordinates fuel' r outputFile
    end
  end.

(** ** [main] *)

(** The state once [main] has opened its four files: nothing allocated,
    the whole input unread, three empty output streams (handles 0, 1, 2). *)
Definition start (s : string) : world := mkWorld [] s [""; ""; ""].

(** The recursive functions above take fuel because Rocq needs a bound on
    the depth of their recursion; a path from the root of a tree visits
    each struct at most once, so the number of structs allocated is such a
    bound (see [computeDimensions_fuel_enough]). *)
Definition heap_size : M nat := fun w => Done (length (mem w), w).

(** The body of [main] after the files are open ([freeTree] and [fclose]
    come after the last report and are left out). *)
Definition main : M unit :=
  root <- buildTree ;;
  fuel <- heap_size ;;
  preorderTraversal (S fuel) root 0 ;;;
  computeDimensions (S fuel) root ;;;
  writeDimensions (S fuel) root 1 ;;;
  computeCoordinates (S fuel) root 0 0 ;;;
  writeCoordinates (S fuel) root 2.

Definition run_main (s : string) : result (list string) :=
  match main (start s) with
  | Done (_, w) => Done (output w)
  | Undef u => Undef u
  | OutOfFuel => OutOfFuel
  end.

(** ** Trees as the logical view of the heap *)

Inductive cut := Horizontal | Vertical.

Definition cut_char (o : cut) : ascii :=
  match o with Horizontal => chH | Vertical => chV end.

(** A tree with the annotations its structs carry: a leaf has its label,
    its dimensions and its coordinates, a cut its orientation and its
    dimensions. *)
Inductive tree :=
| Leaf (l w h cx cy : Z)
| Cut (o : cut) (w h : Z) (tl tr : tree).

Fixpoint size (t : tree) : nat :=
  match t with
  | Leaf _ _ _ _ _ => 1
  | Cut _ _ _ tl tr => size tl + size tr + 1
  end.

Definition twidth (t : tree) : Z :=
  match t with Leaf _ w _ _ _ => w | Cut _ w _ _ _ => w end.
Definition theight (t : tree) : Z :=
  match t with Leaf _ _ h _ _ => h | Cut _ _ h _ _ => h end.

(** [buildTree] allocates the structs of a tree in post-order: a subtree
    laid out from address [b] occupies [b, b + size t) and its root is the
    last of them. *)
Definition root_of (b : nat) (t : tree) : nat :=
  match t with
  | Leaf _ _ _ _ _ => b
  | Cut _ _ _ tl tr => (b + size tl + size tr)%nat
  end.

Definition root_node (b : nat) (t : tree) : Node :=
  match t with
  | Leaf l w h cx cy => mkNode l w h cx cy NUL None None
  | Cut o w h tl tr =>
    mkNode 0 w h 0 0 (cut_char o)
           (Some (root_of b tl)) (Some (root_of (b + size tl) tr))
  end.

Fixpoint heap_of (b : nat) (t : tree) : list Node :=
  match t with
  | Leaf _ _ _ _ _ => [root_node b t]
  | Cut _ _ _ tl tr =>
    heap_of b tl ++ heap_of (b + size tl) tr ++ [root_node b t]
  end.

(** The heap [h] holds the structs of [t] from address [b] on. *)
Definition rep_at (h : list Node) (b : nat) (t : tree) : Prop :=
  forall i n, heap_of b t !! i = Some n -> h !! (b + i)%nat = Some n.

(** The subtrees still on the stack, the most recent first, above [b]
    structs that were there before. *)
Fixpoint forest_size (ts : list tree) : nat :=
  match ts with
  | [] => 0
  | t :: ts' => (forest_size ts' + size t)%nat
  end.

Fixpoint forest_heap (b : nat) (ts : list tree) : list Node :=
  match ts with
  | [] => []
  | t :: ts' => forest_heap b ts' ++ heap_of (b + forest_size ts') t
  end.

Fixpoint forest_roots (b : nat) (ts : list tree) : list ptr :=
  match ts with
  | [] => []
  | t :: ts' => Some (root_of (b + forest_size ts') t) :: forest_roots b ts'
  end.

(** A struct is part of the tree under [p]. *)
Inductive reach (h : list Node) : ptr -> nat -> Prop :=
| reach_root a : reach h (Some a) a
| reach_left a n b :
    h !! a = Some n -> reach h (left n) b -> reach h (Some a) b
| reach_right a n b :
    h !! a = Some n -> reach h (right n) b -> reach h (Some a) b.

(** [s], laid out at [bs], is a subtree of [t] laid out at [b]. *)
Inductive sub : tree -> nat -> tree -> nat -> Prop :=
| sub_here t b : sub t b t b
| sub_left o w h tl tr b s bs :
    sub tl b s bs -> sub (Cut o w h tl tr) b s bs
| sub_right o w h tl tr b s bs :
    sub tr (b + size tl) s bs -> sub (Cut o w h tl tr) b s bs.

(** No leaf of [t] has a negative width or height. *)
Fixpoint leaves_nonneg (t : tree) : Prop :=
  match t with
  | Leaf _ w h _ _ => 0 <= w /\ 0 <= h
  | Cut _ _ _ tl tr => leaves_nonneg tl /\ leaves_nonneg tr
  end.

(** The text has no minus sign. *)
Fixpoint no_minus (s : string) : bool :=
  match s with
  | "" => true
  | String c s' => negb (Ascii.eqb c "-") && no_minus s'
  end.

(** [(a > b) ? a : b] *)
Definition int_max (a b : Z) : Z := if a >? b then a else b.

(** The dimension pass seen on trees: [None] when a sum leaves [int]. *)
Fixpoint dims (t : tree) : option tree :=
  match t with
  | Leaf _ _ _ _ _ => Some t
  | Cut o w h tl tr =>
    match dims tl, dims tr with
    | Some tl', Some tr' =>
      match o with
      | Horizontal =>
        if in_int (theight tl' + theight tr')
        then Some (Cut o (int_max (twidth tl') (twidth tr'))
                         (theight tl' + theight tr') tl' tr')
        else None
      | Vertical =>
        if in_int (twidth tl' + twidth tr')
        then Some (Cut o (twidth tl' + twidth tr')
                         (int_max (theight tl') (theight tr')) tl' tr')
        else None
      end
    | _, _ => None
    end
  end.

(** The coordinate pass seen on trees, from the origin [(cx, cy)]. *)
Fixpoint coords (cx cy : Z) (t : tree) : option tree :=
  match t with
  | Leaf l w h _ _ => Some (Leaf l w h cx cy)
  | Cut Horizontal w h tl tr =>
    if in_int (cy + theight tr) then
      match coords cx (cy + theight tr) tl, coords cx cy tr with
      | Some tl', Some tr' => Some (Cut Horizontal w h tl' tr')
      | _, _ => None
      end
    else None
  | Cut Vertical w h tl tr =>
    if in_int (cx + twidth tl) then
      match coords cx cy tl, coords (cx + twidth tl) cy tr with
      | Some tl', Some tr' => Some (Cut Vertical w h tl' tr')
      | _, _ => None
      end
    else None
  end.

(** ** The rules of the two passes, read on the heap *)

(** [p] points to the struct [n]. *)
Definition node_at (h : list Node) (p : ptr) (n : Node) : Prop :=
  exists a, p = Some a /\ h !! a = Some n.

(** The dimensions of a cut follow from those of its two children. *)
Definition dimension_rule (h : list Node) (n : Node) : Prop :=
  (type n = chH ->
   exists nl nr, node_at h (left n) nl /\ node_at h (right n) nr /\
     width n = Z.max (width nl) (width nr) /\
     height n = height nl + height nr) /\
  (type n = chV ->
   exists nl nr, node_at h (left n) nl /\ node_at h (right n) nr /\
     width n = width nl + width nr /\
     height n = Z.max (height nl) (height nr)).

(** The tree under [p] is placed with its origin at [(cx, cy)]: under a
    horizontal cut the right subtree is at the origin and the left one
    above it, under a vertical cut the left subtree is at the origin and
    the right one beside it, and a leaf has the origin as its
    coordinates. *)
Inductive placed (h : list Node) : ptr -> Z -> Z -> Prop :=
| placed_leaf a n cx cy :
    h !! a = Some n -> type n = NUL -> x n = cx -> y n = cy ->
    placed h (Some a) cx cy
| placed_H a n nr cx cy :
    h !! a = Some n -> type n = chH -> node_at h (right n) nr ->
    placed h (right n) cx cy ->
    placed h (left n) cx (cy + height nr) ->
    placed h (Some a) cx cy
| placed_V a n nl cx cy :
    h !! a = Some n -> type n = chV -> node_at h (left n) nl ->
    placed h (left n) cx cy ->
    placed h (right n) (cx + width nl) cy ->
    placed h (Some a) cx cy.

(** ** The example of the specification *)

Definition example_input : string :=
  "1(2,3)" +++ eol +++ "2(4,5)" +++ eol +++ "H" +++ eol.

(** The state after [buildTree], after [computeDimensions] and after
    [computeCoordinates] on that input. *)
Definition state_after {A} (r : result (A * world)) : world :=
  match r with Done (_, w) => w | _ => start "" end.

Definition example_built : world :=
  Eval vm_compute in state_after (buildTree (start example_input)).
Definition example_dimensioned : world :=
  Eval vm_compute in state_after (computeDimensions 3 (Some 2%nat) example_built).
Definition example_placed : world :=
  Eval vm_compute in
    state_after (computeCoordinates 3 (Some 2%nat) 0 0 example_dimensioned).

(** ** Token sequences and rectangles *)

(** A line of the input: a leaf descriptor or an operator. *)
Inductive token :=
| TLeaf (l w h : Z)
| TOp (o : cut).

(** A leaf descriptor is valid when its three fields are positive. *)
Definition valid_token (k : token) : Prop :=
  match k with
  | TLeaf l w h => 0 < l /\ 0 < w /\ 0 < h
  | TOp _ => True
  end.

Definition render_token (k : token) : string :=
  match k with
  | TLeaf l w h => fmt_leaf l w h
  | TOp o => fmt_cut (cut_char o)
  end.

(** The input file with one token per line. *)
Fixpoint render (ks : list token) : string :=
  match ks with
  | [] => ""
  | k :: ks' => render_token k +++ render ks'
  end.

(** The rectangles of two leaves share some area. *)
Definition overlap (n1 n2 : Node) : bool :=
  (x n1 <? x n2 + width n2) && (x n2 <? x n1 + width n1) &&
  (y n1 <? y n2 + height n2) && (y n2 <? y n1 + height n1).

(** Every cut of [t] has the dimensions its children give it. *)
Fixpoint dimensioned (t : tree) : Prop :=
  match t with
  | Leaf _ _ _ _ _ => True
  | Cut Horizontal w h tl tr =>
    w = Z.max (twidth tl) (twidth tr) /\ h = theight tl + theight tr /\
    dimensioned tl /\ dimensioned tr
  | Cut Vertical w h tl tr =>
    w = twidth tl + twidth tr /\ h = Z.max (theight tl) (theight tr) /\
    dimensioned tl /\ dimensioned tr
  end.

(** ** Trees as the input describes them *)

(** A tree before any pass: leaves with their label and dimensions, cuts
    with their orientation. *)
Inductive shape :=
| SLeaf (l w h : Z)
| SCut (o : cut) (sl sr : shape).

(** The post-order token sequence of a tree. *)
Fixpoint postorder (s : shape) : list token :=
  match s with
  | SLeaf l w h => [TLeaf l w h]
  | SCut o sl sr => postorder sl ++ postorder sr ++ [TOp o]
  end.

(** The annotated tree [buildTree] makes of it: coordinates, and the
    dimensions of cuts, are zero. *)
Fixpoint initial (s : shape) : tree :=
  match s with
  | SLeaf l w h => Leaf l w h 0 0
  | SCut o sl sr => Cut o 0 0 (initial sl) (initial sr)
  end.

(** The number of stack entries the tokens of [s] need at most. *)
Fixpoint need (s : shape) : nat :=
  match s with
  | SLeaf _ _ _ => 1
  | SCut _ sl sr => Nat.max (need sl) (S (need sr))
  end.

(** A leaf descriptor the program can read: its fields are [int]s and its
    line, newline included, fits [line[20]]. *)
Definition leaf_fits (l w h : Z) : Prop :=
  in_int l = true /\ in_int w = true /\ in_int h = true /\
  (String.length (fmt_leaf l w h) <= LINE_SIZE - 1)%nat.

Fixpoint fits (s : shape) : Prop :=
  match s with
  | SLeaf l w h => leaf_fits l w h
  | SCut _ sl sr => fits sl /\ fits sr
  end.

(** The tree read back from the heap through the [left] and [right]
    pointers. *)
Fixpoint shape_at (fuel : nat) (h : list Node) (p : ptr) : option shape :=
  match fuel with
  | O => None
  | S fuel' =>
    match p with
    | None => None
    | Some a =>
      match h !! a with
      | None => None
      | Some n =>
        if Ascii.eqb (type n) NUL then Some (SLeaf (label n) (width n) (height n))
        else
          match shape_at fuel' h (left n), shape_at fuel' h (right n) with
          | Some sl, Some sr =>
            if Ascii.eqb (type n) chH then Some (SCut Horizontal sl sr)
            else if Ascii.eqb (type n) chV then Some (SCut Vertical sl sr)
            else None
          | _, _ => None
          end
      end
    end
  end.

(** The value of the digits [d] read in base ten on top of [acc]. *)
Fixpoint horner (acc : Z) (d : Decimal.uint) : Z :=
  match d with
  | Decimal.Nil => acc
  | Decimal.D0 d' => horner (10 * acc + 0) d'
  | Decimal.D1 d' => horner (10 * acc + 1) d'
  | Decimal.D2 d' => horner (10 * acc + 2) d'
  | Decimal.D3 d' => horner (10 * acc + 3) d'
  | Decimal.D4 d' => horner (10 * acc + 4) d'
  | Decimal.D5 d' => horner (10 * acc + 5) d'
  | Decimal.D6 d' => horner (10 * acc + 6) d'
  | Decimal.D7 d' => horner (10 * acc + 7) d'
  | Decimal.D8 d' => horner (10 * acc + 8) d'
  | Decimal.D9 d' => horner (10 * acc + 9) d'
  end.

(** The text does not begin with a digit. *)
Definition nondigit (s : string) : Prop :=
  match s with
  | "" => True
  | String c _ => digit_of c = None
  end.

(** The text has no newline. *)
Fixpoint no_lf (s : string) : bool :=
  match s with
  | "" => true
  | String c s' => negb (Ascii.eqb c LF) && no_lf s'
  end.

(** A leaf line without its newline. *)
Definition leaf_body (l w h : Z) : string :=
  fmt_d l +++ "(" +++ fmt_d w +++ "," +++ fmt_d h +++ ")".

(** The tokens of several trees, one tree after the other. *)
Fixpoint forest_tokens (ss : list shape) : list token :=
  match ss with
  | [] => []
  | s :: ss' => postorder s ++ forest_tokens ss'
  end.

(** With [k] entries on the stack already, the tokens of the trees [ss]
    never need more than [STACK_SIZE] entries. *)
Fixpoint forest_ok (k : nat) (ss : list shape) : Prop :=
  match ss with
  | [] => True
  | s :: ss' => (k + need s <= STACK_SIZE)%nat /\ forest_ok (S k) ss'
  end.

(** A tree whose tokens need [n + 1] stack entries: [n + 1] leaves
    followed by [n] operators. *)
Fixpoint comb (n : nat) : shape :=
  match n with
  | O => SLeaf 1 1 1
  | S n' => SCut Horizontal (SLeaf 1 1 1) (comb n')
  end.

(** ** Comparing computations *)

(** [m'] returns whatever [m] returns: used for runs with more fuel. *)
Definition extends {A} (m m' : M A) : Prop :=
  forall w r, m w = Done r -> m' w = Done r.

(** A computation that leaves the heap as it found it. *)
Definition keeps_mem {A} (m : M A) : Prop :=
  forall w a w', m w = Done (a, w') -> mem w' = mem w.

(** ** The example, continued *)

(** The states after each of the three reports on the example. *)
Definition example_report1 : world :=
  Eval vm_compute in state_after (preorderTraversal 3 (Some 2%nat) 0 example_placed).
Definition example_report2 : world :=
  Eval vm_compute in state_after (writeDimensions 3 (Some 2%nat) 1 example_placed).
Definition example_report3 : world :=
  Eval vm_compute in state_after (writeCoordinates 3 (Some 2%nat) 2 example_placed).

(** ** The three reports as texts *)

(** The tree with its annotations forgotten. *)
Fixpoint erase (t : tree) : shape :=
  match t with
  | Leaf l w h _ _ => SLeaf l w h
  | Cut o _ _ tl tr => SCut o (erase tl) (erase tr)
  end.

(** The tokens of a tree with every operator before its operands. *)
Fixpoint preorder (s : shape) : list token :=
  match s with
  | SLeaf l w h => [TLeaf l w h]
  | SCut o sl sr => TOp o :: preorder sl ++ preorder sr
  end.

(** What [preorderTraversal], [writeDimensions] and [writeCoordinates]
    print for a tree. *)
Fixpoint pre_report (t : tree) : string :=
  match t with
  | Leaf l w h _ _ => fmt_leaf l w h
  | Cut o _ _ tl tr => fmt_cut (cut_char o) +++ pre_report tl +++ pre_report tr
  end.

Fixpoint dim_report (t : tree) : string :=
  match t with
  | Leaf l w h _ _ => fmt_leaf l w h
  | Cut o w h tl tr =>
    dim_report tl +++ dim_report tr +++ fmt_cut_dims (cut_char o) w h
  end.

Fixpoint coord_report (t : tree) : string :=
  match t with
  | Leaf l w h cx cy => fmt_coords l w h cx cy
  | Cut _ _ _ tl tr => coord_report tl +++ coord_report tr
  end.

(** The pipeline of [main] seen on trees. *)
Definition reports_of (t : tree) : result (list string) :=
  match dims t with
  | None => Undef IntOverflow
  | Some t' =>
    match coords 0 0 t' with
    | None => Undef IntOverflow
    | Some t'' => Done [pre_report t; dim_report t'; coord_report t'']
    end
  end.

(** Every field of every leaf is an [int]. *)
Fixpoint ints (s : shape) : Prop :=
  match s with
  | SLeaf l w h => in_int l = true /\ in_int w = true /\ in_int h = true
  | SCut _ sl sr => ints sl /\ ints sr
  end.

(** The output streams at the end of a run. *)
Definition outputs_of {A} (r : result (A * world)) : result (list string) :=
  match r with
  | Done (_, w) => Done (output w)
  | Undef u => Undef u
  | OutOfFuel => OutOfFuel
  end.

(** The lines of the dimension report, and the leaves of a tree from left
    to right with their label, width, height and coordinates. *)
Fixpoint dim_lines (t : tree) : list string :=
  match t with
  | Leaf l w h _ _ => [fmt_leaf l w h]
  | Cut o w h tl tr => dim_lines tl ++ dim_lines tr ++ [fmt_cut_dims (cut_char o) w h]
  end.

Fixpoint leaves (t : tree) : list (Z * Z * Z * Z * Z) :=
  match t with
  | Leaf l w h cx cy => [(l, w, h, cx, cy)]
  | Cut _ _ _ tl tr => leaves tl ++ leaves tr
  end.

Definition coord_line (p : Z * Z * Z * Z * Z) : string :=
  let '(l, w, h, cx, cy) := p in fmt_coords l w h cx cy.

Definition leaf_token (p : Z * Z * Z * Z * Z) : token :=
  let '(l, w, h, _, _) := p in TLeaf l w h.

Definition is_leaf_token (k : token) : bool :=
  match k with TLeaf _ _ _ => true | TOp _ => false end.

(** The lines of a file, one after the other. *)
Fixpoint cat (lines : list string) : string :=
  match lines with
  | [] => ""
  | l :: lines' => l +++ cat lines'
  end.

(** A line of the dimension report against the input line it answers:
    a leaf line is repeated, an operator line gets dimensions. *)
Definition dim_line_of (k : token) (line : string) : Prop :=
  match k with
  | TLeaf l w h => line = fmt_leaf l w h
  | TOp o => exists w h, line = fmt_cut_dims (cut_char o) w h
  end.

(** What the two passes leave of a struct [n1] in the struct [n3] that is
    at its address afterwards: the label, the kind and the links; the
    dimensions of a leaf; the coordinates of a cut. *)
Definition kept (n1 n3 : Node) : Prop :=
  label n3 = label n1 /\ type n3 = type n1 /\
  left n3 = left n1 /\ right n3 = right n1 /\
  (type n1 = NUL -> width n3 = width n1 /\ height n3 = height n1) /\
  (type n1 <> NUL -> x n3 = x n1 /\ y n3 = y n1).

(** The total area of the leaves. *)
Fixpoint area (s : shape) : Z :=
  match s with
  | SLeaf _ w h => w * h
  | SCut _ sl sr => area sl + area sr
  end.

(** ** [freeTree] *)

(** [free] does not change what the model keeps of a struct; what it
    changes is which structs may still be used.  [freeTree] is therefore
    run over the heap together with the list of the addresses freed so
    far, in the order of the calls of [free].  Reading a field of a struct
    that was freed, and freeing it again, are accesses outside the heap. *)
Definition rbind {A B} (r : result A) (k : A -> result B) : result B :=
  match r with
  | Done a => k a
  | Undef u => Undef u
  | OutOfFuel => OutOfFuel
  end.

(** [p->f] when the structs [freed] are gone. *)
Definition live_load {A} (w : world) (freed : list nat) (p : ptr) (f : Node -> A)
  : result A :=
  match p with
  | None => Undef NullDeref
  | Some a =>
    if decide (elem_of a freed) then Undef OutOfBounds
    else match mem w !! a with
         | Some n => Done (f n)
         | None => Undef OutOfBounds
         end
  end.

(** [free(p)] for a pointer that is not [NULL]. *)
Definition free (w : world) (freed : list nat) (a : nat) : result (list nat) :=
  if decide (elem_of a freed) then Undef OutOfBounds
  else match mem w !! a with
       | Some _ => Done (freed ++ [a])
       | None => Undef OutOfBounds
       end.

Fixpoint freeTree (fuel : nat) (root : ptr) (w : world) (freed : list nat)
  : result (list nat) :=
  match fuel with
  | O => OutOfFuel
  | S fuel' =>
    match root with
    | None => Done freed
    | Some a =>
      rbind (live_load w freed root left) (fun l =>
      rbind (freeTree fuel' l w freed) (fun freed1 =>
      rbind (live_load w freed1 root right) (fun r =>
      rbind (freeTree fuel' r w freed1) (fun freed2 =>
      free w freed2 a))))
    end
  end.

(** ** Moving the origin, and a last line without newline *)

(** A tree moved by [(dx, dy)], and a struct of it. *)
Fixpoint shift (dx dy : Z) (t : tree) : tree :=
  match t with
  | Leaf l w h cx cy => Leaf l w h (cx + dx) (cy + dy)
  | Cut o w h tl tr => Cut o w h (shift dx dy tl) (shift dx dy tr)
  end.

Definition moved (dx dy : Z) (n : Node) : Node :=
  if Ascii.eqb (type n) NUL then set_y (y n + dy) (set_x (x n + dx) n) else n.

(** A text without its last character. *)
Fixpoint chop (s : string) : string :=
  match s with
  | "" => ""
  | String c s' => match s' with "" => "" | _ => String c (chop s') end
  end.

(** The widths, and the heights, of all the leaves together. *)
Fixpoint total_width (s : shape) : Z :=
  match s with
  | SLeaf _ w _ => w
  | SCut _ sl sr => total_width sl + total_width sr
  end.

Fixpoint total_height (s : shape) : Z :=
  match s with
  | SLeaf _ _ h => h
  | SCut _ sl sr => total_height sl + total_height sr
  end.

(** The tree of the example. *)
Definition example_shape : shape := SCut Horizontal (SLeaf 1 2 3) (SLeaf 2 4 5).

(** ** The enclosing rectangle in unbounded integers *)

(** The width and the height that the rules of the dimension pass give a
    tree when the sums are taken in the integers, without the limits of
    [int]. *)
Fixpoint rect_width (s : shape) : Z :=
  match s with
  | SLeaf _ w _ => w
  | SCut Horizontal sl sr => Z.max (rect_width sl) (rect_width sr)
  | SCut Vertical sl sr => rect_width sl + rect_width sr
  end.

Fixpoint rect_height (s : shape) : Z :=
  match s with
  | SLeaf _ _ h => h
  | SCut Horizontal sl sr => rect_height sl + rect_height sr
  | SCut Vertical sl sr => Z.max (rect_height sl) (rect_height sr)
  end.

(** The enclosing rectangle of the whole tree has an [int] width and an
    [int] height. *)
Definition rect_in_int (s : shape) : Prop :=
  rect_width s <= INT_MAX /\ rect_height s <= INT_MAX.

(** ** What [%d] accepts *)






(** ** A floorplan with both kinds of cut *)

(** Block 1 beside blocks 2 and 3, block 2 above block 3; its input file
    and the states after [buildTree] and after each pass. *)
Definition floorplan : shape :=
  SCut Vertical (SLeaf 1 2 3) (SCut Horizontal (SLeaf 2 4 5) (SLeaf 3 1 1)).
Definition floorplan_input : string :=
  "1(2,3)" +++ eol +++ "2(4,5)" +++ eol +++ "3(1,1)" +++ eol
           +++ "H" +++ eol +++ "V" +++ eol.
Definition floorplan_built : world :=
  Eval vm_compute in state_after (buildTree (start floorplan_input)).
Definition floorplan_dimensioned : world :=
  Eval vm_compute in state_after (computeDimensions 5 (Some 4%nat) floorplan_built).
Definition floorplan_placed : world :=
  Eval vm_compute in
    state_after (computeCoordinates 5 (Some 4%nat) 0 0 floorplan_dimensioned).
Definition floorplan_placed_10_20 : world :=
  Eval vm_compute in
    state_after (computeCoordinates 5 (Some 4%nat) 10 20 floorplan_dimensioned).

(** Two blocks side by side that are together wider than [INT_MAX], and
    two small blocks side by side. *)
Definition too_wide : shape :=
  SCut Vertical (SLeaf 1 2147483647 1) (SLeaf 2 1 1).
Definition two_blocks : shape :=
  SCut Vertical (SLeaf 1 1 1) (SLeaf 2 1 1).

(** Two blocks one above the other that are together higher than
    [INT_MAX]. *)
Definition too_high : shape :=
  SCut Horizontal (SLeaf 1 1 2147483647) (SLeaf 2 1 1).

(* ================================================================= *)
(** * Properties *)

(** ** The monad *)

Lemma bind_Done {A B} (m : M A) (k : A -> M B) w a w' :
  m w = Done (a, w') -> bind m k w = k a w'.
Proof. unfold bind. intros ->. reflexivity. Qed.

Lemma bind_inv {A B} (m : M A) (k : A -> M B) w b w'' :
  bind m k w = Done (b, w'') ->
  exists a w', m w = Done (a, w') /\ k a w' = Done (b, w'').
Proof.
  unfold bind. destruct (m w) as [[a w']|u|]; try discriminate.
  intros H. exists a, w'. split; [reflexivity | exact H].
Qed.

Lemma bind_load {A B} a (f : Node -> A) (k : A -> M B) w n :
  mem w !! a = Some n -> bind (load (Some a) f) k w = k (f n) w.
Proof. unfold bind, load. intros ->. reflexivity. Qed.

Lemma bind_store {B} a upd (k : unit -> M B) w n :
  mem w !! a = Some n ->
  bind (store (Some a) upd) k w = k tt (set_mem (<[a := upd n]> (mem w)) w).
Proof. unfold bind, store. intros ->. reflexivity. Qed.

Lemma bind_int_add {B} a b (k : Z -> M B) w :
  in_int (a + b) = true -> bind (int_add a b) k w = k (a + b) w.
Proof. unfold bind, int_add. intros ->. reflexivity. Qed.

Lemma bind_int_add_overflow {B} a b (k : Z -> M B) w :
  in_int (a + b) = false -> bind (int_add a b) k w = Undef IntOverflow.
Proof. unfold bind, int_add. intros ->. reflexivity. Qed.

(** ** Layout of a tree in the heap *)

Lemma size_pos t : (1 <= size t)%nat.
Proof. destruct t; simpl; lia. Qed.

Lemma heap_of_length b t : length (heap_of b t) = size t.
Proof.
  revert b. induction t as [|o w h tl IHl tr IHr]; intros b; simpl.
  - reflexivity.
  - rewrite !length_app, IHl, IHr. simpl. lia.
Qed.

Lemma root_of_last b t : (root_of b t + 1 = b + size t)%nat.
Proof. destruct t; simpl; lia. Qed.

Lemma heap_of_root b t :
  heap_of b t !! (size t - 1)%nat = Some (root_node b t).
Proof.
  destruct t as [|o w h tl tr]; simpl; [reflexivity|].
  rewrite app_assoc. apply list_lookup_middle.
  rewrite length_app, !heap_of_length. lia.
Qed.

Lemma rep_at_root h b t : rep_at h b t -> h !! root_of b t = Some (root_node b t).
Proof.
  intros H. specialize (H _ _ (heap_of_root b t)).
  pose proof (root_of_last b t). pose proof (size_pos t).
  replace (root_of b t) with (b + (size t - 1))%nat by lia. exact H.
Qed.

Lemma rep_at_left h b o w ht tl tr :
  rep_at h b (Cut o w ht tl tr) -> rep_at h b tl.
Proof.
  intros H i n Hi. apply H. simpl. apply lookup_app_l_Some. exact Hi.
Qed.

Lemma rep_at_right h b o w ht tl tr :
  rep_at h b (Cut o w ht tl tr) -> rep_at h (b + size tl) tr.
Proof.
  intros H i n Hi.
  replace (b + size tl + i)%nat with (b + (size tl + i))%nat by lia.
  apply H. simpl. rewrite lookup_app_r; rewrite heap_of_length; [|lia].
  replace (size tl + i - size tl)%nat with i by lia.
  apply lookup_app_l_Some. exact Hi.
Qed.

Lemma rep_at_cut h b o w ht tl tr :
  rep_at h b tl -> rep_at h (b + size tl) tr ->
  h !! (b + size tl + size tr)%nat = Some (root_node b (Cut o w ht tl tr)) ->
  rep_at h b (Cut o w ht tl tr).
Proof.
  intros Hl Hr Hn i n. simpl.
  destruct (decide (i < size tl)%nat) as [Hi|Hi].
  - rewrite lookup_app_l by (rewrite heap_of_length; lia). apply Hl.
  - rewrite lookup_app_r by (rewrite heap_of_length; lia).
    rewrite heap_of_length.
    destruct (decide (i - size tl < size tr)%nat) as [Hj|Hj].
    + rewrite lookup_app_l by (rewrite heap_of_length; lia).
      intros Hi'. apply Hr in Hi'.
      replace (b + i)%nat with (b + size tl + (i - size tl))%nat by lia.
      exact Hi'.
    + rewrite lookup_app_r by (rewrite heap_of_length; lia).
      rewrite heap_of_length.
      destruct (i - size tl - size tr)%nat as [|k] eqn:Hk; simpl.
      * intros [= <-]. replace (b + i)%nat with (b + size tl + size tr)%nat by lia.
        exact Hn.
      * rewrite lookup_nil. discriminate.
Qed.

Lemma rep_at_sub h t b s bs : sub t b s bs -> rep_at h b t -> rep_at h bs s.
Proof.
  induction 1 as [| o w ht tl tr b s bs _ IH | o w ht tl tr b s bs _ IH]; intros Hrep.
  - exact Hrep.
  - apply IH. eapply rep_at_left; eauto.
  - apply IH. eapply rep_at_right; eauto.
Qed.

Lemma sub_range t b s bs :
  sub t b s bs -> (b <= bs /\ bs + size s <= b + size t)%nat.
Proof.
  induction 1; simpl in *; lia.
Qed.

Lemma reach_sub h p a :
  reach h p a ->
  forall t b, rep_at h b t -> p = Some (root_of b t) ->
  exists s bs, sub t b s bs /\ a = root_of bs s.
Proof.
  induction 1 as [a | a n c Hn Hr IH | a n c Hn Hr IH]; intros t b Hrep [= ->].
  - exists t, b. split; [constructor | reflexivity].
  - rewrite (rep_at_root _ _ _ Hrep) in Hn. injection Hn as <-.
    destruct t as [|o w ht tl tr]; simpl in *; [inversion Hr|].
    destruct (IH tl b) as (s & bs & Hs & ->);
      [eapply rep_at_left; eauto | reflexivity |].
    exists s, bs. split; [apply sub_left; exact Hs | reflexivity].
  - rewrite (rep_at_root _ _ _ Hrep) in Hn. injection Hn as <-.
    destruct t as [|o w ht tl tr]; simpl in *; [inversion Hr|].
    destruct (IH tr (b + size tl)%nat) as (s & bs & Hs & ->);
      [eapply rep_at_right; eauto | reflexivity |].
    exists s, bs. split; [apply sub_right; exact Hs | reflexivity].
Qed.

Lemma sub_reach h t b s bs :
  sub t b s bs -> rep_at h b t -> reach h (Some (root_of b t)) (root_of bs s).
Proof.
  induction 1 as [| o w ht tl tr b s bs _ IH | o w ht tl tr b s bs _ IH]; intros Hrep.
  - constructor.
  - eapply reach_left; [apply rep_at_root; exact Hrep|].
    simpl. apply IH. eapply rep_at_left; eauto.
  - eapply reach_right; [apply rep_at_root; exact Hrep|].
    simpl. apply IH. eapply rep_at_right; eauto.
Qed.

(** ** Reading lines and numbers *)

Lemma fgets_chars_split n s l r :
  fgets_chars n s = (l, r) -> s = String.append l r.
Proof.
  revert s l r. induction n as [|n IH]; intros s l r; simpl.
  - intros [= <- <-]. reflexivity.
  - destruct s as [|c s']; [intros [= <- <-]; reflexivity|].
    destruct (Ascii.eqb c LF).
    + intros [= <- <-]. reflexivity.
    + destruct (fgets_chars n s') as [l' r'] eqn:E. intros [= <- <-].
      simpl. f_equal. apply IH. exact E.
Qed.

Lemma string_length_append a b :
  String.length (String.append a b) = (String.length a + String.length b)%nat.
Proof. induction a as [|c a IH]; simpl; [reflexivity | rewrite IH; reflexivity]. Qed.

Lemma no_minus_append a b :
  no_minus (String.append a b) = no_minus a && no_minus b.
Proof.
  induction a as [|c a IH]; simpl; [reflexivity|].
  rewrite IH. apply andb_assoc.
Qed.

Lemma skip_space_no_minus s : no_minus s = true -> no_minus (skip_space s) = true.
Proof.
  induction s as [|c s IH]; simpl; [reflexivity|]. intros H.
  destruct (isspace c); [|exact H].
  apply andb_true_iff in H as [_ H]. apply IH. exact H.
Qed.

Lemma digit_of_range c d : digit_of c = Some d -> 0 <= d <= 9.
Proof.
  unfold digit_of. destruct (_ && _) eqn:E; [|discriminate].
  intros [= <-]. apply andb_true_iff in E as [E1 E2]. lia.
Qed.

Lemma scan_digits_nonneg s acc v r :
  0 <= acc -> scan_digits acc s = (v, r) -> 0 <= v.
Proof.
  revert acc. induction s as [|c s IH]; intros acc Hacc; simpl.
  - intros [= <- _]. exact Hacc.
  - destruct (digit_of c) as [d|] eqn:E.
    + apply digit_of_range in E. apply IH. lia.
    + intros [= <- _]. exact Hacc.
Qed.

Lemma scan_digits_no_minus s acc v r :
  no_minus s = true -> scan_digits acc s = (v, r) -> no_minus r = true.
Proof.
  revert acc. induction s as [|c s IH]; intros acc Hs; simpl.
  - intros [= _ <-]. reflexivity.
  - destruct (digit_of c) as [d|] eqn:E.
    + simpl in Hs. apply andb_true_iff in Hs as [_ Hs]. apply IH. exact Hs.
    + intros [= _ <-]. exact Hs.
Qed.

Lemma scan_d_no_minus s v r :
  no_minus s = true -> scan_d s = Matched v r -> 0 <= v /\ no_minus r = true.
Proof.
  intros Hs. apply skip_space_no_minus in Hs. unfold scan_d.
  destruct (skip_space s) as [|c s']; [discriminate|].
  simpl in Hs. apply andb_true_iff in Hs as [Hc Hs'].
  destruct (Ascii.eqb c "-") eqn:Ec; [discriminate|].
  assert (Hnum : forall t, no_minus t = true ->
            scan_number false t = Matched v r -> 0 <= v /\ no_minus r = true).
  { intros t Ht. unfold scan_number. destruct t as [|c' t']; [discriminate|].
    destruct (digit_of c'); [|discriminate].
    destruct (scan_digits 0 (String c' t')) as [v' r'] eqn:E.
    destruct (in_int v'); [|discriminate]. intros [= <- <-]. split.
    - eapply scan_digits_nonneg; [|exact E]. lia.
    - eapply scan_digits_no_minus; [|exact E]. exact Ht. }
  destruct (Ascii.eqb c "+").
  - apply Hnum. exact Hs'.
  - apply Hnum. simpl. rewrite Ec, Hs'. reflexivity.
Qed.

Lemma literal_no_minus c s r :
  no_minus s = true -> literal c s = Some r -> no_minus r = true.
Proof.
  destruct s as [|c' s']; simpl; [discriminate|].
  intros H. apply andb_true_iff in H as [_ H].
  destruct (Ascii.eqb c' c); [|discriminate]. intros [= <-]. exact H.
Qed.

Lemma sscanf_no_minus line l w h :
  no_minus line = true -> sscanf line = Done [l; w; h] -> 0 <= w /\ 0 <= h.
Proof.
  intros Hs. unfold sscanf.
  destruct (scan_d line) as [v1 r1| |] eqn:E1; try discriminate.
  apply scan_d_no_minus in E1 as [_ H1]; [|exact Hs].
  destruct (literal "(" r1) as [r1'|] eqn:L1; [|discriminate].
  apply literal_no_minus in L1; [|exact H1].
  destruct (scan_d r1') as [v2 r2| |] eqn:E2; try discriminate.
  apply scan_d_no_minus in E2 as [Hv2 H2]; [|exact L1].
  destruct (literal "," r2) as [r2'|] eqn:L2; [|discriminate].
  apply literal_no_minus in L2; [|exact H2].
  destruct (scan_d r2') as [v3 r3| |] eqn:E3; try discriminate.
  apply scan_d_no_minus in E3 as [Hv3 _]; [|exact L2].
  intros [= <- <- <-]. split; assumption.
Qed.

(** ** One line of [buildTree] *)

Lemma insert_last {A} (l : list A) (a b : A) :
  <[length l := b]> (l ++ [a]) = l ++ [b].
Proof.
  rewrite insert_app_r_alt by lia.
  replace (length l - length l)%nat with O by lia. reflexivity.
Qed.

Lemma lookup_last {A} (l : list A) (a : A) : (l ++ [a]) !! length l = Some a.
Proof. apply list_lookup_middle. reflexivity. Qed.

(** An operator line: the new struct takes the two topmost entries. *)
Lemma buildTree_line_cut c rest stack w :
  is_cut_char c = true ->
  buildTree_line (String c rest) stack w =
  match stack with
  | r :: l :: st =>
    if (length st <? STACK_SIZE)%nat then
      Done (Some (length (mem w)) :: st,
            set_mem (mem w ++ [mkNode 0 0 0 0 0 c l r]) w)
    else Undef OutOfBounds
  | _ => Undef OutOfBounds
  end.
Proof.
  intros Hc. unfold buildTree_line. rewrite Hc.
  unfold bind at 1. unfold createNode.
  erewrite bind_store by (simpl; apply lookup_last).
  simpl. rewrite insert_last.
  destruct stack as [|r [|l st]]; try reflexivity.
  - unfold bind at 1. simpl.
    erewrite bind_store by (simpl; apply lookup_last). reflexivity.
  - unfold bind at 1. simpl.
    erewrite bind_store by (simpl; apply lookup_last).
    simpl. rewrite insert_last.
    unfold bind at 1. simpl.
    erewrite bind_store by (simpl; apply lookup_last).
    simpl. rewrite insert_last.
    unfold push. destruct (length st <? STACK_SIZE)%nat; reflexivity.
Qed.

(** A line that scans as three integers: a leaf is pushed. *)
Lemma buildTree_line_leaf c rest stack w l wd h :
  is_cut_char c = false ->
  sscanf (String c rest) = Done [l; wd; h] ->
  buildTree_line (String c rest) stack w =
  if (length stack <? STACK_SIZE)%nat then
    Done (Some (length (mem w)) :: stack,
          set_mem (mem w ++ [mkNode l wd h 0 0 NUL None None]) w)
  else Undef OutOfBounds.
Proof.
  intros Hc Hs. unfold buildTree_line. rewrite Hc, Hs.
  unfold bind, createNode, push.
  destruct (length stack <? STACK_SIZE)%nat; reflexivity.
Qed.

(** Whenever a line is processed without undefined behaviour, it was one
    of these two cases. *)
Lemma buildTree_line_Done line stack w stack' w' :
  buildTree_line line stack w = Done (stack', w') ->
  (exists c rest r l st,
      line = String c rest /\ is_cut_char c = true /\ stack = r :: l :: st /\
      stack' = Some (length (mem w)) :: st /\
      w' = set_mem (mem w ++ [mkNode 0 0 0 0 0 c l r]) w) \/
  (exists l wd h,
      sscanf line = Done [l; wd; h] /\ (length stack < STACK_SIZE)%nat /\
      stack' = Some (length (mem w)) :: stack /\
      w' = set_mem (mem w ++ [mkNode l wd h 0 0 NUL None None]) w).
Proof.
  destruct line as [|c rest]; [discriminate|].
  destruct (is_cut_char c) eqn:Hc.
  - rewrite buildTree_line_cut by exact Hc.
    destruct stack as [|r [|l st]]; try discriminate.
    destruct (length st <? STACK_SIZE)%nat; [|discriminate].
    intros [= <- <-]. left. exists c, rest, r, l, st. auto.
  - destruct (sscanf (String c rest)) as [vs|u|] eqn:Hs.
    + destruct vs as [|l [|wd [|h [|]]]];
        try (unfold buildTree_line; rewrite Hc, Hs; discriminate).
      rewrite (buildTree_line_leaf _ _ _ _ _ _ _ Hc Hs).
      destruct (length stack <? STACK_SIZE)%nat eqn:Hlen; [|discriminate].
      intros [= <- <-]. right. exists l, wd, h.
      apply Nat.ltb_lt in Hlen. auto.
    + unfold buildTree_line. rewrite Hc, Hs. discriminate.
    + unfold buildTree_line. rewrite Hc, Hs. discriminate.
Qed.

(** ** The loop of [buildTree] on any input *)

Lemma forest_heap_length b ts : length (forest_heap b ts) = forest_size ts.
Proof.
  induction ts as [|t ts IH]; simpl; [reflexivity|].
  rewrite length_app, IH, heap_of_length. reflexivity.
Qed.

Lemma is_cut_char_inv c : is_cut_char c = true -> exists o, c = cut_char o.
Proof.
  unfold is_cut_char. intros H. apply orb_true_iff in H as [H|H];
    apply Ascii.eqb_eq in H; subst c; [exists Horizontal | exists Vertical]; reflexivity.
Qed.

Lemma buildTree_line_inv pre line stack w stack' w' ts :
  buildTree_line line stack w = Done (stack', w') ->
  stack = forest_roots (length pre) ts ->
  mem w = pre ++ forest_heap (length pre) ts ->
  exists ts',
    stack' = forest_roots (length pre) ts' /\
    mem w' = pre ++ forest_heap (length pre) ts' /\
    input w' = input w /\ output w' = output w /\
    (no_minus line = true -> Forall leaves_nonneg ts -> Forall leaves_nonneg ts').
Proof.
  intros Hline Hst Hmem.
  assert (Hlen : length (mem w) = (length pre + forest_size ts)%nat).
  { rewrite Hmem, length_app, forest_heap_length. reflexivity. }
  apply buildTree_line_Done in Hline
    as [(c & rest & r & l & st & -> & Hc & Hs & -> & ->)
       |(l & wd & h & Hs & Hlt & -> & ->)].
  - destruct ts as [|tr [|tl ts0]]; simpl in Hst; rewrite Hs in Hst; try discriminate.
    injection Hst as -> -> ->.
    apply is_cut_char_inv in Hc as [o ->].
    exists (Cut o 0 0 tl tr :: ts0). simpl in *. repeat split.
    + f_equal. f_equal. lia.
    + rewrite Hmem. rewrite <- !app_assoc.
      replace (length (pre ++ forest_heap (length pre) ts0 ++
                 heap_of (length pre + forest_size ts0) tl ++
                 heap_of (length pre + (forest_size ts0 + size tl)) tr))
        with (length pre + forest_size ts0 + size tl + size tr)%nat
        by (rewrite !length_app, forest_heap_length, !heap_of_length; lia).
      rewrite !Nat.add_assoc. reflexivity.
    + intros _ Hnn. inversion Hnn as [|? ? Hr Hnn']; subst.
      inversion Hnn' as [|? ? Hl Hnn'']; subst.
      constructor; [split; assumption | assumption].
  - exists (Leaf l wd h 0 0 :: ts). simpl. repeat split.
    + rewrite Hst. f_equal. f_equal. lia.
    + rewrite Hmem. rewrite <- app_assoc. reflexivity.
    + intros Hnm Hnn. constructor; [|exact Hnn].
      simpl. eapply sscanf_no_minus; eauto.
Qed.

Lemma fgets_inv size w l w' :
  fgets size w = Done (l, w') ->
  mem w' = mem w /\ output w' = output w /\
  (no_minus (input w) = true ->
   no_minus (input w') = true /\
   forall line, l = Some line -> no_minus line = true).
Proof.
  unfold fgets. destruct (fgets_chars (size - 1) (input w)) as [line rest] eqn:E.
  apply fgets_chars_split in E.
  destruct line as [|c line'].
  - intros [= <- <-]. repeat split; try assumption. discriminate.
  - intros [= <- <-]. simpl. repeat split.
    + rewrite E, no_minus_append in H. apply andb_true_iff in H as [_ H]. exact H.
    + intros line0 [= <-].
      rewrite E, no_minus_append in H. apply andb_true_iff in H as [H _]. exact H.
Qed.

Lemma buildTree_loop_inv pre fuel :
  forall stack w stack' w' ts,
    buildTree_loop fuel stack w = Done (stack', w') ->
    stack = forest_roots (length pre) ts ->
    mem w = pre ++ forest_heap (length pre) ts ->
    exists ts',
      stack' = forest_roots (length pre) ts' /\
      mem w' = pre ++ forest_heap (length pre) ts' /\
      output w' = output w /\
      (no_minus (input w) = true ->
       Forall leaves_nonneg ts -> Forall leaves_nonneg ts').
Proof.
  induction fuel as [|fuel IH]; intros stack w stack' w' ts; simpl; [discriminate|].
  intros Hrun Hst Hmem.
  apply bind_inv in Hrun as (l & w1 & Hget & Hrun).
  apply fgets_inv in Hget as (Hm1 & Ho1 & Hnm1).
  destruct l as [line|].
  - apply bind_inv in Hrun as (stack1 & w2 & Hline & Hrun).
    rewrite <- Hm1 in Hmem.
    destruct (buildTree_line_inv pre _ _ _ _ _ ts Hline Hst Hmem)
      as (ts1 & Hst1 & Hmem1 & Hi1 & Ho2 & Hnn1).
    destruct (IH _ _ _ _ ts1 Hrun Hst1 Hmem1) as (ts' & Hst' & Hmem' & Ho' & Hnn').
    exists ts'. repeat split; try assumption.
    + congruence.
    + intros Hnm Hnn. destruct (Hnm1 Hnm) as [Hin Hl].
      apply Hnn'; [rewrite Hi1; exact Hin|].
      apply Hnn1; [apply Hl; reflexivity | exact Hnn].
  - injection Hrun as <- <-. exists ts.
    split; [exact Hst|]. split; [congruence|]. split; [congruence|]. auto.
Qed.

Lemma forest_heap_rep pre b t ts post h :
  h = pre ++ forest_heap b (t :: ts) ++ post -> b = length pre ->
  rep_at h (b + forest_size ts) t.
Proof.
  intros -> -> i n Hi. simpl.
  rewrite lookup_app_r by lia.
  rewrite <- app_assoc.
  rewrite lookup_app_r by (rewrite forest_heap_length; lia).
  rewrite forest_heap_length.
  replace (length pre + forest_size ts + i - length pre - forest_size ts)%nat
    with i by lia.
  apply lookup_app_l_Some. exact Hi.
Qed.

(** What [buildTree] returns, when it returns: the root of a tree whose
    structs lie in post-order in the heap. *)
Lemma buildTree_Done w root w' :
  buildTree w = Done (root, w') ->
  exists t b,
    root = Some (root_of b t) /\ rep_at (mem w') b t /\
    (b + size t <= length (mem w'))%nat /\
    output w' = output w /\
    (no_minus (input w) = true -> leaves_nonneg t).
Proof.
  unfold buildTree. intros H.
  apply bind_inv in H as (stack & w1 & Hloop & Hret).
  destruct (buildTree_loop_inv (mem w) _ _ _ _ _ [] Hloop)
    as (ts & Hst & Hmem & Hout & Hnn); [reflexivity | simpl; symmetry; apply app_nil_r |].
  destruct stack as [|p st]; [discriminate|].
  injection Hret as <- <-.
  destruct ts as [|t ts]; [discriminate|]. simpl in Hst. injection Hst as -> ->.
  exists t, (length (mem w) + forest_size ts)%nat. repeat split.
  - eapply forest_heap_rep with (post := []); [|reflexivity].
    rewrite app_nil_r. exact Hmem.
  - rewrite Hmem, length_app. simpl. rewrite length_app, forest_heap_length, heap_of_length. lia.
  - exact Hout.
  - intros Hnm. specialize (Hnn Hnm (List.Forall_nil _)).
    inversion Hnn; assumption.
Qed.

(** ** The dimension pass *)

Lemma bind_Undef {A B} (m : M A) (k : A -> M B) w u :
  m w = Undef u -> bind m k w = Undef u.
Proof. unfold bind. intros ->. reflexivity. Qed.

Lemma rep_at_frame h h' b t :
  rep_at h b t ->
  (forall a, (b <= a < b + size t)%nat -> h' !! a = h !! a) ->
  rep_at h' b t.
Proof.
  intros Hrep Hsame i n Hi.
  pose proof (lookup_lt_Some _ _ _ Hi) as Hlt. rewrite heap_of_length in Hlt.
  rewrite Hsame by lia. apply Hrep. exact Hi.
Qed.

Lemma width_root_node b t : width (root_node b t) = twidth t.
Proof. destruct t; reflexivity. Qed.

Lemma height_root_node b t : height (root_node b t) = theight t.
Proof. destruct t; reflexivity. Qed.

Lemma dims_size t t' : dims t = Some t' -> size t' = size t.
Proof.
  revert t'. induction t as [|o w h tl IHl tr IHr]; intros t'; simpl.
  - intros [= <-]. reflexivity.
  - destruct (dims tl) as [tl'|]; [|discriminate].
    destruct (dims tr) as [tr'|]; [|discriminate].
    specialize (IHl _ eq_refl). specialize (IHr _ eq_refl).
    destruct o; destruct (in_int _); try discriminate;
      intros [= <-]; simpl; lia.
Qed.

Lemma root_of_size b t t' : size t' = size t -> root_of b t' = root_of b t.
Proof.
  intros H. pose proof (root_of_last b t). pose proof (root_of_last b t'). lia.
Qed.

Lemma cut_char_not_NUL o : Ascii.eqb (cut_char o) NUL = false.
Proof. destruct o; reflexivity. Qed.

Lemma computeDimensions_rep t :
  forall fuel b w,
    rep_at (mem w) b t -> (size t <= fuel)%nat ->
    match dims t with
    | Some t' =>
      exists h',
        computeDimensions fuel (Some (root_of b t)) w = Done (tt, set_mem h' w) /\
        rep_at h' b t' /\ length h' = length (mem w) /\
        (forall a, (a < b \/ b + size t <= a)%nat -> h' !! a = mem w !! a)
    | None => computeDimensions fuel (Some (root_of b t)) w = Undef IntOverflow
    end.
Proof.
  induction t as [l0 w0 h0 cx cy|o w0 h0 tl IHl tr IHr]; intros fuel b w Hrep Hfuel.
  - (* a leaf: nothing to do *)
    destruct fuel as [|fuel]; [simpl in Hfuel; lia|].
    pose proof (rep_at_root _ _ _ Hrep) as Hroot. simpl in Hroot.
    simpl. exists (mem w). rewrite (bind_load _ _ _ _ _ Hroot). simpl.
    destruct w; auto.
  - destruct fuel as [|fuel]; [simpl in Hfuel; lia|].
    simpl in Hfuel.
    pose proof (rep_at_root _ _ _ Hrep) as Hroot.
    pose proof (rep_at_left _ _ _ _ _ _ _ Hrep) as Hl.
    pose proof (rep_at_right _ _ _ _ _ _ _ Hrep) as Hr.
    set (a := root_of b (Cut o w0 h0 tl tr)) in *.
    assert (Ha : a = (b + size tl + size tr)%nat) by reflexivity.
    cbn [computeDimensions].
    rewrite (bind_load _ _ _ _ _ Hroot). cbn [root_node type].
    rewrite cut_char_not_NUL.
    rewrite (bind_load _ _ _ _ _ Hroot). cbn [root_node left].
    (* the left subtree *)
    specialize (IHl fuel b w Hl ltac:(lia)).
    cbn [dims]. destruct (dims tl) as [tl'|] eqn:Dl;
      [|rewrite (bind_Undef _ _ _ _ IHl); reflexivity].
    destruct IHl as (h1 & Run1 & Hl1 & Len1 & Fr1).
    rewrite (bind_Done _ _ _ _ _ Run1).
    pose proof (dims_size _ _ Dl) as Sl.
    assert (Hroot1 : h1 !! a = Some (root_node b (Cut o w0 h0 tl tr)))
      by (rewrite Fr1 by lia; exact Hroot).
    assert (Hr1 : rep_at h1 (b + size tl) tr)
      by (eapply rep_at_frame; [exact Hr | intros; apply Fr1; lia]).
    rewrite (bind_load _ _ _ (set_mem h1 w) _ Hroot1). cbn [root_node right].
    (* the right subtree *)
    specialize (IHr fuel (b + size tl)%nat (set_mem h1 w) Hr1 ltac:(lia)).
    destruct (dims tr) as [tr'|] eqn:Dr;
      [|rewrite (bind_Undef _ _ _ _ IHr); reflexivity].
    destruct IHr as (h2 & Run2 & Hr2 & Len2 & Fr2). simpl in Len2, Fr2.
    rewrite (bind_Done _ _ _ _ _ Run2).
    pose proof (dims_size _ _ Dr) as Sr.
    assert (Hroot2 : h2 !! a = Some (root_node b (Cut o w0 h0 tl tr)))
      by (rewrite Fr2 by lia; exact Hroot1).
    assert (Hl2 : rep_at h2 b tl')
      by (eapply rep_at_frame; [exact Hl1 | intros; apply Fr2; lia]).
    pose proof (rep_at_root _ _ _ Hl2) as Hlroot.
    pose proof (rep_at_root _ _ _ Hr2) as Hrroot.
    rewrite (root_of_size _ _ _ Sl) in Hlroot.
    rewrite (root_of_size _ _ _ Sr) in Hrroot.
    pose proof (root_of_last b tl) as Ll.
    pose proof (root_of_last (b + size tl) tr) as Lr.
    assert (Hlt : (a < length h2)%nat) by (eapply lookup_lt_Some; exact Hroot2).
    change (mem (set_mem h1 w)) with h1 in *.
    change (set_mem h2 (set_mem h1 w)) with (set_mem h2 w).
    rewrite (bind_load _ _ _ (set_mem h2 w) _ Hroot2). cbn [root_node type].
    assert (Hfinal : forall wd ht h4,
      h4 = <[a := root_node b (Cut o wd ht tl' tr')]> h2 ->
      rep_at h4 b (Cut o wd ht tl' tr') /\ length h4 = length (mem w) /\
      (forall c, (c < b \/ b + size (Cut o w0 h0 tl tr) <= c)%nat ->
                 h4 !! c = mem w !! c)).
    { intros wd ht h4 ->. split; [|split].
      - apply rep_at_cut.
        + eapply rep_at_frame; [exact Hl2|]. intros c Hc.
          apply list_lookup_insert_ne. lia.
        + rewrite Sl. eapply rep_at_frame; [exact Hr2|]. intros c Hc.
          apply list_lookup_insert_ne. lia.
        + rewrite Sl, Sr, <- Ha. apply list_lookup_insert_eq. exact Hlt.
      - rewrite length_insert. lia.
      - intros c Hc. simpl in Hc. rewrite list_lookup_insert_ne by lia.
        rewrite Fr2 by lia. apply Fr1. lia. }
    assert (Hnode : forall wd ht,
      set_height ht (set_width wd (root_node b (Cut o w0 h0 tl tr))) =
      root_node b (Cut o wd ht tl' tr')).
    { intros wd ht. unfold set_height, set_width. cbn [root_node].
      cbn [label width height x y type left right].
      rewrite (root_of_size _ _ _ Sl), Sl, (root_of_size _ _ _ Sr). reflexivity. }
    destruct o; cbn [cut_char]; cbn [Ascii.eqb Bool.eqb chH chV]; cbn iota.
    + (* Horizontal *)
      rewrite (bind_load _ _ _ (set_mem h2 w) _ Hroot2). cbn [root_node left].
      rewrite (bind_load _ _ _ (set_mem h2 w) _ Hroot2). cbn [root_node right].
      rewrite (bind_load _ _ _ (set_mem h2 w) _ Hlroot).
      rewrite (bind_load _ _ _ (set_mem h2 w) _ Hrroot).
      rewrite !width_root_node.
      rewrite (bind_store _ _ _ (set_mem h2 w) _ Hroot2).
      change (set_mem ?h (set_mem h2 w)) with (set_mem h w).
      erewrite bind_load
        by (simpl; rewrite list_lookup_insert_ne by lia; exact Hlroot).
      erewrite bind_load
        by (simpl; rewrite list_lookup_insert_ne by lia; exact Hrroot).
      rewrite !height_root_node.
      destruct (in_int (theight tl' + theight tr')) eqn:Hin.
      * rewrite bind_int_add by exact Hin.
        eexists. split.
        { unfold store. simpl. rewrite list_lookup_insert_eq by exact Hlt.
          rewrite list_insert_insert_eq. rewrite Hnode. reflexivity. }
        apply Hfinal. reflexivity.
      * rewrite bind_int_add_overflow by exact Hin. reflexivity.
    + (* Vertical *)
      rewrite (bind_load _ _ _ (set_mem h2 w) _ Hroot2). cbn [root_node left].
      rewrite (bind_load _ _ _ (set_mem h2 w) _ Hroot2). cbn [root_node right].
      rewrite (bind_load _ _ _ (set_mem h2 w) _ Hlroot).
      rewrite (bind_load _ _ _ (set_mem h2 w) _ Hrroot).
      rewrite !width_root_node.
      destruct (in_int (twidth tl' + twidth tr')) eqn:Hin.
      * rewrite bind_int_add by exact Hin.
        rewrite (bind_store _ _ _ (set_mem h2 w) _ Hroot2).
        change (set_mem ?h (set_mem h2 w)) with (set_mem h w).
        erewrite bind_load
          by (simpl; rewrite list_lookup_insert_ne by lia; exact Hlroot).
        erewrite bind_load
          by (simpl; rewrite list_lookup_insert_ne by lia; exact Hrroot).
        rewrite !height_root_node.
        eexists. split.
        { unfold store. simpl. rewrite list_lookup_insert_eq by exact Hlt.
          rewrite list_insert_insert_eq. rewrite Hnode. reflexivity. }
        apply Hfinal. reflexivity.
      * rewrite bind_int_add_overflow by exact Hin. reflexivity.
Qed.

(** ** More fuel changes nothing *)

Lemma extends_refl {A} (m : M A) : extends m m.
Proof. intros w r H. exact H. Qed.

Lemma extends_bind {A B} (m m' : M A) (k k' : A -> M B) :
  extends m m' -> (forall a, extends (k a) (k' a)) ->
  extends (bind m k) (bind m' k').
Proof.
  intros Hm Hk w [b w''] H. apply bind_inv in H as (a & w' & H1 & H2).
  rewrite (bind_Done _ _ _ _ _ (Hm _ _ H1)). apply Hk. exact H2.
Qed.

Ltac extends_step IH :=
  first
    [ apply IH; lia
    | apply extends_refl
    | apply extends_bind; [|intros ?]
    | match goal with
      | |- extends (if ?c then _ else _) _ => destruct c
      end ].

Lemma computeDimensions_fuel fuel :
  forall fuel' root, (fuel <= fuel')%nat ->
    extends (computeDimensions fuel root) (computeDimensions fuel' root).
Proof.
  induction fuel as [|fuel IH]; intros fuel' root Hle.
  - intros w r H. discriminate.
  - destruct fuel' as [|fuel']; [lia|].
    destruct root as [a|]; [|apply extends_refl].
    cbn [computeDimensions]. repeat extends_step IH.
Qed.

Lemma computeCoordinates_fuel fuel :
  forall fuel' root cx cy, (fuel <= fuel')%nat ->
    extends (computeCoordinates fuel root cx cy)
            (computeCoordinates fuel' root cx cy).
Proof.
  induction fuel as [|fuel IH]; intros fuel' root cx cy Hle.
  - intros w r H. discriminate.
  - destruct fuel' as [|fuel']; [lia|].
    destruct root as [a|]; [|apply extends_refl].
    cbn [computeCoordinates]. repeat extends_step IH.
Qed.

(** What a completed dimension pass has done to the tree [buildTree]
    returned. *)
Lemma computeDimensions_Done fuel b t w w' :
  rep_at (mem w) b t ->
  computeDimensions fuel (Some (root_of b t)) w = Done (tt, w') ->
  exists t',
    dims t = Some t' /\ rep_at (mem w') b t' /\
    length (mem w') = length (mem w) /\
    input w' = input w /\ output w' = output w /\
    (forall a, (a < b \/ b + size t <= a)%nat -> mem w' !! a = mem w !! a).
Proof.
  intros Hrep Hrun.
  apply (computeDimensions_fuel fuel (fuel + size t)) in Hrun; [|lia].
  pose proof (computeDimensions_rep t (fuel + size t) b w Hrep ltac:(lia)) as H.
  destruct (dims t) as [t'|]; [|congruence].
  destruct H as (h' & Run & Hrep' & Hlen & Hfr).
  rewrite Run in Hrun. injection Hrun as <-.
  exists t'. simpl. auto 10.
Qed.

(** ** The coordinate pass *)

Lemma coords_same cx cy t t' :
  coords cx cy t = Some t' ->
  size t' = size t /\ twidth t' = twidth t /\ theight t' = theight t.
Proof.
  revert cx cy t'.
  induction t as [l0 w0 h0 cx0 cy0|o w h tl IHl tr IHr]; intros cx cy t'; simpl.
  - intros [= <-]. auto.
  - destruct o.
    + destruct (in_int _); [|discriminate].
      destruct (coords cx (cy + theight tr) tl) as [tl'|] eqn:El; [|discriminate].
      destruct (coords cx cy tr) as [tr'|] eqn:Er; [|discriminate].
      apply IHl in El as (? & _). apply IHr in Er as (? & _).
      intros [= <-]. simpl. repeat split; lia.
    + destruct (in_int _); [|discriminate].
      destruct (coords cx cy tl) as [tl'|] eqn:El; [|discriminate].
      destruct (coords (cx + twidth tl) cy tr) as [tr'|] eqn:Er; [|discriminate].
      apply IHl in El as (? & _). apply IHr in Er as (? & _).
      intros [= <-]. simpl. repeat split; lia.
Qed.

Lemma root_node_size b o w h tl tr tl' tr' :
  size tl' = size tl -> size tr' = size tr ->
  root_node b (Cut o w h tl' tr') = root_node b (Cut o w h tl tr).
Proof.
  intros Sl Sr. cbn [root_node].
  rewrite (root_of_size _ _ _ Sl), Sl, (root_of_size _ _ _ Sr). reflexivity.
Qed.

Lemma computeCoordinates_rep t :
  forall fuel b cx cy w,
    rep_at (mem w) b t -> (size t <= fuel)%nat ->
    match coords cx cy t with
    | Some t' =>
      exists h',
        computeCoordinates fuel (Some (root_of b t)) cx cy w = Done (tt, set_mem h' w) /\
        rep_at h' b t' /\ length h' = length (mem w) /\
        (forall a, (a < b \/ b + size t <= a)%nat -> h' !! a = mem w !! a)
    | None =>
      computeCoordinates fuel (Some (root_of b t)) cx cy w = Undef IntOverflow
    end.
Proof.
  induction t as [l0 w0 h0 cx0 cy0|o w0 h0 tl IHl tr IHr];
    intros fuel b cx cy w Hrep Hfuel.
  - (* a leaf takes the origin *)
    destruct fuel as [|fuel]; [simpl in Hfuel; lia|].
    pose proof (rep_at_root _ _ _ Hrep) as Hroot. simpl in Hroot.
    assert (Hlt : (b < length (mem w))%nat) by (eapply lookup_lt_Some; exact Hroot).
    cbn [coords computeCoordinates root_of].
    rewrite (bind_load _ _ _ _ _ Hroot). cbn [type Ascii.eqb NUL Bool.eqb].
    cbn iota.
    rewrite (bind_store _ _ _ _ _ Hroot).
    eexists. split; [|split; [|split]].
    + unfold store. simpl. rewrite list_lookup_insert_eq by exact Hlt.
      rewrite list_insert_insert_eq. reflexivity.
    + intros i n. simpl. destruct i as [|i]; simpl; [|rewrite lookup_nil; discriminate].
      intros [= <-]. rewrite Nat.add_0_r.
      rewrite list_lookup_insert_eq by exact Hlt. reflexivity.
    + apply length_insert.
    + intros a Ha. simpl in Ha. apply list_lookup_insert_ne. lia.
  - destruct fuel as [|fuel]; [simpl in Hfuel; lia|].
    simpl in Hfuel.
    pose proof (rep_at_root _ _ _ Hrep) as Hroot.
    pose proof (rep_at_left _ _ _ _ _ _ _ Hrep) as Hl.
    pose proof (rep_at_right _ _ _ _ _ _ _ Hrep) as Hr.
    pose proof (rep_at_root _ _ _ Hl) as Hlroot.
    pose proof (rep_at_root _ _ _ Hr) as Hrroot.
    pose proof (root_of_last b tl) as Ll.
    pose proof (root_of_last (b + size tl) tr) as Lr.
    set (a := root_of b (Cut o w0 h0 tl tr)) in *.
    assert (Ha : a = (b + size tl + size tr)%nat) by reflexivity.
    assert (Hfinal : forall tl' tr' h2,
      size tl' = size tl -> size tr' = size tr ->
      rep_at h2 b tl' -> rep_at h2 (b + size tl) tr' ->
      h2 !! a = Some (root_node b (Cut o w0 h0 tl tr)) ->
      rep_at h2 b (Cut o w0 h0 tl' tr')).
    { intros tl' tr' h2 Sl Sr Hl2 Hr2 Hroot2. apply rep_at_cut.
      - exact Hl2.
      - rewrite Sl. exact Hr2.
      - rewrite Sl, Sr, <- Ha, (root_node_size _ _ _ _ _ _ _ _ Sl Sr). exact Hroot2. }
    cbn [computeCoordinates].
    rewrite (bind_load _ _ _ _ _ Hroot). cbn [root_node type].
    rewrite cut_char_not_NUL.
    destruct o; cbn [cut_char]; cbn [Ascii.eqb Bool.eqb chH chV]; cbn iota;
      cbn [coords].
    + (* Horizontal: the left subtree goes above the right one *)
      rewrite (bind_load _ _ _ _ _ Hroot). cbn [root_node left].
      rewrite (bind_load _ _ _ _ _ Hroot). cbn [root_node right].
      rewrite (bind_load _ _ _ _ _ Hrroot). rewrite height_root_node.
      destruct (in_int (cy + theight tr)) eqn:Hin;
        [|rewrite bind_int_add_overflow by exact Hin; reflexivity].
      rewrite bind_int_add by exact Hin.
      specialize (IHl fuel b cx (cy + theight tr) w Hl ltac:(lia)).
      destruct (coords cx (cy + theight tr) tl) as [tl'|] eqn:Dl;
        [|rewrite (bind_Undef _ _ _ _ IHl); reflexivity].
      destruct IHl as (h1 & Run1 & Hl1 & Len1 & Fr1).
      rewrite (bind_Done _ _ _ _ _ Run1).
      apply coords_same in Dl as (Sl & _).
      assert (Hroot1 : h1 !! a = Some (root_node b (Cut Horizontal w0 h0 tl tr)))
        by (rewrite Fr1 by lia; exact Hroot).
      assert (Hr1 : rep_at h1 (b + size tl) tr)
        by (eapply rep_at_frame; [exact Hr | intros; apply Fr1; lia]).
      rewrite (bind_load _ _ _ (set_mem h1 w) _ Hroot1). cbn [root_node right].
      specialize (IHr fuel (b + size tl)%nat cx cy (set_mem h1 w) Hr1 ltac:(lia)).
      destruct (coords cx cy tr) as [tr'|] eqn:Dr; [|exact IHr].
      destruct IHr as (h2 & Run2 & Hr2 & Len2 & Fr2). simpl in Len2, Fr2.
      apply coords_same in Dr as (Sr & _).
      exists h2. split; [exact Run2|]. split; [|split].
      * apply Hfinal; try assumption.
        -- eapply rep_at_frame; [exact Hl1 | intros; apply Fr2; lia].
        -- rewrite Fr2 by lia. exact Hroot1.
      * lia.
      * intros c Hc. simpl in Hc. rewrite Fr2 by lia. apply Fr1. lia.
    + (* Vertical: the right subtree goes to the right of the left one *)
      rewrite (bind_load _ _ _ _ _ Hroot). cbn [root_node left].
      specialize (IHl fuel b cx cy w Hl ltac:(lia)).
      destruct (coords cx cy tl) as [tl'|] eqn:Dl.
      2:{ rewrite (bind_Undef _ _ _ _ IHl). destruct (in_int _); reflexivity. }
      destruct IHl as (h1 & Run1 & Hl1 & Len1 & Fr1).
      rewrite (bind_Done _ _ _ _ _ Run1).
      apply coords_same in Dl as (Sl & Wl & _).
      assert (Hroot1 : h1 !! a = Some (root_node b (Cut Vertical w0 h0 tl tr)))
        by (rewrite Fr1 by lia; exact Hroot).
      assert (Hr1 : rep_at h1 (b + size tl) tr)
        by (eapply rep_at_frame; [exact Hr | intros; apply Fr1; lia]).
      pose proof (rep_at_root _ _ _ Hl1) as Hlroot1.
      rewrite (root_of_size _ _ _ Sl) in Hlroot1.
      rewrite (bind_load _ _ _ (set_mem h1 w) _ Hroot1). cbn [root_node right].
      rewrite (bind_load _ _ _ (set_mem h1 w) _ Hroot1). cbn [root_node left].
      rewrite (bind_load _ _ _ (set_mem h1 w) _ Hlroot1).
      rewrite width_root_node, Wl.
      destruct (in_int (cx + twidth tl)) eqn:Hin;
        [|rewrite bind_int_add_overflow by exact Hin; reflexivity].
      rewrite bind_int_add by exact Hin.
      specialize (IHr fuel (b + size tl)%nat (cx + twidth tl) cy (set_mem h1 w)
                      Hr1 ltac:(lia)).
      destruct (coords (cx + twidth tl) cy tr) as [tr'|] eqn:Dr; [|exact IHr].
      destruct IHr as (h2 & Run2 & Hr2 & Len2 & Fr2). simpl in Len2, Fr2.
      apply coords_same in Dr as (Sr & _).
      exists h2. split; [exact Run2|]. split; [|split].
      * apply Hfinal; try assumption.
        -- eapply rep_at_frame; [exact Hl1 | intros; apply Fr2; lia].
        -- rewrite Fr2 by lia. exact Hroot1.
      * lia.
      * intros c Hc. simpl in Hc. rewrite Fr2 by lia. apply Fr1. lia.
Qed.

Lemma computeCoordinates_Done fuel b t cx cy w w' :
  rep_at (mem w) b t ->
  computeCoordinates fuel (Some (root_of b t)) cx cy w = Done (tt, w') ->
  exists t',
    coords cx cy t = Some t' /\ rep_at (mem w') b t' /\
    length (mem w') = length (mem w) /\
    input w' = input w /\ output w' = output w /\
    (forall a, (a < b \/ b + size t <= a)%nat -> mem w' !! a = mem w !! a).
Proof.
  intros Hrep Hrun.
  apply (computeCoordinates_fuel fuel (fuel + size t)) in Hrun; [|lia].
  pose proof (computeCoordinates_rep t (fuel + size t) b cx cy w Hrep ltac:(lia)) as H.
  destruct (coords cx cy t) as [t'|]; [|congruence].
  destruct H as (h' & Run & Hrep' & Hlen & Hfr).
  rewrite Run in Hrun. injection Hrun as <-.
  exists t'. simpl. auto 10.
Qed.

(** ** The fuel is enough *)

Lemma sscanf_fuel line : sscanf line <> OutOfFuel.
Proof.
  unfold sscanf.
  destruct (scan_d line) as [v1 r1| |]; try discriminate.
  destruct (literal "(" r1) as [r1'|]; [|discriminate].
  destruct (scan_d r1') as [v2 r2| |]; try discriminate.
  destruct (literal "," r2) as [r2'|]; [|discriminate].
  destruct (scan_d r2') as [v3 r3| |]; discriminate.
Qed.

Lemma buildTree_line_fuel line stack w : buildTree_line line stack w <> OutOfFuel.
Proof.
  destruct line as [|c rest]; [discriminate|].
  destruct (is_cut_char c) eqn:Hc.
  - rewrite buildTree_line_cut by exact Hc.
    destruct stack as [|r [|l st]]; try discriminate.
    destruct (length st <? STACK_SIZE)%nat; discriminate.
  - unfold buildTree_line. rewrite Hc.
    pose proof (sscanf_fuel (String c rest)) as Hs.
    destruct (sscanf (String c rest)) as [vs|u|]; [|discriminate|congruence].
    destruct vs as [|l [|wd [|h [|]]]]; try discriminate.
    unfold bind, createNode, push.
    destruct (length stack <? STACK_SIZE)%nat; discriminate.
Qed.

(** The loop of [buildTree] stops before its fuel is spent: every line
    read takes at least one character off the input. *)
Lemma buildTree_loop_fuel fuel :
  forall stack w,
    (String.length (input w) < fuel)%nat ->
    buildTree_loop fuel stack w <> OutOfFuel.
Proof.
  induction fuel as [|fuel IH]; intros stack w Hlen; [lia|].
  cbn [buildTree_loop]. unfold bind at 1, fgets.
  destruct (fgets_chars (LINE_SIZE - 1) (input w)) as [line rest] eqn:E.
  apply fgets_chars_split in E.
  destruct line as [|c line']; [discriminate|].
  unfold bind.
  destruct (buildTree_line (String c line') stack (set_input rest w))
    as [[stack' w']|u|] eqn:Hline; [|discriminate|].
  - apply IH.
    assert (Hin : input w' = rest).
    { apply buildTree_line_Done in Hline
        as [(? & ? & ? & ? & ? & _ & _ & _ & _ & ->)|(? & ? & ? & _ & _ & _ & ->)];
        reflexivity. }
    rewrite Hin. rewrite E, string_length_append in Hlen. simpl in Hlen. lia.
  - exfalso. eapply buildTree_line_fuel; eauto.
Qed.

Lemma buildTree_fuel w : buildTree w <> OutOfFuel.
Proof.
  unfold buildTree, bind.
  pose proof (buildTree_loop_fuel (S (String.length (input w))) [] w ltac:(lia)) as H.
  destruct (buildTree_loop (S (String.length (input w))) [] w) as [[stack w']|u|];
    [|discriminate|congruence].
  destruct stack; discriminate.
Qed.

(** On the tree [buildTree] returned, the passes stop before their fuel is
    spent when it is at least the number of structs: they complete, or a
    sum leaves [int]. *)
Lemma computeDimensions_fuel_enough w0 root w1 fuel :
  buildTree w0 = Done (root, w1) -> (length (mem w1) <= fuel)%nat ->
  (exists w2, computeDimensions fuel root w1 = Done (tt, w2)) \/
  computeDimensions fuel root w1 = Undef IntOverflow.
Proof.
  intros Hbuild Hfuel.
  apply buildTree_Done in Hbuild as (t & b & -> & Hrep & Hlen & _).
  pose proof (computeDimensions_rep t fuel b w1 Hrep ltac:(lia)) as H.
  destruct (dims t); [|right; exact H].
  destruct H as (h' & H & _). left. eauto.
Qed.

Lemma computeCoordinates_fuel_enough w0 root w1 fuel w2 fuel' cx cy :
  buildTree w0 = Done (root, w1) ->
  computeDimensions fuel root w1 = Done (tt, w2) ->
  (length (mem w2) <= fuel')%nat ->
  (exists w3, computeCoordinates fuel' root cx cy w2 = Done (tt, w3)) \/
  computeCoordinates fuel' root cx cy w2 = Undef IntOverflow.
Proof.
  intros Hbuild Hdim Hfuel.
  apply buildTree_Done in Hbuild as (t & b & -> & Hrep & Hlen & _).
  destruct (computeDimensions_Done _ _ _ _ _ Hrep Hdim)
    as (t' & Hd & Hrep' & Hlen' & _).
  rewrite <- (root_of_size b t t' (dims_size _ _ Hd)).
  pose proof (dims_size _ _ Hd) as Hs.
  pose proof (computeCoordinates_rep t' fuel' b cx cy w2 Hrep' ltac:(lia)) as H.
  destruct (coords cx cy t'); [|right; exact H].
  destruct H as (h' & H & _). left. eauto.
Qed.

(** ** The passes on the tree [buildTree] returns *)

Lemma int_max_max a b : int_max a b = Z.max a b.
Proof. unfold int_max. destruct (Z.gtb_spec a b); lia. Qed.

Lemma sub_leaf_inv l w h cx cy b s bs :
  sub (Leaf l w h cx cy) b s bs -> s = Leaf l w h cx cy /\ bs = b.
Proof. inversion 1; subst; auto. Qed.

Lemma sub_cut_inv o w h tl tr b s bs :
  sub (Cut o w h tl tr) b s bs ->
  (s = Cut o w h tl tr /\ bs = b) \/ sub tl b s bs \/ sub tr (b + size tl) s bs.
Proof. inversion 1; subst; auto. Qed.

Lemma dims_sub t :
  forall t' b s' bs,
    dims t = Some t' -> sub t' b s' bs ->
    exists s, sub t b s bs /\ dims s = Some s'.
Proof.
  induction t as [l0 w0 h0 cx0 cy0|o w0 h0 tl IHl tr IHr]; intros t' b s' bs Hd Hs.
  - simpl in Hd. injection Hd as <-. apply sub_leaf_inv in Hs as [-> ->].
    eexists. split; [constructor | reflexivity].
  - pose proof Hd as Hd0. simpl in Hd.
    destruct (dims tl) as [tl'|] eqn:Dl; [|discriminate].
    destruct (dims tr) as [tr'|] eqn:Dr; [|discriminate].
    pose proof (dims_size _ _ Dl) as Sl.
    assert (exists w' h', t' = Cut o w' h' tl' tr') as (w' & h' & ->).
    { destruct o; destruct (in_int _); try discriminate;
        injection Hd as <-; eauto. }
    apply sub_cut_inv in Hs as [[-> ->]|[Hs|Hs]].
    + eexists. split; [constructor | exact Hd0].
    + destruct (IHl _ _ _ _ eq_refl Hs) as (s & Hsub & Hds).
      exists s. split; [apply sub_left; exact Hsub | exact Hds].
    + rewrite Sl in Hs. destruct (IHr _ _ _ _ eq_refl Hs) as (s & Hsub & Hds).
      exists s. split; [apply sub_right; exact Hsub | exact Hds].
Qed.

Lemma dims_cut_inv s o w h tl' tr' :
  dims s = Some (Cut o w h tl' tr') ->
  match o with
  | Horizontal =>
    w = Z.max (twidth tl') (twidth tr') /\ h = theight tl' + theight tr'
  | Vertical =>
    w = twidth tl' + twidth tr' /\ h = Z.max (theight tl') (theight tr')
  end.
Proof.
  destruct s as [|o0 w0 h0 tl tr]; simpl; [discriminate|].
  destruct (dims tl) as [tl0|]; [|discriminate].
  destruct (dims tr) as [tr0|]; [|discriminate].
  destruct o0; destruct (in_int _); try discriminate;
    intros [= <- <- <- <- <-]; rewrite int_max_max; auto.
Qed.

Lemma dims_leaf_inv s l w h cx cy :
  dims s = Some (Leaf l w h cx cy) -> s = Leaf l w h cx cy.
Proof.
  destruct s as [|o0 w0 h0 tl tr]; simpl; [intros [= <- <- <- <- <-]; reflexivity|].
  destruct (dims tl) as [tl0|]; [|discriminate].
  destruct (dims tr) as [tr0|]; [|discriminate].
  destruct o0; destruct (in_int _); discriminate.
Qed.

Lemma rep_at_children h b o w ht tl tr :
  rep_at h b (Cut o w ht tl tr) ->
  node_at h (left (root_node b (Cut o w ht tl tr))) (root_node b tl) /\
  node_at h (right (root_node b (Cut o w ht tl tr)))
          (root_node (b + size tl) tr).
Proof.
  intros Hrep. split; eexists; (split; [reflexivity|]); apply rep_at_root.
  - eapply rep_at_left; eauto.
  - eapply rep_at_right; eauto.
Qed.

Lemma coords_placed t :
  forall cx cy t' h b,
    coords cx cy t = Some t' -> rep_at h b t' ->
    placed h (Some (root_of b t')) cx cy.
Proof.
  induction t as [l0 w0 h0 cx0 cy0|o w0 h0 tl IHl tr IHr];
    intros cx cy t' h b Hc Hrep.
  - simpl in Hc. injection Hc as <-.
    eapply placed_leaf; [apply (rep_at_root _ _ _ Hrep) | | |]; reflexivity.
  - pose proof (rep_at_root _ _ _ Hrep) as Hroot. simpl in Hc.
    destruct o.
    + destruct (in_int _); [|discriminate].
      destruct (coords cx (cy + theight tr) tl) as [tl'|] eqn:El; [|discriminate].
      destruct (coords cx cy tr) as [tr'|] eqn:Er; [|discriminate].
      injection Hc as <-.
      destruct (rep_at_children _ _ _ _ _ _ _ Hrep) as [Hl Hr].
      eapply placed_H; [exact Hroot | reflexivity | exact Hr | |].
      * apply (IHr _ _ _ _ _ Er). eapply rep_at_right; eauto.
      * rewrite height_root_node.
        destruct (coords_same _ _ _ _ Er) as (_ & _ & ->).
        apply (IHl _ _ _ _ _ El). eapply rep_at_left; eauto.
    + destruct (in_int _); [|discriminate].
      destruct (coords cx cy tl) as [tl'|] eqn:El; [|discriminate].
      destruct (coords (cx + twidth tl) cy tr) as [tr'|] eqn:Er; [|discriminate].
      injection Hc as <-.
      destruct (rep_at_children _ _ _ _ _ _ _ Hrep) as [Hl Hr].
      eapply placed_V; [exact Hroot | reflexivity | exact Hl | |].
      * apply (IHl _ _ _ _ _ El). eapply rep_at_left; eauto.
      * rewrite width_root_node.
        destruct (coords_same _ _ _ _ El) as (_ & -> & _).
        apply (IHr _ _ _ _ _ Er). eapply rep_at_right; eauto.
Qed.

(** ** Where the leaves end up *)

Lemma dims_dimensioned t t' : dims t = Some t' -> dimensioned t'.
Proof.
  revert t'. induction t as [l0 w0 h0 cx0 cy0|o w0 h0 tl IHl tr IHr]; intros t' Hd.
  - injection Hd as <-. exact I.
  - pose proof Hd as Hd0. simpl in Hd.
    destruct (dims tl) as [tl'|] eqn:Dl; [|discriminate].
    destruct (dims tr) as [tr'|] eqn:Dr; [|discriminate].
    specialize (IHl _ eq_refl). specialize (IHr _ eq_refl).
    destruct o; destruct (in_int _); try discriminate; injection Hd as <-;
      simpl; rewrite int_max_max; auto.
Qed.

Lemma dims_leaves_nonneg t t' :
  dims t = Some t' -> leaves_nonneg t -> leaves_nonneg t'.
Proof.
  revert t'. induction t as [l0 w0 h0 cx0 cy0|o w0 h0 tl IHl tr IHr]; intros t' Hd.
  - injection Hd as <-. auto.
  - simpl in Hd.
    destruct (dims tl) as [tl'|] eqn:Dl; [|discriminate].
    destruct (dims tr) as [tr'|] eqn:Dr; [|discriminate].
    specialize (IHl _ eq_refl). specialize (IHr _ eq_refl).
    destruct o; destruct (in_int _); try discriminate; injection Hd as <-;
      simpl; tauto.
Qed.

Lemma dimensioned_nonneg t :
  dimensioned t -> leaves_nonneg t -> 0 <= twidth t /\ 0 <= theight t.
Proof.
  induction t as [l0 w0 h0 cx0 cy0|o w0 h0 tl IHl tr IHr]; simpl.
  - auto.
  - destruct o; intros (-> & -> & Dl & Dr) (Nl & Nr);
      specialize (IHl Dl Nl); specialize (IHr Dr Nr); lia.
Qed.

(** Every leaf of a placed tree lies within the rectangle of the tree. *)
Lemma coords_leaf_inside t :
  forall cx cy t' b l w h lx ly bs,
    dimensioned t -> leaves_nonneg t ->
    coords cx cy t = Some t' ->
    sub t' b (Leaf l w h lx ly) bs ->
    (0 <= w /\ 0 <= h) /\
    cx <= lx /\ lx + w <= cx + twidth t /\
    cy <= ly /\ ly + h <= cy + theight t.
Proof.
  induction t as [l0 w0 h0 cx0 cy0|o w0 h0 tl IHl tr IHr];
    intros cx cy t' b l w h lx ly bs Hdim Hnn Hc Hsub.
  - simpl in Hc. injection Hc as <-.
    apply sub_leaf_inv in Hsub as [[= -> -> -> -> ->] _]. simpl in *. lia.
  - simpl in Hc. destruct o.
    + destruct Hdim as (Hw & Hh & Dl & Dr). destruct Hnn as (Nl & Nr).
      destruct (in_int _); [|discriminate].
      destruct (coords cx (cy + theight tr) tl) as [tl'|] eqn:El; [|discriminate].
      destruct (coords cx cy tr) as [tr'|] eqn:Er; [|discriminate].
      injection Hc as <-.
      pose proof (dimensioned_nonneg _ Dl Nl). pose proof (dimensioned_nonneg _ Dr Nr).
      apply sub_cut_inv in Hsub as [[? _]|[Hs|Hs]]; [discriminate| |].
      * specialize (IHl _ _ _ _ _ _ _ _ _ _ Dl Nl El Hs). simpl. lia.
      * specialize (IHr _ _ _ _ _ _ _ _ _ _ Dr Nr Er Hs). simpl. lia.
    + destruct Hdim as (Hw & Hh & Dl & Dr). destruct Hnn as (Nl & Nr).
      destruct (in_int _); [|discriminate].
      destruct (coords cx cy tl) as [tl'|] eqn:El; [|discriminate].
      destruct (coords (cx + twidth tl) cy tr) as [tr'|] eqn:Er; [|discriminate].
      injection Hc as <-.
      pose proof (dimensioned_nonneg _ Dl Nl). pose proof (dimensioned_nonneg _ Dr Nr).
      apply sub_cut_inv in Hsub as [[? _]|[Hs|Hs]]; [discriminate| |].
      * specialize (IHl _ _ _ _ _ _ _ _ _ _ Dl Nl El Hs). simpl. lia.
      * specialize (IHr _ _ _ _ _ _ _ _ _ _ Dr Nr Er Hs). simpl. lia.
Qed.

(** Two leaves at different addresses are separated by a cut line. *)
Lemma coords_leaves_apart t :
  forall cx cy t' b l1 w1 h1 x1 y1 b1 l2 w2 h2 x2 y2 b2,
    dimensioned t -> leaves_nonneg t ->
    coords cx cy t = Some t' ->
    sub t' b (Leaf l1 w1 h1 x1 y1) b1 ->
    sub t' b (Leaf l2 w2 h2 x2 y2) b2 ->
    b1 <> b2 ->
    x1 + w1 <= x2 \/ x2 + w2 <= x1 \/ y1 + h1 <= y2 \/ y2 + h2 <= y1.
Proof.
  induction t as [l0 w0 h0 cx0 cy0|o w0 h0 tl IHl tr IHr];
    intros cx cy t' b l1 w1 h1 x1 y1 b1 l2 w2 h2 x2 y2 b2 Hdim Hnn Hc S1 S2 Hne.
  - simpl in Hc. injection Hc as <-.
    apply sub_leaf_inv in S1 as [_ ->]. apply sub_leaf_inv in S2 as [_ ->].
    congruence.
  - simpl in Hc. destruct o.
    + destruct Hdim as (Hw & Hh & Dl & Dr). destruct Hnn as (Nl & Nr).
      destruct (in_int _); [|discriminate].
      destruct (coords cx (cy + theight tr) tl) as [tl'|] eqn:El; [|discriminate].
      destruct (coords cx cy tr) as [tr'|] eqn:Er; [|discriminate].
      injection Hc as <-.
      apply sub_cut_inv in S1 as [[? _]|[S1|S1]]; [discriminate| |];
        apply sub_cut_inv in S2 as [[? _]|[S2|S2]]; try discriminate.
      * eapply IHl; eauto.
      * pose proof (coords_leaf_inside _ _ _ _ _ _ _ _ _ _ _ Dl Nl El S1).
        pose proof (coords_leaf_inside _ _ _ _ _ _ _ _ _ _ _ Dr Nr Er S2). lia.
      * pose proof (coords_leaf_inside _ _ _ _ _ _ _ _ _ _ _ Dr Nr Er S1).
        pose proof (coords_leaf_inside _ _ _ _ _ _ _ _ _ _ _ Dl Nl El S2). lia.
      * eapply IHr; eauto.
    + destruct Hdim as (Hw & Hh & Dl & Dr). destruct Hnn as (Nl & Nr).
      destruct (in_int _); [|discriminate].
      destruct (coords cx cy tl) as [tl'|] eqn:El; [|discriminate].
      destruct (coords (cx + twidth tl) cy tr) as [tr'|] eqn:Er; [|discriminate].
      injection Hc as <-.
      apply sub_cut_inv in S1 as [[? _]|[S1|S1]]; [discriminate| |];
        apply sub_cut_inv in S2 as [[? _]|[S2|S2]]; try discriminate.
      * eapply IHl; eauto.
      * pose proof (coords_leaf_inside _ _ _ _ _ _ _ _ _ _ _ Dl Nl El S1).
        pose proof (coords_leaf_inside _ _ _ _ _ _ _ _ _ _ _ Dr Nr Er S2). lia.
      * pose proof (coords_leaf_inside _ _ _ _ _ _ _ _ _ _ _ Dr Nr Er S1).
        pose proof (coords_leaf_inside _ _ _ _ _ _ _ _ _ _ _ Dl Nl El S2). lia.
      * eapply IHr; eauto.
Qed.

(** ** The whole pipeline on the heap *)

Lemma pipeline_trees w0 root w1 fuel w2 fuel' cx cy w3 :
  buildTree w0 = Done (root, w1) ->
  computeDimensions fuel root w1 = Done (tt, w2) ->
  computeCoordinates fuel' root cx cy w2 = Done (tt, w3) ->
  exists t t' t'' b,
    root = Some (root_of b t'') /\
    dims t = Some t' /\ coords cx cy t' = Some t'' /\
    rep_at (mem w3) b t'' /\
    (no_minus (input w0) = true -> leaves_nonneg t).
Proof.
  intros Hbuild Hdim Hco.
  apply buildTree_Done in Hbuild as (t & b & -> & Hrep & _ & _ & Hnn).
  destruct (computeDimensions_Done _ _ _ _ _ Hrep Hdim) as (t' & Hd & Hrep' & _).
  rewrite <- (root_of_size b t t' (dims_size _ _ Hd)) in Hco.
  destruct (computeCoordinates_Done _ _ _ _ _ _ _ Hrep' Hco)
    as (t'' & Hc & Hrep'' & _).
  exists t, t', t'', b. repeat split; try assumption.
  destruct (coords_same _ _ _ _ Hc) as (Hs & _).
  rewrite (root_of_size b t' t'' Hs), (root_of_size b t t' (dims_size _ _ Hd)).
  reflexivity.
Qed.

(** A leaf struct of the tree is a leaf of its logical view. *)
Lemma reach_leaf h b t a n :
  rep_at h b t -> reach h (Some (root_of b t)) a ->
  h !! a = Some n -> type n = NUL ->
  exists l, sub t b (Leaf l (width n) (height n) (x n) (y n)) a.
Proof.
  intros Hrep Hreach Hn Ht.
  destruct (reach_sub _ _ _ Hreach _ _ Hrep eq_refl) as (s & bs & Hsub & ->).
  pose proof (rep_at_root _ _ _ (rep_at_sub _ _ _ _ _ Hsub Hrep)) as Hroot.
  rewrite Hroot in Hn. injection Hn as <-.
  destruct s as [l0 w0 h0 cx cy|o w0 h0 tl tr].
  - exists l0. exact Hsub.
  - simpl in Ht. destruct o; discriminate.
Qed.

Lemma string_of_uint_no_minus d : no_minus (NilEmpty.string_of_uint d) = true.
Proof. induction d; simpl; auto. Qed.

Lemma fmt_d_no_minus v : 0 <= v -> no_minus (fmt_d v) = true.
Proof.
  intros Hv. unfold fmt_d. destruct v as [|p|p]; [reflexivity | | lia].
  simpl. unfold NilZero.string_of_uint.
  destruct (Pos.to_uint p) eqn:E; try reflexivity;
    rewrite <- E; apply string_of_uint_no_minus.
Qed.

Lemma render_no_minus ks : Forall valid_token ks -> no_minus (render ks) = true.
Proof.
  induction 1 as [|k ks Hk _ IH]; [reflexivity|].
  simpl. rewrite no_minus_append, IH, andb_true_r.
  destruct k as [l w h|o]; [|destruct o; reflexivity].
  destruct Hk as (Hl & Hw & Hh). unfold render_token, fmt_leaf.
  rewrite !no_minus_append, !fmt_d_no_minus by lia. reflexivity.
Qed.

(** ** Printing a number and reading it back *)

Lemma scan_digits_uint d : forall acc r,
  scan_digits acc (NilEmpty.string_of_uint d +++ r) = scan_digits (horner acc d) r.
Proof.
  induction d; intros acc r; simpl; try apply IHd. reflexivity.
Qed.

Lemma scan_digits_nondigit acc r : nondigit r -> scan_digits acc r = (acc, r).
Proof.
  destruct r as [|c r]; simpl; [reflexivity|]. intros ->. reflexivity.
Qed.

Lemma horner_pos d : forall acc, horner (Z.pos acc) d = Z.pos (Pos.of_uint_acc d acc).
Proof.
  induction d; intros acc; simpl; try reflexivity;
    rewrite <- IHd; f_equal; lia.
Qed.

Lemma horner_0 d : horner 0 d = Z.of_N (Pos.of_uint d).
Proof.
  induction d; simpl; try reflexivity; try exact IHd;
    apply (horner_pos d).
Qed.

Lemma horner_to_uint p : horner 0 (Pos.to_uint p) = Z.pos p.
Proof. rewrite horner_0, DecimalPos.Unsigned.of_to. reflexivity. Qed.

Lemma scan_number_uint neg d r :
  d <> Decimal.Nil -> nondigit r ->
  scan_number neg (NilEmpty.string_of_uint d +++ r) =
  let v := if neg then - horner 0 d else horner 0 d in
  if in_int v then Matched v r else Unrepresentable.
Proof.
  intros Hd Hr.
  assert (H : forall c s, digit_of c <> None ->
            NilEmpty.string_of_uint d +++ r = String c s ->
            scan_number neg (NilEmpty.string_of_uint d +++ r) =
            let v := if neg then - horner 0 d else horner 0 d in
            if in_int v then Matched v r else Unrepresentable).
  { intros c s Hc E. unfold scan_number. rewrite E.
    destruct (digit_of c); [|congruence]. rewrite <- E.
    rewrite scan_digits_uint, (scan_digits_nondigit _ _ Hr). reflexivity. }
  destruct d; try congruence; simpl NilEmpty.string_of_uint in *;
    eapply H; try reflexivity; discriminate.
Qed.

Lemma scan_d_uint d r :
  d <> Decimal.Nil -> nondigit r ->
  scan_d (NilEmpty.string_of_uint d +++ r) =
  if in_int (horner 0 d) then Matched (horner 0 d) r else Unrepresentable.
Proof.
  intros Hd Hr.
  transitivity (scan_number false (NilEmpty.string_of_uint d +++ r));
    [destruct d; try congruence; reflexivity|].
  apply (scan_number_uint false d r Hd Hr).
Qed.

Lemma scan_d_minus_uint d r :
  d <> Decimal.Nil -> nondigit r ->
  scan_d (String "-" (NilEmpty.string_of_uint d +++ r)) =
  if in_int (- horner 0 d) then Matched (- horner 0 d) r else Unrepresentable.
Proof.
  intros Hd Hr.
  transitivity (scan_number true (NilEmpty.string_of_uint d +++ r));
    [reflexivity|].
  apply (scan_number_uint true d r Hd Hr).
Qed.

Lemma scan_d_fmt_d v r :
  in_int v = true -> nondigit r -> scan_d (fmt_d v +++ r) = Matched v r.
Proof.
  intros Hv Hr. unfold fmt_d. destruct v as [|p|p].
  - simpl. unfold scan_d. simpl. rewrite (scan_digits_nondigit _ _ Hr). reflexivity.
  - simpl Z.to_int. simpl NilZero.string_of_int. unfold NilZero.string_of_uint.
    pose proof (DecimalPos.Unsigned.to_uint_nonnil p) as Hn.
    replace (match Pos.to_uint p with Decimal.Nil => "0" | _ => NilEmpty.string_of_uint (Pos.to_uint p) end)
      with (NilEmpty.string_of_uint (Pos.to_uint p))
      by (destruct (Pos.to_uint p); congruence).
    rewrite (scan_d_uint _ _ Hn Hr).
    rewrite horner_to_uint, Hv. reflexivity.
  - simpl Z.to_int. simpl NilZero.string_of_int. unfold NilZero.string_of_uint.
    pose proof (DecimalPos.Unsigned.to_uint_nonnil p) as Hn.
    replace (match Pos.to_uint p with Decimal.Nil => "0" | _ => NilEmpty.string_of_uint (Pos.to_uint p) end)
      with (NilEmpty.string_of_uint (Pos.to_uint p))
      by (destruct (Pos.to_uint p); congruence).
    change (scan_d (String "-" (NilEmpty.string_of_uint (Pos.to_uint p) +++ r))
            = Matched (Z.neg p) r).
    rewrite (scan_d_minus_uint _ _ Hn Hr).
    rewrite horner_to_uint. change (- Z.pos p) with (Z.neg p).
    rewrite Hv. reflexivity.
Qed.

Lemma append_assoc a b c : (a +++ b) +++ c = a +++ b +++ c.
Proof. induction a as [|x a IH]; simpl; [reflexivity | rewrite IH; reflexivity]. Qed.

(** Three integers in the pattern are read back, whatever follows the
    third. *)
Lemma sscanf_fields l w h junk :
  in_int l = true -> in_int w = true -> in_int h = true -> nondigit junk ->
  sscanf (fmt_d l +++ "(" +++ fmt_d w +++ "," +++ fmt_d h +++ junk) = Done [l; w; h].
Proof.
  intros Hl Hw Hh Hj. unfold sscanf.
  rewrite (scan_d_fmt_d l _ Hl) by reflexivity.
  cbn [String.append literal Ascii.eqb Bool.eqb].
  rewrite (scan_d_fmt_d w _ Hw) by reflexivity.
  cbn [String.append literal Ascii.eqb Bool.eqb].
  rewrite (scan_d_fmt_d h _ Hh) by exact Hj. reflexivity.
Qed.

Lemma sscanf_fmt_leaf l w h rest :
  in_int l = true -> in_int w = true -> in_int h = true ->
  sscanf (fmt_leaf l w h +++ rest) = Done [l; w; h].
Proof.
  intros Hl Hw Hh. unfold fmt_leaf. rewrite !append_assoc.
  apply sscanf_fields; try assumption. reflexivity.
Qed.

(** ** Reading the lines of a rendered token sequence *)

Lemma no_lf_append a b : no_lf (a +++ b) = no_lf a && no_lf b.
Proof.
  induction a as [|c a IH]; simpl; [reflexivity|].
  rewrite IH. apply andb_assoc.
Qed.

Lemma string_of_uint_no_lf d : no_lf (NilEmpty.string_of_uint d) = true.
Proof. induction d; simpl; auto. Qed.

Lemma fmt_d_no_lf v : no_lf (fmt_d v) = true.
Proof.
  unfold fmt_d. destruct v as [|p|p]; [reflexivity | |];
    simpl; unfold NilZero.string_of_uint;
    destruct (Pos.to_uint p) eqn:E; try reflexivity;
    rewrite <- E; apply string_of_uint_no_lf.
Qed.

Lemma fmt_leaf_body l w h : fmt_leaf l w h = leaf_body l w h +++ eol.
Proof. unfold fmt_leaf, leaf_body. rewrite !append_assoc. reflexivity. Qed.

Lemma leaf_body_no_lf l w h : no_lf (leaf_body l w h) = true.
Proof.
  unfold leaf_body. rewrite !no_lf_append, !fmt_d_no_lf. reflexivity.
Qed.

Lemma fmt_d_head v :
  exists c s, fmt_d v = String c s /\ is_cut_char c = false.
Proof.
  unfold fmt_d. destruct v as [|p|p].
  - exists "0"%char, "". split; reflexivity.
  - simpl. unfold NilZero.string_of_uint.
    pose proof (DecimalPos.Unsigned.to_uint_nonnil p) as Hn.
    destruct (Pos.to_uint p); try congruence; simpl; eexists _, _;
      (split; [reflexivity | reflexivity]).
  - simpl. eexists _, _. split; reflexivity.
Qed.

Lemma fmt_leaf_head l w h :
  exists c s, fmt_leaf l w h = String c s /\ is_cut_char c = false.
Proof.
  destruct (fmt_d_head l) as (c & s & E & Hc). unfold fmt_leaf. rewrite E.
  simpl. eauto.
Qed.

Lemma fgets_chars_line body : forall n rest,
  no_lf body = true -> (String.length body < n)%nat ->
  fgets_chars n (body +++ String LF rest) = (body +++ eol, rest).
Proof.
  induction body as [|c body IH]; intros n rest Hb Hn.
  - destruct n as [|n]; [simpl in Hn; lia|]. reflexivity.
  - destruct n as [|n]; [simpl in Hn; lia|]. simpl in *.
    apply andb_true_iff in Hb as [Hc Hb].
    destruct (Ascii.eqb c LF); [discriminate|].
    rewrite IH by (assumption || lia). reflexivity.
Qed.

(** ** The loop of [buildTree] on a rendered token *)

Lemma buildTree_loop_leaf fuel stack m rest o l w h :
  leaf_fits l w h ->
  buildTree_loop (S fuel) stack (mkWorld m (fmt_leaf l w h +++ rest) o) =
  if (length stack <? STACK_SIZE)%nat then
    buildTree_loop fuel (Some (length m) :: stack)
                   (mkWorld (m ++ [mkNode l w h 0 0 NUL None None]) rest o)
  else Undef OutOfBounds.
Proof.
  intros (Hl & Hw & Hh & Hlen).
  destruct (fmt_leaf_head l w h) as (c & s & E & Hc).
  cbn [buildTree_loop]. unfold bind at 1. unfold fgets. cbn [input].
  replace (fgets_chars (LINE_SIZE - 1) (fmt_leaf l w h +++ rest))
    with (fmt_leaf l w h, rest).
  2:{ rewrite fmt_leaf_body, append_assoc. simpl (eol +++ rest).
      symmetry. apply fgets_chars_line; [apply leaf_body_no_lf|].
      rewrite fmt_leaf_body, string_length_append in Hlen. simpl in Hlen.
      simpl. lia. }
  rewrite E. unfold set_input. cbn [mem output].
  rewrite <- E at 1.
  pose proof (sscanf_fmt_leaf l w h "" Hl Hw Hh) as Hs.
  assert (Hnil : forall a, a +++ "" = a)
    by (induction a as [|? ? IH]; simpl; [|rewrite IH]; reflexivity).
  rewrite Hnil in Hs. rewrite E in Hs |- *.
  unfold bind at 1.
  rewrite (buildTree_line_leaf _ _ _ _ _ _ _ Hc Hs). cbn [mem].
  destruct (length stack <? STACK_SIZE)%nat; reflexivity.
Qed.

Lemma buildTree_loop_cut fuel stack m rest out o :
  buildTree_loop (S fuel) stack (mkWorld m (fmt_cut (cut_char o) +++ rest) out) =
  match stack with
  | r :: l :: st =>
    if (length st <? STACK_SIZE)%nat then
      buildTree_loop fuel (Some (length m) :: st)
                     (mkWorld (m ++ [mkNode 0 0 0 0 0 (cut_char o) l r]) rest out)
    else Undef OutOfBounds
  | _ => Undef OutOfBounds
  end.
Proof.
  cbn [buildTree_loop]. unfold bind at 1. unfold fgets. cbn [input].
  replace (fgets_chars (LINE_SIZE - 1) (fmt_cut (cut_char o) +++ rest))
    with (fmt_cut (cut_char o), rest) by (destruct o; reflexivity).
  unfold fmt_cut at 1. unfold set_input. cbn [mem output].
  unfold bind at 1. unfold fmt_cut.
  rewrite buildTree_line_cut by (destruct o; reflexivity). cbn [mem].
  destruct stack as [|r [|l st]]; try reflexivity.
  destruct (length st <? STACK_SIZE)%nat; reflexivity.
Qed.

(** ** The loop of [buildTree] on the tokens of a tree *)

Lemma render_app a b : render (a ++ b) = render a +++ render b.
Proof.
  induction a as [|k a IH]; simpl; [reflexivity|].
  rewrite IH, append_assoc. reflexivity.
Qed.

Lemma need_pos s : (1 <= need s)%nat.
Proof. destruct s; simpl; lia. Qed.

Lemma size_initial s : size (initial s) = length (postorder s).
Proof.
  induction s as [|o sl IHl sr IHr]; simpl; [reflexivity|].
  rewrite !length_app, IHl, IHr. simpl. lia.
Qed.

(** From a stack of [length stack] entries, the tokens of [s] either push
    the root of [s], laid out at the end of the heap, or run over the end
    of the stack array. *)
Lemma buildTree_loop_shape s :
  fits s ->
  forall fuel stack m rest out,
    buildTree_loop (length (postorder s) + fuel) stack
                   (mkWorld m (render (postorder s) +++ rest) out) =
    if (length stack + need s <=? STACK_SIZE)%nat then
      buildTree_loop fuel (Some (root_of (length m) (initial s)) :: stack)
                     (mkWorld (m ++ heap_of (length m) (initial s)) rest out)
    else Undef OutOfBounds.
Proof.
  induction s as [l w h|o sl IHl sr IHr]; intros Hfits fuel stack m rest out.
  - cbn [postorder render length Nat.add need initial heap_of root_of root_node].
    replace (render_token (TLeaf l w h) +++ "") with (fmt_leaf l w h)
      by (simpl; induction (fmt_leaf l w h) as [|? ? IH]; simpl; [|rewrite <- IH]; reflexivity).
    rewrite (buildTree_loop_leaf _ _ _ _ _ _ _ _ Hfits).
    destruct (Nat.ltb_spec (length stack) STACK_SIZE);
      destruct (Nat.leb_spec (length stack + 1) STACK_SIZE); try lia; reflexivity.
  - destruct Hfits as [Fl Fr].
    cbn [postorder need initial].
    rewrite !render_app, !append_assoc, !length_app.
    replace (length (postorder sl) + (length (postorder sr) + length [TOp o]) + fuel)%nat
      with (length (postorder sl) + (length (postorder sr) + S fuel))%nat
      by (simpl; lia).
    rewrite (IHl Fl).
    pose proof (need_pos sl). pose proof (need_pos sr).
    destruct (Nat.leb_spec (length stack + need sl) STACK_SIZE) as [Hl|Hl].
    2:{ destruct (Nat.leb_spec (length stack + Nat.max (need sl) (S (need sr))) STACK_SIZE);
          [lia | reflexivity]. }
    rewrite (IHr Fr). cbn [length].
    destruct (Nat.leb_spec (S (length stack) + need sr) STACK_SIZE) as [Hr|Hr].
    2:{ destruct (Nat.leb_spec (length stack + Nat.max (need sl) (S (need sr))) STACK_SIZE);
          [lia | reflexivity]. }
    destruct (Nat.leb_spec (length stack + Nat.max (need sl) (S (need sr))) STACK_SIZE);
      [|lia].
    cbn [render render_token].
    replace ((fmt_cut (cut_char o) +++ "") +++ rest)
      with (fmt_cut (cut_char o) +++ rest) by reflexivity.
    rewrite buildTree_loop_cut.
    destruct (Nat.ltb_spec (length stack) STACK_SIZE); [|lia].
    rewrite !length_app, !heap_of_length.
    cbn [heap_of root_of root_node]. rewrite <- !app_assoc.
    reflexivity.
Qed.

(** ** The loop of [buildTree] on the tokens of several trees *)

Lemma forest_size_snoc ts t : forest_size (ts ++ [t]) = (forest_size ts + size t)%nat.
Proof. induction ts as [|t' ts IH]; simpl; [lia | rewrite IH; lia]. Qed.

Lemma forest_heap_snoc ts : forall b t,
  forest_heap b (ts ++ [t]) = heap_of b t ++ forest_heap (b + size t) ts.
Proof.
  induction ts as [|t' ts IH]; intros b t; simpl.
  - rewrite Nat.add_0_r, app_nil_r. reflexivity.
  - rewrite IH, forest_size_snoc, <- app_assoc.
    replace (b + (forest_size ts + size t))%nat
      with (b + size t + forest_size ts)%nat by lia.
    reflexivity.
Qed.

Lemma forest_roots_snoc ts : forall b t,
  forest_roots b (ts ++ [t]) = forest_roots (b + size t) ts ++ [Some (root_of b t)].
Proof.
  induction ts as [|t' ts IH]; intros b t; simpl.
  - rewrite Nat.add_0_r. reflexivity.
  - rewrite IH, forest_size_snoc.
    replace (b + (forest_size ts + size t))%nat
      with (b + size t + forest_size ts)%nat by lia.
    reflexivity.
Qed.

Lemma buildTree_loop_forest ss :
  Forall fits ss ->
  forall fuel stack m rest out,
    forest_ok (length stack) ss ->
    buildTree_loop (length (forest_tokens ss) + fuel) stack
                   (mkWorld m (render (forest_tokens ss) +++ rest) out) =
    buildTree_loop fuel
      (forest_roots (length m) (rev (map initial ss)) ++ stack)
      (mkWorld (m ++ forest_heap (length m) (rev (map initial ss))) rest out).
Proof.
  induction 1 as [|s ss Hs _ IH]; intros fuel stack m rest out Hok.
  - simpl. rewrite app_nil_r. reflexivity.
  - destruct Hok as [Hneed Hok]. cbn [forest_tokens map rev].
    rewrite render_app, append_assoc, length_app, <- Nat.add_assoc.
    rewrite (buildTree_loop_shape s Hs).
    destruct (Nat.leb_spec (length stack + need s) STACK_SIZE); [|lia].
    rewrite IH by exact Hok.
    rewrite forest_roots_snoc, forest_heap_snoc, length_app, heap_of_length.
    rewrite <- !app_assoc. reflexivity.
Qed.

Lemma render_length ks : (length ks <= String.length (render ks))%nat.
Proof.
  induction ks as [|k ks IH]; simpl; [lia|].
  rewrite string_length_append.
  assert (1 <= String.length (render_token k))%nat; [|lia].
  destruct k as [l w h|o]; simpl.
  - destruct (fmt_leaf_head l w h) as (c & s & -> & _). simpl. lia.
  - lia.
Qed.

Lemma buildTree_loop_eof fuel stack m out :
  buildTree_loop (S fuel) stack (mkWorld m "" out) = Done (stack, mkWorld m "" out).
Proof. reflexivity. Qed.

Lemma append_nil_r a : a +++ "" = a.
Proof. induction a as [|c a IH]; simpl; [|rewrite IH]; reflexivity. Qed.

(** [buildTree] on the tokens of several trees that fit. *)
Lemma buildTree_forest ss w0 :
  Forall fits ss -> forest_ok 0 ss ->
  input w0 = render (forest_tokens ss) ->
  buildTree w0 =
  match forest_roots (length (mem w0)) (rev (map initial ss)) with
  | p :: _ =>
    Done (p, mkWorld (mem w0 ++ forest_heap (length (mem w0)) (rev (map initial ss)))
                     "" (output w0))
  | [] => Undef OutOfBounds
  end.
Proof.
  intros Hfits Hok Hin. destruct w0 as [m inp out]. simpl in Hin. subst inp.
  unfold buildTree. cbn [input mem output].
  pose proof (render_length (forest_tokens ss)) as Hlen.
  replace (S (String.length (render (forest_tokens ss))))
    with (length (forest_tokens ss) +
          S (String.length (render (forest_tokens ss)) - length (forest_tokens ss)))%nat
    by lia.
  unfold bind.
  rewrite <- (append_nil_r (render (forest_tokens ss))) at 2.
  rewrite (buildTree_loop_forest ss Hfits) by exact Hok.
  rewrite buildTree_loop_eof, app_nil_r.
  destruct (forest_roots (length m) (rev (map initial ss))); reflexivity.
Qed.

(** [buildTree] on the tokens of one tree that fits: the tree, or a run
    over the end of the stack array. *)
Lemma buildTree_shape s w0 :
  fits s -> input w0 = render (postorder s) ->
  buildTree w0 =
  if (need s <=? STACK_SIZE)%nat then
    Done (Some (root_of (length (mem w0)) (initial s)),
          mkWorld (mem w0 ++ heap_of (length (mem w0)) (initial s)) "" (output w0))
  else Undef OutOfBounds.
Proof.
  intros Hfits Hin. destruct w0 as [m inp out]. simpl in Hin. subst inp.
  unfold buildTree. cbn [input mem output].
  pose proof (render_length (postorder s)) as Hlen.
  replace (S (String.length (render (postorder s))))
    with (length (postorder s) +
          S (String.length (render (postorder s)) - length (postorder s)))%nat
    by lia.
  unfold bind.
  rewrite <- (append_nil_r (render (postorder s))) at 2.
  rewrite (buildTree_loop_shape s Hfits). cbn [length Nat.add].
  destruct (need s <=? STACK_SIZE)%nat; [|reflexivity].
  rewrite buildTree_loop_eof. reflexivity.
Qed.

(** ** The tree is the one the tokens describe *)

Lemma rep_at_app m t post : rep_at (m ++ heap_of (length m) t ++ post) (length m) t.
Proof.
  intros i n Hi. rewrite lookup_app_r by lia.
  replace (length m + i - length m)%nat with i by lia.
  apply lookup_app_l_Some. exact Hi.
Qed.

Lemma shape_at_initial s : forall fuel h b,
  rep_at h b (initial s) -> (size (initial s) <= fuel)%nat ->
  shape_at fuel h (Some (root_of b (initial s))) = Some s.
Proof.
  induction s as [l w ht|o sl IHl sr IHr]; intros fuel h b Hrep Hfuel;
    (destruct fuel as [|fuel]; [simpl in Hfuel; lia|]);
    pose proof (rep_at_root _ _ _ Hrep) as Hroot; cbn [shape_at initial].
  - cbn [initial] in Hroot. rewrite Hroot. reflexivity.
  - cbn [initial] in Hroot, Hrep. rewrite Hroot. cbn [root_node type left right].
    rewrite cut_char_not_NUL. simpl in Hfuel.
    rewrite (IHl fuel h b) by (try lia; eapply rep_at_left; eauto).
    rewrite (IHr fuel h _) by (try lia; eapply rep_at_right; eauto).
    destruct o; reflexivity.
Qed.

(** A post-order sequence is the sequence of one tree only. *)
Lemma postorder_suffix_inj s1 : forall s2 r1 r2,
  r1 ++ postorder s1 = r2 ++ postorder s2 -> r1 = r2 /\ s1 = s2.
Proof.
  induction s1 as [l w h|o sl IHl sr IHr];
    intros [l' w' h'|o' sl' sr'] r1 r2 H; simpl in H.
  - apply app_inj_tail in H as [-> [= -> -> ->]]. auto.
  - rewrite !app_assoc in H. apply app_inj_tail in H as [_ H]. discriminate.
  - rewrite !app_assoc in H. apply app_inj_tail in H as [_ H]. discriminate.
  - rewrite !app_assoc in H. apply app_inj_tail in H as [H [= ->]].
    apply IHr in H as [H ->]. apply IHl in H as [-> ->]. auto.
Qed.

Lemma postorder_inj s1 s2 : postorder s1 = postorder s2 -> s1 = s2.
Proof.
  intros H. apply (postorder_suffix_inj s1 s2 [] []). exact H.
Qed.

(** C3, as the program has it.  For the post-order tokens of a tree whose
    leaf descriptors the program can read (fields that are [int]s, lines
    that fit [line[20]]) and that never need more than 1000 stack entries,
    [buildTree] returns that very tree: read back through the [left] and
    [right] pointers, with the subtree pushed last as the right child, it
    is the tree the tokens are the post-order of, and no other tree has
    these tokens. *)
Theorem C3_buildTree_returns_the_tree s w0 :
  fits s -> (need s <= STACK_SIZE)%nat ->
  input w0 = render (postorder s) ->
  (exists root w1,
      buildTree w0 = Done (root, w1) /\
      shape_at (length (mem w1)) (mem w1) root = Some s) /\
  (forall s', postorder s' = postorder s -> s' = s).
Proof.
  intros Hfits Hneed Hin. split; [|intros s'; apply postorder_inj].
  rewrite (buildTree_shape s w0 Hfits Hin).
  destruct (Nat.leb_spec (need s) STACK_SIZE); [|lia].
  eexists _, _. split; [reflexivity|]. cbn [mem].
  apply shape_at_initial.
  - rewrite <- (app_nil_r (heap_of _ _)). apply rep_at_app.
  - rewrite length_app, heap_of_length. lia.
Qed.

Lemma C3_buildTree_returns_the_tree_witness :
  fits (SCut Horizontal (SLeaf 1 2 3) (SLeaf 2 4 5)) /\
  (need (SCut Horizontal (SLeaf 1 2 3) (SLeaf 2 4 5)) <= STACK_SIZE)%nat /\
  input (start example_input) =
    render (postorder (SCut Horizontal (SLeaf 1 2 3) (SLeaf 2 4 5))) /\
  ((exists root w1,
      buildTree (start example_input) = Done (root, w1) /\
      shape_at (length (mem w1)) (mem w1) root =
        Some (SCut Horizontal (SLeaf 1 2 3) (SLeaf 2 4 5))) /\
   (forall s', postorder s' = postorder (SCut Horizontal (SLeaf 1 2 3) (SLeaf 2 4 5)) ->
               s' = SCut Horizontal (SLeaf 1 2 3) (SLeaf 2 4 5))).
Proof.
  assert (Hfits : fits (SCut Horizontal (SLeaf 1 2 3) (SLeaf 2 4 5))).
  { repeat split; try reflexivity; vm_compute; lia. }
  assert (Hneed : (need (SCut Horizontal (SLeaf 1 2 3) (SLeaf 2 4 5)) <= STACK_SIZE)%nat).
  { vm_compute. lia. }
  split; [exact Hfits|]. split; [exact Hneed|]. split; [reflexivity|].
  apply (C3_buildTree_returns_the_tree _ (start example_input) Hfits Hneed).
  reflexivity.
Defined.

(** C3 as it is stated fails: a leaf descriptor with positive fields whose
    line is longer than [line[20]] is read in two pieces, and the second
    piece leaves [width] and [height] unassigned. *)
Lemma C3_counterexample_long_line :
  Forall valid_token (postorder (SLeaf 1234567 1234567 1234567)) /\
  buildTree (start (render (postorder (SLeaf 1234567 1234567 1234567)))) =
  Undef Indeterminate.
Proof.
  split; [|vm_compute; reflexivity].
  repeat constructor.
Qed.

(** ** What the builder does with input that is not a tree *)

(** C5, as the program has it.  [buildTree] has no structural error.  When
    several subtrees remain after the last token it returns the one pushed
    last; when an operator comes with fewer than two subtrees on the stack,
    and on empty input, it reads [stack[-1]], which the C standard leaves
    undefined. *)
Theorem C5_no_structural_error :
  (forall ss s w0,
      Forall fits (ss ++ [s]) -> forest_ok 0 (ss ++ [s]) ->
      input w0 = render (forest_tokens (ss ++ [s])) ->
      exists root w1,
        buildTree w0 = Done (root, w1) /\
        shape_at (length (mem w1)) (mem w1) root = Some s) /\
  (forall ss o ks w0,
      Forall fits ss -> forest_ok 0 ss -> (length ss < 2)%nat ->
      input w0 = render (forest_tokens ss ++ TOp o :: ks) ->
      buildTree w0 = Undef OutOfBounds) /\
  (forall w0, input w0 = "" -> buildTree w0 = Undef OutOfBounds).
Proof.
  split; [|split].
  - intros ss s w0 Hfits Hok Hin.
    rewrite (buildTree_forest _ w0 Hfits Hok Hin).
    rewrite map_app, rev_app_distr. cbn [map rev app forest_roots].
    eexists _, _. split; [reflexivity|]. cbn [mem].
    apply shape_at_initial.
    + eapply forest_heap_rep with (pre := mem w0) (post := []); [|reflexivity].
      rewrite app_nil_r. reflexivity.
    + rewrite length_app, forest_heap_length. simpl. lia.
  - intros ss o ks w0 Hfits Hok Hlen Hin.
    destruct w0 as [m inp out]. simpl in Hin. subst inp.
    unfold buildTree. cbn [input].
    pose proof (render_length (forest_tokens ss ++ TOp o :: ks)) as Hl.
    rewrite length_app in Hl. simpl in Hl.
    replace (S (String.length (render (forest_tokens ss ++ TOp o :: ks))))
      with (length (forest_tokens ss) +
            S (String.length (render (forest_tokens ss ++ TOp o :: ks))
               - length (forest_tokens ss)))%nat by lia.
    rewrite render_app. cbn [render render_token].
    apply bind_Undef.
    rewrite (buildTree_loop_forest ss Hfits) by exact Hok.
    rewrite buildTree_loop_cut.
    destruct ss as [|s1 [|s2 ss]]; [reflexivity | reflexivity | simpl in Hlen; lia].
  - intros [m inp out] Hin. simpl in Hin. subst inp. reflexivity.
Qed.

Lemma C5_no_structural_error_witness :
  (exists root w1,
      buildTree (start (render [TLeaf 1 2 3; TLeaf 2 4 5])) = Done (root, w1) /\
      shape_at (length (mem w1)) (mem w1) root = Some (SLeaf 2 4 5)) /\
  buildTree (start (render [TLeaf 1 2 3; TOp Horizontal])) = Undef OutOfBounds /\
  buildTree (start "") = Undef OutOfBounds.
Proof.
  destruct C5_no_structural_error as (Hmany & Hfew & Hempty).
  split; [|split].
  - apply (Hmany [SLeaf 1 2 3] (SLeaf 2 4 5)).
    + repeat constructor; vm_compute; lia.
    + vm_compute. lia.
    + reflexivity.
  - apply (Hfew [SLeaf 1 2 3] Horizontal []).
    + repeat constructor; vm_compute; lia.
    + vm_compute. lia.
    + simpl. lia.
    + reflexivity.
  - apply Hempty. reflexivity.
Defined.

(** C5 as it is stated fails: with two subtrees left after the last token
    the builder reports nothing and returns the second. *)
Lemma C5_counterexample_two_roots :
  buildTree (start (render [TLeaf 1 2 3; TLeaf 2 4 5])) =
  Done (Some 1%nat,
        mkWorld [mkNode 1 2 3 0 0 NUL None None; mkNode 2 4 5 0 0 NUL None None]
                "" [""; ""; ""]).
Proof. vm_compute. reflexivity. Qed.


(** ** The stack array *)

Lemma need_comb n : need (comb n) = S n.
Proof. induction n as [|n IH]; simpl; [reflexivity | rewrite IH; lia]. Qed.

Lemma fits_comb n : fits (comb n).
Proof.
  assert (H : leaf_fits 1 1 1) by (repeat split; vm_compute; lia).
  induction n as [|n IH]; simpl; auto.
Qed.

Lemma valid_comb n : Forall valid_token (postorder (comb n)).
Proof.
  induction n as [|n IH]; simpl.
  - repeat constructor.
  - constructor; [repeat constructor|].
    apply Forall_app. split; [exact IH | repeat constructor].
Qed.

(** C7, as the program has it.  The stack of [buildTree] is an array of
    1000 entries.  On the tokens of a tree that never need more, the
    builder returns; when they need more, it writes past the end of the
    array, which the C standard leaves undefined. *)
Theorem C7_stack_ceiling s w0 :
  fits s -> input w0 = render (postorder s) ->
  ((need s <= STACK_SIZE)%nat -> exists root w1, buildTree w0 = Done (root, w1)) /\
  ((STACK_SIZE < need s)%nat -> buildTree w0 = Undef OutOfBounds).
Proof.
  intros Hfits Hin. rewrite (buildTree_shape s w0 Hfits Hin).
  destruct (Nat.leb_spec (need s) STACK_SIZE); split; intros; try lia; eauto.
Qed.

Lemma C7_stack_ceiling_witness :
  (exists root w1,
      buildTree (start (render (postorder (comb 999)))) = Done (root, w1)) /\
  buildTree (start (render (postorder (comb 1000)))) = Undef OutOfBounds.
Proof.
  split.
  - apply (C7_stack_ceiling (comb 999) (start (render (postorder (comb 999))))
             (fits_comb 999) eq_refl).
    rewrite need_comb. unfold STACK_SIZE. lia.
  - apply (C7_stack_ceiling (comb 1000) (start (render (postorder (comb 1000))))
             (fits_comb 1000) eq_refl).
    rewrite need_comb. unfold STACK_SIZE. lia.
Defined.

(** C7 as it is stated fails: a valid sequence of 1001 leaves followed by
    1000 operators makes the builder store into [stack[1000]]. *)
Lemma C7_counterexample_1001_leaves :
  Forall valid_token (postorder (comb 1000)) /\
  buildTree (start (render (postorder (comb 1000)))) = Undef OutOfBounds.
Proof.
  split; [apply valid_comb|]. vm_compute. reflexivity.
Qed.

(** ** The reports *)

(** C8.  On the three lines [1(2,3)], [2(4,5)], [H] the program writes
    [1(2,3)], [2(4,5)], [H(4,8)] to its dimension report and
    [1((2,3)(0,5))], [2((4,5)(0,0))] to its coordinate report. *)
Theorem C8_example_reports :
  run_main ("1(2,3)" +++ eol +++ "2(4,5)" +++ eol +++ "H" +++ eol) =
  Done ["H" +++ eol +++ "1(2,3)" +++ eol +++ "2(4,5)" +++ eol;
        "1(2,3)" +++ eol +++ "2(4,5)" +++ eol +++ "H(4,8)" +++ eol;
        "1((2,3)(0,5))" +++ eol +++ "2((4,5)(0,0))" +++ eol].
Proof. vm_compute. reflexivity. Qed.

Lemma keeps_mem_ret {A} (a : A) : keeps_mem (ret a).
Proof. intros w a' w' [= _ <-]. reflexivity. Qed.

Lemma keeps_mem_load {A} p (f : Node -> A) : keeps_mem (load p f).
Proof.
  intros w a w'. unfold load. destruct p as [c|]; [|discriminate].
  destruct (mem w !! c); [|discriminate]. intros [= _ <-]. reflexivity.
Qed.

Lemma keeps_mem_fprintf f s : keeps_mem (fprintf f s).
Proof.
  intros w a w'. unfold fprintf. destruct (output w !! f); [|discriminate].
  intros [= _ <-]. reflexivity.
Qed.

Lemma keeps_mem_bind {A B} (m : M A) (k : A -> M B) :
  keeps_mem m -> (forall a, keeps_mem (k a)) -> keeps_mem (bind m k).
Proof.
  intros Hm Hk w b w'' H. apply bind_inv in H as (a & w' & H1 & H2).
  rewrite (Hk _ _ _ _ H2). apply (Hm _ _ _ H1).
Qed.

Ltac keeps_mem_step IH :=
  first
    [ apply IH
    | apply keeps_mem_ret
    | apply keeps_mem_load
    | apply keeps_mem_fprintf
    | apply keeps_mem_bind; [|intros ?]
    | match goal with
      | |- keeps_mem (if ?c then _ else _) => destruct c
      end ].

Lemma preorderTraversal_keeps_mem fuel :
  forall root f, keeps_mem (preorderTraversal fuel root f).
Proof.
  induction fuel as [|fuel IH]; intros root f; [intros w a w'; discriminate|].
  destruct root as [c|]; [|apply keeps_mem_ret].
  cbn [preorderTraversal]. repeat keeps_mem_step IH.
Qed.

Lemma writeDimensions_keeps_mem fuel :
  forall root f, keeps_mem (writeDimensions fuel root f).
Proof.
  induction fuel as [|fuel IH]; intros root f; [intros w a w'; discriminate|].
  destruct root as [c|]; [|apply keeps_mem_ret].
  cbn [writeDimensions]. repeat keeps_mem_step IH.
Qed.

Lemma writeCoordinates_keeps_mem fuel :
  forall root f, keeps_mem (writeCoordinates fuel root f).
Proof.
  induction fuel as [|fuel IH]; intros root f; [intros w a w'; discriminate|].
  destruct root as [c|]; [|apply keeps_mem_ret].
  cbn [writeCoordinates]. repeat keeps_mem_step IH.
Qed.

(** C9.  None of the three report writers changes a struct: after
    [preorderTraversal], [writeDimensions] or [writeCoordinates] the heap
    is the heap they were given. *)
Theorem C9_reports_leave_the_tree fuel root f w w' :
  (preorderTraversal fuel root f w = Done (tt, w') -> mem w' = mem w) /\
  (writeDimensions fuel root f w = Done (tt, w') -> mem w' = mem w) /\
  (writeCoordinates fuel root f w = Done (tt, w') -> mem w' = mem w).
Proof.
  split; [|split].
  - apply preorderTraversal_keeps_mem.
  - apply writeDimensions_keeps_mem.
  - apply writeCoordinates_keeps_mem.
Qed.

Lemma C9_reports_leave_the_tree_witness :
  (preorderTraversal 3 (Some 2%nat) 0 example_placed = Done (tt, example_report1) /\
   mem example_report1 = mem example_placed) /\
  (writeDimensions 3 (Some 2%nat) 1 example_placed = Done (tt, example_report2) /\
   mem example_report2 = mem example_placed) /\
  (writeCoordinates 3 (Some 2%nat) 2 example_placed = Done (tt, example_report3) /\
   mem example_report3 = mem example_placed).
Proof.
  split; [|split]; (split; [vm_compute; reflexivity|]).
  - apply (proj1 (C9_reports_leave_the_tree
                    3 (Some 2%nat) 0%nat example_placed example_report1)).
    vm_compute; reflexivity.
  - apply (proj1 (proj2 (C9_reports_leave_the_tree
                           3 (Some 2%nat) 1%nat example_placed example_report2))).
    vm_compute; reflexivity.
  - apply (proj2 (proj2 (C9_reports_leave_the_tree
                           3 (Some 2%nat) 2%nat example_placed example_report3))).
    vm_compute; reflexivity.
Defined.

(** ** The tokens of the example *)

Lemma example_valid : Forall valid_token [TLeaf 1 2 3; TLeaf 2 4 5; TOp Horizontal].
Proof. repeat constructor. Qed.

(* ================================================================= *)
(** * Further properties of the program *)

(** ** The report writers on a tree *)

Lemma bind_fprintf {B} f txt (k : unit -> M B) w old :
  output w !! f = Some old ->
  bind (fprintf f txt) k w = k tt (set_output (<[f := old +++ txt]> (output w)) w).
Proof. unfold bind, fprintf. intros ->. reflexivity. Qed.

Lemma set_output_twice f a b w :
  set_output (<[f := b]> (output (set_output (<[f := a]> (output w)) w)))
             (set_output (<[f := a]> (output w)) w) =
  set_output (<[f := b]> (output w)) w.
Proof. unfold set_output. simpl. rewrite list_insert_insert_eq. reflexivity. Qed.

Lemma lookup_set_output f a w old :
  output w !! f = Some old ->
  output (set_output (<[f := a]> (output w)) w) !! f = Some a.
Proof.
  intros H. simpl. apply list_lookup_insert_eq. eapply lookup_lt_Some; eauto.
Qed.

Lemma bind_assoc {A B C} (m : M A) (k : A -> M B) (k' : B -> M C) w :
  bind (bind m k) k' w = bind m (fun a => bind (k a) k') w.
Proof. unfold bind. destruct (m w) as [[a w']|u|]; reflexivity. Qed.

Lemma bind_ret {A B} (a : A) (k : A -> M B) w : bind (ret a) k w = k a w.
Proof. reflexivity. Qed.

(** The writers call themselves on the [NULL] children of a leaf, so they
    go one call deeper than the tree. *)
Lemma preorderTraversal_rep t :
  forall fuel b w f old,
    rep_at (mem w) b t -> (size t < fuel)%nat -> output w !! f = Some old ->
    preorderTraversal fuel (Some (root_of b t)) f w =
    Done (tt, set_output (<[f := old +++ pre_report t]> (output w)) w).
Proof.
  induction t as [l0 w0 h0 cx0 cy0|o w0 h0 tl IHl tr IHr];
    intros fuel b w f old Hrep Hfuel Hout;
    (destruct fuel as [|fuel]; [simpl in Hfuel; lia|]);
    pose proof (rep_at_root _ _ _ Hrep) as Hroot; cbn [preorderTraversal].
  - rewrite (bind_load _ _ _ _ _ Hroot). cbn [root_node type].
    change (Ascii.eqb NUL NUL) with true. cbn iota.
    rewrite !bind_assoc.
    rewrite (bind_load _ _ _ _ _ Hroot), bind_assoc, (bind_load _ _ _ _ _ Hroot),
      bind_assoc, (bind_load _ _ _ _ _ Hroot).
    rewrite (bind_fprintf _ _ _ _ _ Hout).
    rewrite (bind_load _ _ _ (set_output _ w) _ Hroot). cbn [root_node left].
    destruct fuel as [|fuel]; [simpl in Hfuel; lia|].
    cbn [preorderTraversal]. rewrite bind_ret.
    rewrite (bind_load _ _ _ (set_output _ w) _ Hroot). reflexivity.
  - simpl in Hfuel.
    rewrite (bind_load _ _ _ _ _ Hroot). cbn [root_node type].
    rewrite cut_char_not_NUL.
    rewrite (bind_fprintf _ _ _ _ _ Hout).
    set (w1 := set_output (<[f := old +++ fmt_cut (cut_char o)]> (output w)) w).
    assert (Hroot1 : mem w1 !! root_of b (Cut o w0 h0 tl tr) =
                     Some (root_node b (Cut o w0 h0 tl tr))) by exact Hroot.
    rewrite (bind_load _ _ _ w1 _ Hroot1). cbn [root_node left].
    rewrite (bind_Done _ _ _ _ _
               (IHl fuel b w1 f _ (rep_at_left _ _ _ _ _ _ _ Hrep) ltac:(lia)
                    (lookup_set_output _ _ _ _ Hout))).
    unfold w1. rewrite set_output_twice.
    rewrite (bind_load _ _ _ (set_output _ w) _ Hroot). cbn [root_node right].
    rewrite (IHr fuel _ (set_output _ w) f _
                 (rep_at_right _ _ _ _ _ _ _ Hrep) ltac:(lia)
                 (lookup_set_output _ _ _ _ Hout)).
    rewrite set_output_twice, !append_assoc. reflexivity.
Qed.

Lemma writeDimensions_rep t :
  forall fuel b w f old,
    rep_at (mem w) b t -> (size t < fuel)%nat -> output w !! f = Some old ->
    writeDimensions fuel (Some (root_of b t)) f w =
    Done (tt, set_output (<[f := old +++ dim_report t]> (output w)) w).
Proof.
  induction t as [l0 w0 h0 cx0 cy0|o w0 h0 tl IHl tr IHr];
    intros fuel b w f old Hrep Hfuel Hout;
    (destruct fuel as [|fuel]; [simpl in Hfuel; lia|]);
    pose proof (rep_at_root _ _ _ Hrep) as Hroot; cbn [writeDimensions].
  - rewrite (bind_load _ _ _ _ _ Hroot). cbn [root_node left].
    destruct fuel as [|fuel]; [simpl in Hfuel; lia|].
    cbn [writeDimensions]. rewrite bind_ret.
    rewrite (bind_load _ _ _ _ _ Hroot). cbn [root_node right]. rewrite bind_ret.
    rewrite (bind_load _ _ _ _ _ Hroot), (bind_load _ _ _ _ _ Hroot),
      (bind_load _ _ _ _ _ Hroot).
    cbn [root_node type]. change (Ascii.eqb NUL NUL) with true. cbn iota.
    rewrite (bind_load _ _ _ _ _ Hroot).
    unfold fprintf. rewrite Hout. reflexivity.
  - simpl in Hfuel.
    rewrite (bind_load _ _ _ _ _ Hroot). cbn [root_node left].
    rewrite (bind_Done _ _ _ _ _
               (IHl fuel b w f _ (rep_at_left _ _ _ _ _ _ _ Hrep) ltac:(lia) Hout)).
    rewrite (bind_load _ _ _ (set_output _ w) _ Hroot). cbn [root_node right].
    rewrite (bind_Done _ _ _ _ _
               (IHr fuel _ (set_output _ w) f _
                    (rep_at_right _ _ _ _ _ _ _ Hrep) ltac:(lia)
                    (lookup_set_output _ _ _ _ Hout))).
    rewrite set_output_twice.
    rewrite (bind_load _ _ _ (set_output _ w) _ Hroot),
      (bind_load _ _ _ (set_output _ w) _ Hroot),
      (bind_load _ _ _ (set_output _ w) _ Hroot).
    cbn [root_node type width height]. rewrite cut_char_not_NUL.
    unfold fprintf. rewrite (lookup_set_output _ _ _ _ Hout).
    rewrite set_output_twice, !append_assoc. reflexivity.
Qed.

Lemma writeCoordinates_rep t :
  forall fuel b w f old,
    rep_at (mem w) b t -> (size t < fuel)%nat -> output w !! f = Some old ->
    writeCoordinates fuel (Some (root_of b t)) f w =
    Done (tt, set_output (<[f := old +++ coord_report t]> (output w)) w).
Proof.
  induction t as [l0 w0 h0 cx0 cy0|o w0 h0 tl IHl tr IHr];
    intros fuel b w f old Hrep Hfuel Hout;
    (destruct fuel as [|fuel]; [simpl in Hfuel; lia|]);
    pose proof (rep_at_root _ _ _ Hrep) as Hroot; cbn [writeCoordinates].
  - rewrite (bind_load _ _ _ _ _ Hroot). cbn [root_node type].
    change (Ascii.eqb NUL NUL) with true. cbn iota.
    rewrite !bind_assoc.
    rewrite (bind_load _ _ _ _ _ Hroot), bind_assoc, (bind_load _ _ _ _ _ Hroot),
      bind_assoc, (bind_load _ _ _ _ _ Hroot),
      bind_assoc, (bind_load _ _ _ _ _ Hroot),
      bind_assoc, (bind_load _ _ _ _ _ Hroot).
    rewrite (bind_fprintf _ _ _ _ _ Hout).
    rewrite (bind_load _ _ _ (set_output _ w) _ Hroot). cbn [root_node left].
    destruct fuel as [|fuel]; [simpl in Hfuel; lia|].
    cbn [writeCoordinates]. rewrite bind_ret.
    rewrite (bind_load _ _ _ (set_output _ w) _ Hroot). reflexivity.
  - simpl in Hfuel.
    rewrite (bind_load _ _ _ _ _ Hroot). cbn [root_node type].
    rewrite cut_char_not_NUL. rewrite bind_ret.
    rewrite (bind_load _ _ _ _ _ Hroot). cbn [root_node left].
    rewrite (bind_Done _ _ _ _ _
               (IHl fuel b w f _ (rep_at_left _ _ _ _ _ _ _ Hrep) ltac:(lia) Hout)).
    rewrite (bind_load _ _ _ (set_output _ w) _ Hroot). cbn [root_node right].
    rewrite (IHr fuel _ (set_output _ w) f _
                 (rep_at_right _ _ _ _ _ _ _ Hrep) ltac:(lia)
                 (lookup_set_output _ _ _ _ Hout)).
    rewrite set_output_twice, !append_assoc. reflexivity.
Qed.

(** ** [main] after [buildTree] *)

Lemma main_on_tree t b m inp o0 o1 o2 :
  rep_at m b t -> (size t <= length m)%nat ->
  outputs_of
    ((fuel <- heap_size ;;
      preorderTraversal (S fuel) (Some (root_of b t)) 0 ;;;
      computeDimensions (S fuel) (Some (root_of b t)) ;;;
      writeDimensions (S fuel) (Some (root_of b t)) 1 ;;;
      computeCoordinates (S fuel) (Some (root_of b t)) 0 0 ;;;
      writeCoordinates (S fuel) (Some (root_of b t)) 2)
       (mkWorld m inp [o0; o1; o2])) =
  match dims t with
  | None => Undef IntOverflow
  | Some t' =>
    match coords 0 0 t' with
    | None => Undef IntOverflow
    | Some t'' =>
      Done [o0 +++ pre_report t; o1 +++ dim_report t'; o2 +++ coord_report t'']
    end
  end.
Proof.
  intros Hrep Hsize.
  unfold heap_size at 1. unfold bind at 1. cbn [mem].
  rewrite (bind_Done _ _ _ _ _
             (preorderTraversal_rep t (S (length m)) b (mkWorld m inp [o0; o1; o2])
                                    0%nat o0 Hrep ltac:(lia) eq_refl)).
  cbn [set_output output mem input]. simpl (<[0%nat:=_]> _).
  pose proof (computeDimensions_rep t (S (length m)) b
                (mkWorld m inp [o0 +++ pre_report t; o1; o2]) Hrep ltac:(lia)) as Hd.
  destruct (dims t) as [t'|] eqn:Dt;
    [|rewrite (bind_Undef _ _ _ _ Hd); reflexivity].
  destruct Hd as (h1 & Run1 & Hrep1 & Len1 & _). cbn [mem] in Len1.
  rewrite (bind_Done _ _ _ _ _ Run1). unfold set_mem; cbn [mem input output].
  pose proof (dims_size _ _ Dt) as S1.
  rewrite <- (root_of_size b t t' S1).
  rewrite (bind_Done _ _ _ _ _
             (writeDimensions_rep t' (S (length m)) b
                (mkWorld h1 inp [o0 +++ pre_report t; o1; o2])
                1%nat o1 Hrep1 ltac:(lia) eq_refl)).
  cbn [set_output output mem input]. simpl (<[1%nat:=_]> _).
  pose proof (computeCoordinates_rep t' (S (length m)) b 0 0
                (mkWorld h1 inp [o0 +++ pre_report t; o1 +++ dim_report t'; o2])
                Hrep1 ltac:(lia)) as Hc.
  destruct (coords 0 0 t') as [t''|] eqn:Ct;
    [|rewrite (bind_Undef _ _ _ _ Hc); reflexivity].
  destruct Hc as (h2 & Run2 & Hrep2 & Len2 & _). cbn [mem] in Len2.
  rewrite (bind_Done _ _ _ _ _ Run2). unfold set_mem; cbn [mem input output].
  destruct (coords_same _ _ _ _ Ct) as (S2 & _).
  rewrite <- (root_of_size b t' t'' S2).
  rewrite (writeCoordinates_rep t'' (S (length m)) b
             (mkWorld h2 inp [o0 +++ pre_report t; o1 +++ dim_report t'; o2])
             2%nat o2 Hrep2 ltac:(lia) eq_refl).
  reflexivity.
Qed.

(** ** What [buildTree] returns on any input *)

Lemma scan_d_in_int s v r : scan_d s = Matched v r -> in_int v = true.
Proof.
  assert (H : forall neg t, scan_number neg t = Matched v r -> in_int v = true).
  { intros neg t. unfold scan_number. destruct t as [|c t']; [discriminate|].
    destruct (digit_of c); [|discriminate].
    destruct (scan_digits 0 (String c t')) as [v' r'].
    destruct (in_int (if neg then - v' else v')) eqn:E; [|discriminate].
    intros [= <- _]. exact E. }
  unfold scan_d. destruct (skip_space s) as [|c s']; [discriminate|].
  destruct (Ascii.eqb c "-"); [apply H|].
  destruct (Ascii.eqb c "+"); apply H.
Qed.

Lemma sscanf_in_int line l w h :
  sscanf line = Done [l; w; h] ->
  in_int l = true /\ in_int w = true /\ in_int h = true.
Proof.
  unfold sscanf.
  destruct (scan_d line) as [v1 r1| |] eqn:E1; try discriminate.
  destruct (literal "(" r1) as [r1'|]; [|discriminate].
  destruct (scan_d r1') as [v2 r2| |] eqn:E2; try discriminate.
  destruct (literal "," r2) as [r2'|]; [|discriminate].
  destruct (scan_d r2') as [v3 r3| |] eqn:E3; try discriminate.
  intros [= <- <- <-].
  repeat split; eapply scan_d_in_int; eauto.
Qed.

Lemma buildTree_line_shapes pre line stack w stack' w' ss :
  buildTree_line line stack w = Done (stack', w') ->
  stack = forest_roots (length pre) (map initial ss) ->
  mem w = pre ++ forest_heap (length pre) (map initial ss) ->
  exists ss',
    stack' = forest_roots (length pre) (map initial ss') /\
    mem w' = pre ++ forest_heap (length pre) (map initial ss') /\
    input w' = input w /\ output w' = output w /\
    (Forall ints ss -> Forall ints ss') /\
    (no_minus line = true ->
     Forall (fun s => leaves_nonneg (initial s)) ss ->
     Forall (fun s => leaves_nonneg (initial s)) ss').
Proof.
  intros Hline Hst Hmem.
  assert (Hlen : length (mem w) = (length pre + forest_size (map initial ss))%nat).
  { rewrite Hmem, length_app, forest_heap_length. reflexivity. }
  apply buildTree_line_Done in Hline
    as [(c & rest & r & l & st & -> & Hc & Hs & -> & ->)
       |(l & wd & h & Hs & Hlt & -> & ->)].
  - destruct ss as [|sr [|sl ss0]]; simpl in Hst; rewrite Hs in Hst; try discriminate.
    injection Hst as -> -> ->.
    apply is_cut_char_inv in Hc as [o ->].
    exists (SCut o sl sr :: ss0). simpl in *.
    split; [f_equal; f_equal; lia|]. split; [|split; [reflexivity|split; [reflexivity|]]].
    + rewrite Hmem. rewrite <- !app_assoc.
      replace (length (pre ++ forest_heap (length pre) (map initial ss0) ++
                 heap_of (length pre + forest_size (map initial ss0)) (initial sl) ++
                 heap_of (length pre + (forest_size (map initial ss0) + size (initial sl)))
                         (initial sr)))
        with (length pre + forest_size (map initial ss0)
              + size (initial sl) + size (initial sr))%nat
        by (rewrite !length_app, forest_heap_length, !heap_of_length; lia).
      rewrite !Nat.add_assoc. reflexivity.
    + split.
      * intros Hi. inversion Hi as [|? ? Hr Hi']; subst.
        inversion Hi' as [|? ? Hl Hi'']; subst.
        constructor; [split; assumption | assumption].
      * intros _ Hnn. inversion Hnn as [|? ? Hr Hnn']; subst.
        inversion Hnn' as [|? ? Hl Hnn'']; subst.
        constructor; [split; assumption | assumption].
  - exists (SLeaf l wd h :: ss). simpl.
    split; [rewrite Hst; f_equal; f_equal; lia|].
    split; [rewrite Hmem, <- app_assoc; reflexivity|].
    split; [reflexivity|]. split; [reflexivity|]. split.
    + intros Hi. constructor; [|exact Hi]. simpl. eapply sscanf_in_int; eauto.
    + intros Hnm Hnn. constructor; [|exact Hnn].
      simpl. eapply sscanf_no_minus; eauto.
Qed.

Lemma fgets_eof size w w' :
  (1 < size)%nat -> fgets size w = Done (None, w') -> w' = w /\ input w = "".
Proof.
  intros Hsize. unfold fgets.
  destruct (size - 1)%nat as [|n] eqn:En; [lia|].
  destruct (input w) as [|c rest] eqn:Ein; simpl.
  - intros [= <-]. auto.
  - destruct (Ascii.eqb c LF); [discriminate|].
    destruct (fgets_chars n rest); discriminate.
Qed.

Lemma buildTree_loop_shapes pre fuel :
  forall stack w stack' w' ss,
    buildTree_loop fuel stack w = Done (stack', w') ->
    stack = forest_roots (length pre) (map initial ss) ->
    mem w = pre ++ forest_heap (length pre) (map initial ss) ->
    exists ss',
      stack' = forest_roots (length pre) (map initial ss') /\
      mem w' = pre ++ forest_heap (length pre) (map initial ss') /\
      input w' = "" /\ output w' = output w /\
      (Forall ints ss -> Forall ints ss') /\
      (no_minus (input w) = true ->
       Forall (fun s => leaves_nonneg (initial s)) ss ->
       Forall (fun s => leaves_nonneg (initial s)) ss').
Proof.
  induction fuel as [|fuel IH]; intros stack w stack' w' ss; simpl; [discriminate|].
  intros Hrun Hst Hmem.
  apply bind_inv in Hrun as (l & w1 & Hget & Hrun).
  destruct l as [line|].
  - apply fgets_inv in Hget as (Hm1 & Ho1 & Hnm1).
    apply bind_inv in Hrun as (stack1 & w2 & Hline & Hrun).
    rewrite <- Hm1 in Hmem.
    destruct (buildTree_line_shapes pre _ _ _ _ _ ss Hline Hst Hmem)
      as (ss1 & Hst1 & Hmem1 & Hi1 & Ho2 & Hint1 & Hnn1).
    destruct (IH _ _ _ _ ss1 Hrun Hst1 Hmem1)
      as (ss' & Hst' & Hmem' & Hin' & Ho' & Hint' & Hnn').
    exists ss'. split; [exact Hst'|]. split; [exact Hmem'|]. split; [exact Hin'|].
    split; [congruence|]. split; [auto|].
    intros Hnm Hnn. destruct (Hnm1 Hnm) as [Hin Hl].
    apply Hnn'; [rewrite Hi1; exact Hin|].
    apply Hnn1; [apply Hl; reflexivity | exact Hnn].
  - apply fgets_eof in Hget as [-> Hin]; [|unfold LINE_SIZE; lia].
    injection Hrun as <- <-. exists ss. auto 10.
Qed.

(** Whenever [buildTree] returns, it returns the root of a tree: the
    structs of some shape [s], freshly allocated in post-order, with zero
    coordinates and zero cut dimensions. *)
Lemma buildTree_returns w0 root w1 :
  buildTree w0 = Done (root, w1) ->
  exists s b new,
    root = Some (root_of b (initial s)) /\
    rep_at (mem w1) b (initial s) /\
    (b + size (initial s) = length (mem w1))%nat /\
    mem w1 = mem w0 ++ new /\
    input w1 = "" /\ output w1 = output w0 /\
    ints s /\
    (no_minus (input w0) = true -> leaves_nonneg (initial s)).
Proof.
  unfold buildTree. intros H.
  apply bind_inv in H as (stack & w' & Hloop & Hret).
  destruct (buildTree_loop_shapes (mem w0) _ _ _ _ _ [] Hloop)
    as (ss & Hst & Hmem & Hin & Hout & Hint & Hnn);
    [reflexivity | simpl; symmetry; apply app_nil_r |].
  destruct stack as [|p st]; [discriminate|].
  injection Hret as <- <-.
  destruct ss as [|s ss]; [discriminate|]. simpl in Hst. injection Hst as -> ->.
  exists s, (length (mem w0) + forest_size (map initial ss))%nat,
    (forest_heap (length (mem w0)) (map initial (s :: ss))).
  split; [reflexivity|]. split.
  { eapply forest_heap_rep with (post := []) (ts := map initial ss); [|reflexivity].
    rewrite app_nil_r. exact Hmem. }
  split.
  { rewrite Hmem, length_app. simpl.
    rewrite length_app, forest_heap_length, heap_of_length. lia. }
  split; [exact Hmem|]. split; [exact Hin|]. split; [exact Hout|]. split.
  - specialize (Hint (List.Forall_nil _)). inversion Hint; assumption.
  - intros Hnm. specialize (Hnn Hnm (List.Forall_nil _)). inversion Hnn; assumption.
Qed.

(** X1.  When [buildTree] returns it has read its input to the end, has
    written to no output stream, and has only added structs to the heap:
    the structs that were there before are where and what they were. *)
Theorem X1_buildTree_reads_all_and_only_allocates w0 root w1 :
  buildTree w0 = Done (root, w1) ->
  input w1 = "" /\ output w1 = output w0 /\
  exists new, mem w1 = mem w0 ++ new.
Proof.
  intros H.
  apply buildTree_returns in H as (s & b & new & _ & _ & _ & Hmem & Hin & Hout & _).
  eauto.
Qed.

Lemma X1_buildTree_reads_all_and_only_allocates_witness :
  buildTree (start example_input) = Done (Some 2%nat, example_built) /\
  input example_built = "" /\ output example_built = output (start example_input) /\
  exists new, mem example_built = mem (start example_input) ++ new.
Proof.
  split; [vm_compute; reflexivity|].
  apply (X1_buildTree_reads_all_and_only_allocates
           (start example_input) (Some 2%nat) example_built).
  vm_compute; reflexivity.
Defined.

Lemma run_main_outputs inp : run_main inp = outputs_of (main (start inp)).
Proof. reflexivity. Qed.

(** X3.  On every input on which [buildTree] completes (it stays inside
    its stack array, and [sscanf] assigns the three variables of every leaf
    line), the rest of [main] is memory safe on the tree it returned: the
    two passes and the three writers dereference no [NULL] pointer and read
    no struct outside the heap; [main] writes its three reports unless a
    sum of dimensions or coordinates leaves [int]. *)
Theorem X3_main_is_safe_after_buildTree inp root w1 :
  buildTree (start inp) = Done (root, w1) ->
  (exists o1 o2 o3, run_main inp = Done [o1; o2; o3]) \/
  run_main inp = Undef IntOverflow.
Proof.
  intros Hbuild. rewrite run_main_outputs. unfold main.
  rewrite (bind_Done _ _ _ _ _ Hbuild).
  apply buildTree_returns in Hbuild
    as (s & b & new & -> & Hrep & Hlen & _ & _ & Hout & _).
  destruct w1 as [m i o]. simpl in Hout, Hrep, Hlen. subst o.
  rewrite (main_on_tree (initial s) b m i "" "" "" Hrep ltac:(lia)).
  destruct (dims (initial s)) as [t'|]; [|right; reflexivity].
  destruct (coords 0 0 t') as [t''|]; [|right; reflexivity].
  left. eauto.
Qed.

Lemma X3_main_is_safe_after_buildTree_witness :
  buildTree (start example_input) = Done (Some 2%nat, example_built) /\
  ((exists o1 o2 o3, run_main example_input = Done [o1; o2; o3]) \/
   run_main example_input = Undef IntOverflow).
Proof.
  split; [vm_compute; reflexivity|].
  apply (X3_main_is_safe_after_buildTree example_input (Some 2%nat) example_built).
  vm_compute; reflexivity.
Defined.

(** [main] from any state with three open output streams, on the tokens
    of a tree that the builder can read and hold. *)
Lemma main_readable s m o0 o1 o2 :
  fits s -> (need s <= STACK_SIZE)%nat ->
  outputs_of (main (mkWorld m (render (postorder s)) [o0; o1; o2])) =
  match dims (initial s) with
  | None => Undef IntOverflow
  | Some t' =>
    match coords 0 0 t' with
    | None => Undef IntOverflow
    | Some t'' =>
      Done [o0 +++ pre_report (initial s); o1 +++ dim_report t';
            o2 +++ coord_report t'']
    end
  end.
Proof.
  intros Hfits Hneed. unfold main.
  pose proof (buildTree_shape s (mkWorld m (render (postorder s)) [o0; o1; o2])
                Hfits eq_refl) as Hb.
  destruct (Nat.leb_spec (need s) STACK_SIZE); [|lia].
  rewrite (bind_Done _ _ _ _ _ Hb). cbn [mem output].
  apply main_on_tree.
  - rewrite <- (app_nil_r (heap_of _ _)). apply (rep_at_app m (initial s) []).
  - rewrite length_app, heap_of_length. lia.
Qed.

(** X4.  On the post-order tokens of a tree that the builder can read and
    hold, [main] computes what the two passes compute on the tree and
    writes the three reports of the tree: the structure report in
    pre-order with the input's dimensions, the dimension report in
    post-order with the computed dimensions, the coordinate report with one
    line per leaf; the run is undefined exactly when a sum of dimensions or
    coordinates leaves [int]. *)
Theorem X4_main_on_a_readable_tree s :
  fits s -> (need s <= STACK_SIZE)%nat ->
  run_main (render (postorder s)) = reports_of (initial s).
Proof.
  intros Hfits Hneed. rewrite run_main_outputs. unfold start, reports_of.
  rewrite (main_readable s [] "" "" "" Hfits Hneed).
  destruct (dims (initial s)) as [t'|]; [|reflexivity].
  destruct (coords 0 0 t') as [t''|]; reflexivity.
Qed.

Lemma X4_main_on_a_readable_tree_witness :
  fits (SCut Vertical (SLeaf 1 2 3) (SCut Horizontal (SLeaf 2 4 5) (SLeaf 3 1 1))) /\
  (need (SCut Vertical (SLeaf 1 2 3) (SCut Horizontal (SLeaf 2 4 5) (SLeaf 3 1 1)))
   <= STACK_SIZE)%nat /\
  run_main (render (postorder
    (SCut Vertical (SLeaf 1 2 3) (SCut Horizontal (SLeaf 2 4 5) (SLeaf 3 1 1))))) =
  reports_of (initial
    (SCut Vertical (SLeaf 1 2 3) (SCut Horizontal (SLeaf 2 4 5) (SLeaf 3 1 1)))).
Proof.
  assert (Hfits : fits (SCut Vertical (SLeaf 1 2 3)
                          (SCut Horizontal (SLeaf 2 4 5) (SLeaf 3 1 1)))).
  { repeat split; try reflexivity; vm_compute; lia. }
  assert (Hneed : (need (SCut Vertical (SLeaf 1 2 3)
                           (SCut Horizontal (SLeaf 2 4 5) (SLeaf 3 1 1)))
                   <= STACK_SIZE)%nat).
  { vm_compute. lia. }
  split; [exact Hfits|]. split; [exact Hneed|].
  apply (X4_main_on_a_readable_tree _ Hfits Hneed).
Defined.

(** ** The reports against the input *)

Lemma cat_app a b : cat (a ++ b) = cat a +++ cat b.
Proof.
  induction a as [|l a IH]; simpl; [reflexivity|].
  rewrite IH, append_assoc. reflexivity.
Qed.

Lemma pre_report_initial s : pre_report (initial s) = render (preorder s).
Proof.
  induction s as [l w h|o sl IHl sr IHr]; simpl.
  - rewrite append_nil_r. reflexivity.
  - rewrite render_app, IHl, IHr. reflexivity.
Qed.

Lemma preorder_postorder s : Permutation (preorder s) (postorder s).
Proof.
  induction s as [l w h|o sl IHl sr IHr]; simpl; [reflexivity|].
  rewrite app_assoc. etransitivity; [apply Permutation_cons_append|].
  apply Permutation_app; [|reflexivity].
  apply Permutation_app; assumption.
Qed.

Lemma dims_erase t t' : dims t = Some t' -> erase t' = erase t.
Proof.
  revert t'. induction t as [l0 w0 h0 cx0 cy0|o w0 h0 tl IHl tr IHr]; intros t' Hd.
  - injection Hd as <-. reflexivity.
  - simpl in Hd.
    destruct (dims tl) as [tl'|]; [|discriminate].
    destruct (dims tr) as [tr'|]; [|discriminate].
    specialize (IHl _ eq_refl). specialize (IHr _ eq_refl).
    destruct o; destruct (in_int _); try discriminate; injection Hd as <-;
      simpl; congruence.
Qed.

Lemma coords_erase t : forall cx cy t', coords cx cy t = Some t' -> erase t' = erase t.
Proof.
  induction t as [l0 w0 h0 cx0 cy0|o w0 h0 tl IHl tr IHr]; intros cx cy t' Hc.
  - injection Hc as <-. reflexivity.
  - simpl in Hc. destruct o.
    + destruct (in_int _); [|discriminate].
      destruct (coords cx (cy + theight tr) tl) as [tl'|] eqn:El; [|discriminate].
      destruct (coords cx cy tr) as [tr'|] eqn:Er; [|discriminate].
      injection Hc as <-. simpl.
      rewrite (IHl _ _ _ El), (IHr _ _ _ Er). reflexivity.
    + destruct (in_int _); [|discriminate].
      destruct (coords cx cy tl) as [tl'|] eqn:El; [|discriminate].
      destruct (coords (cx + twidth tl) cy tr) as [tr'|] eqn:Er; [|discriminate].
      injection Hc as <-. simpl.
      rewrite (IHl _ _ _ El), (IHr _ _ _ Er). reflexivity.
Qed.

Lemma erase_initial s : erase (initial s) = s.
Proof. induction s as [|o sl IHl sr IHr]; simpl; congruence. Qed.

Lemma dim_report_lines t : dim_report t = cat (dim_lines t).
Proof.
  induction t as [l0 w0 h0 cx0 cy0|o w0 h0 tl IHl tr IHr]; simpl.
  - rewrite append_nil_r. reflexivity.
  - rewrite !cat_app, IHl, IHr. simpl. rewrite append_nil_r. reflexivity.
Qed.

Lemma dim_lines_answer t : Forall2 dim_line_of (postorder (erase t)) (dim_lines t).
Proof.
  induction t as [l0 w0 h0 cx0 cy0|o w0 h0 tl IHl tr IHr]; simpl.
  - constructor; [reflexivity | constructor].
  - apply Forall2_app; [exact IHl|]. apply Forall2_app; [exact IHr|].
    constructor; [simpl; eauto | constructor].
Qed.

Lemma coord_report_lines t : coord_report t = cat (map coord_line (leaves t)).
Proof.
  induction t as [l0 w0 h0 cx0 cy0|o w0 h0 tl IHl tr IHr]; simpl.
  - rewrite append_nil_r. reflexivity.
  - rewrite map_app, cat_app, IHl, IHr. reflexivity.
Qed.

Lemma leaves_tokens t :
  map leaf_token (leaves t) = List.filter is_leaf_token (postorder (erase t)).
Proof.
  induction t as [l0 w0 h0 cx0 cy0|o w0 h0 tl IHl tr IHr]; simpl.
  - reflexivity.
  - rewrite map_app, !List.filter_app, IHl, IHr. simpl.
    rewrite app_nil_r. reflexivity.
Qed.

(** ** What the passes leave alone *)

Lemma size_erase t : size t = length (postorder (erase t)).
Proof.
  induction t as [l0 w0 h0 cx0 cy0|o w0 h0 tl IHl tr IHr]; simpl; [reflexivity|].
  rewrite !length_app, IHl, IHr. simpl. lia.
Qed.

Lemma erase_size t t' : erase t' = erase t -> size t' = size t.
Proof. intros H. rewrite !size_erase, H. reflexivity. Qed.

Lemma kept_refl n : kept n n.
Proof. unfold kept. tauto. Qed.

Lemma heap_of_kept t : forall t' b i n1,
  erase t' = erase t ->
  heap_of b t !! i = Some n1 ->
  exists n3, heap_of b t' !! i = Some n3 /\ kept n1 n3.
Proof.
  induction t as [l0 w0 h0 cx0 cy0|o w0 h0 tl IHl tr IHr];
    intros [l1 w1 h1 cx1 cy1|o1 w1 h1 tl' tr'] b i n1 He Hi;
    simpl in He; try discriminate.
  - injection He as -> -> ->. destruct i as [|i]; simpl in *; [|discriminate].
    injection Hi as <-. eexists. split; [reflexivity|].
    unfold kept. simpl. do 4 (split; [reflexivity|]). split.
    + intros _. split; reflexivity.
    + intros Hn. congruence.
  - injection He as -> El Er.
    pose proof (erase_size _ _ El) as Sl. pose proof (erase_size _ _ Er) as Sr.
    simpl in Hi |- *.
    destruct (decide (i < size tl)%nat) as [Hlt|Hge].
    + rewrite lookup_app_l in Hi |- * by (rewrite heap_of_length; lia).
      eapply IHl; eauto.
    + rewrite lookup_app_r in Hi |- * by (rewrite heap_of_length; lia).
      rewrite heap_of_length in Hi |- *. rewrite Sl.
      destruct (decide (i - size tl < size tr)%nat) as [Hlt'|Hge'].
      * rewrite lookup_app_l in Hi |- * by (rewrite heap_of_length; lia).
        eapply IHr; eauto.
      * rewrite lookup_app_r in Hi |- * by (rewrite heap_of_length; lia).
        rewrite heap_of_length in Hi |- *. rewrite Sr.
        destruct (i - size tl - size tr)%nat as [|k]; simpl in *; [|discriminate].
        injection Hi as <-. eexists. split; [reflexivity|].
        unfold kept. cbn [label type left right width height x y].
        rewrite (root_of_size _ _ _ Sl), (root_of_size _ _ _ Sr).
        do 4 (split; [reflexivity|]). split.
        -- intros Hn. destruct o; discriminate.
        -- intros _. split; reflexivity.
Qed.

Lemma sub_cover t : forall b a,
  (b <= a < b + size t)%nat -> exists s bs, sub t b s bs /\ a = root_of bs s.
Proof.
  induction t as [l0 w0 h0 cx0 cy0|o w0 h0 tl IHl tr IHr]; intros b a Ha; simpl in Ha.
  - eexists _, b. split; [constructor | simpl; lia].
  - destruct (decide (a < b + size tl)%nat) as [Hl|Hl].
    + destruct (IHl b a ltac:(lia)) as (s & bs & Hs & ->).
      exists s, bs. split; [apply sub_left; exact Hs | reflexivity].
    + destruct (decide (a < b + size tl + size tr)%nat) as [Hr|Hr].
      * destruct (IHr (b + size tl)%nat a ltac:(lia)) as (s & bs & Hs & ->).
        exists s, bs. split; [apply sub_right; exact Hs | reflexivity].
      * eexists _, b. split; [constructor | simpl; lia].
Qed.

Lemma reach_range h b t a :
  rep_at h b t -> (reach h (Some (root_of b t)) a <-> (b <= a < b + size t)%nat).
Proof.
  intros Hrep. split.
  - intros Hr. destruct (reach_sub _ _ _ Hr _ _ Hrep eq_refl) as (s & bs & Hs & ->).
    pose proof (sub_range _ _ _ _ Hs). pose proof (root_of_last bs s).
    pose proof (size_pos s). lia.
  - intros Ha. destruct (sub_cover t b a Ha) as (s & bs & Hs & ->).
    eapply sub_reach; eauto.
Qed.

Lemma rep_at_lookup h b t a n :
  rep_at h b t -> (b <= a < b + size t)%nat -> h !! a = Some n ->
  heap_of b t !! (a - b)%nat = Some n.
Proof.
  intros Hrep Ha Hn.
  destruct (lookup_lt_is_Some_2 (heap_of b t) (a - b)%nat) as [n' Hn'];
    [rewrite heap_of_length; lia|].
  pose proof (Hrep _ _ Hn') as H.
  replace (b + (a - b))%nat with a in H by lia. congruence.
Qed.

(** X8.  The two passes keep the tree that [buildTree] returned: no struct
    is added or removed, no label, kind or link changes, no leaf gets other
    dimensions, no cut gets coordinates, and a struct that is not part of
    the tree is not touched at all. *)
Theorem X8_passes_keep_the_tree w0 root w1 fuel w2 fuel' cx cy w3 a n1 :
  buildTree w0 = Done (root, w1) ->
  computeDimensions fuel root w1 = Done (tt, w2) ->
  computeCoordinates fuel' root cx cy w2 = Done (tt, w3) ->
  mem w1 !! a = Some n1 ->
  length (mem w3) = length (mem w1) /\
  exists n3, mem w3 !! a = Some n3 /\ kept n1 n3 /\
             (~ reach (mem w1) root a -> n3 = n1).
Proof.
  intros Hbuild Hdim Hco Hn1.
  apply buildTree_returns in Hbuild as (s & b & new & -> & Hrep & _).
  destruct (computeDimensions_Done _ _ _ _ _ Hrep Hdim)
    as (t' & Hd & Hrep' & Hlen' & _ & _ & Hfr').
  rewrite <- (root_of_size b _ t' (dims_size _ _ Hd)) in Hco.
  destruct (computeCoordinates_Done _ _ _ _ _ _ _ Hrep' Hco)
    as (t'' & Hc & Hrep'' & Hlen'' & _ & _ & Hfr'').
  split; [congruence|].
  pose proof (dims_size _ _ Hd) as S1.
  destruct (decide (b <= a < b + size (initial s))%nat) as [Hin|Hout].
  - pose proof (rep_at_lookup _ _ _ _ _ Hrep Hin Hn1) as Hh.
    assert (He : erase t'' = erase (initial s))
      by (rewrite (coords_erase _ _ _ _ Hc); apply (dims_erase _ _ Hd)).
    destruct (heap_of_kept _ _ _ _ _ He Hh) as (n3 & Hn3 & Hk).
    exists n3. split; [|split; [exact Hk|]].
    + apply Hrep'' in Hn3. replace (b + (a - b))%nat with a in Hn3 by lia. exact Hn3.
    + intros Hnr. exfalso. apply Hnr. apply (reach_range _ _ _ _ Hrep). exact Hin.
  - exists n1. split; [|split; [apply kept_refl | reflexivity]].
    rewrite Hfr'' by lia. rewrite Hfr' by lia. exact Hn1.
Qed.

Lemma X8_passes_keep_the_tree_witness :
  buildTree (start example_input) = Done (Some 2%nat, example_built) /\
  computeDimensions 3 (Some 2%nat) example_built = Done (tt, example_dimensioned) /\
  computeCoordinates 3 (Some 2%nat) 0 0 example_dimensioned = Done (tt, example_placed) /\
  mem example_built !! 2%nat = Some (mkNode 0 0 0 0 0 chH (Some 0%nat) (Some 1%nat)) /\
  length (mem example_placed) = length (mem example_built) /\
  exists n3, mem example_placed !! 2%nat = Some n3 /\
             kept (mkNode 0 0 0 0 0 chH (Some 0%nat) (Some 1%nat)) n3 /\
             (~ reach (mem example_built) (Some 2%nat) 2%nat ->
              n3 = mkNode 0 0 0 0 0 chH (Some 0%nat) (Some 1%nat)).
Proof.
  split; [vm_compute; reflexivity|]. split; [vm_compute; reflexivity|].
  split; [vm_compute; reflexivity|]. split; [reflexivity|].
  apply (X8_passes_keep_the_tree (start example_input) (Some 2%nat) example_built
           3 example_dimensioned 3 0 0 example_placed 2%nat).
  - vm_compute; reflexivity.
  - vm_compute; reflexivity.
  - vm_compute; reflexivity.
  - reflexivity.
Defined.

(** ** Running a pass again *)

Lemma dims_again t t' : dims t = Some t' -> dims t' = Some t'.
Proof.
  revert t'. induction t as [l0 w0 h0 cx0 cy0|o w0 h0 tl IHl tr IHr]; intros t' Hd.
  - injection Hd as <-. reflexivity.
  - simpl in Hd.
    destruct (dims tl) as [tl'|]; [|discriminate].
    destruct (dims tr) as [tr'|]; [|discriminate].
    specialize (IHl _ eq_refl). specialize (IHr _ eq_refl).
    destruct o; destruct (in_int _) eqn:E; try discriminate; injection Hd as <-;
      simpl; rewrite IHl, IHr, E; reflexivity.
Qed.

Lemma rep_at_unique h h' b t :
  rep_at h b t -> rep_at h' b t -> length h' = length h ->
  (forall a, (a < b \/ b + size t <= a)%nat -> h' !! a = h !! a) ->
  h' = h.
Proof.
  intros Hrep Hrep' Hlen Hfr. apply list_eq. intros a.
  destruct (decide (b <= a < b + size t)%nat) as [Hin|Hout]; [|apply Hfr; lia].
  destruct (lookup_lt_is_Some_2 (heap_of b t) (a - b)%nat) as [n Hn];
    [rewrite heap_of_length; lia|].
  pose proof (Hrep _ _ Hn) as H1. pose proof (Hrep' _ _ Hn) as H2.
  replace (b + (a - b))%nat with a in H1, H2 by lia. congruence.
Qed.

(** ** The coordinate pass cannot overflow *)

Lemma in_int_spec v : in_int v = true <-> INT_MIN <= v <= INT_MAX.
Proof. unfold in_int. rewrite andb_true_iff, !Z.leb_le. tauto. Qed.

Lemma in_int_max a b : in_int a = true -> in_int b = true -> in_int (int_max a b) = true.
Proof. unfold int_max. destruct (a >? b); auto. Qed.

Lemma dims_in_int t t' :
  ints (erase t) -> dims t = Some t' ->
  in_int (twidth t') = true /\ in_int (theight t') = true.
Proof.
  revert t'. induction t as [l0 w0 h0 cx0 cy0|o w0 h0 tl IHl tr IHr]; intros t' Hi Hd.
  - injection Hd as <-. simpl in *. tauto.
  - simpl in Hd, Hi. destruct Hi as [Hil Hir].
    destruct (dims tl) as [tl'|]; [|discriminate].
    destruct (dims tr) as [tr'|]; [|discriminate].
    destruct (IHl _ Hil eq_refl) as [Wl Hl]. destruct (IHr _ Hir eq_refl) as [Wr Hr].
    destruct o; destruct (in_int _) eqn:E; try discriminate; injection Hd as <-;
      simpl; split; auto using in_int_max.
Qed.

Lemma coords_total t :
  dimensioned t -> leaves_nonneg t ->
  forall cx cy,
    0 <= cx -> 0 <= cy ->
    cx + twidth t <= INT_MAX -> cy + theight t <= INT_MAX ->
    exists t', coords cx cy t = Some t'.
Proof.
  induction t as [l0 w0 h0 cx0 cy0|o w0 h0 tl IHl tr IHr];
    intros Hdim Hnn cx cy Hx Hy Hw Hh.
  - simpl. eauto.
  - simpl in Hdim, Hnn, Hw, Hh. destruct Hnn as [Nl Nr].
    assert (Hmin : INT_MIN <= 0) by (unfold INT_MIN; lia).
    destruct o; destruct Hdim as (-> & -> & Dl & Dr);
      pose proof (dimensioned_nonneg _ Dl Nl);
      pose proof (dimensioned_nonneg _ Dr Nr); cbn [coords].
    + replace (in_int (cy + theight tr)) with true
        by (symmetry; apply in_int_spec; lia).
      destruct (IHl Dl Nl cx (cy + theight tr)) as [tl' ->]; try lia.
      destruct (IHr Dr Nr cx cy) as [tr' ->]; try lia. eauto.
    + replace (in_int (cx + twidth tl)) with true
        by (symmetry; apply in_int_spec; lia).
      destruct (IHl Dl Nl cx cy) as [tl' ->]; try lia.
      destruct (IHr Dr Nr (cx + twidth tl) cy) as [tr' ->]; try lia. eauto.
Qed.

(** X10.  On a tree built from valid tokens, once the dimension pass has
    completed, the coordinate pass from the origin [(0, 0)] completes: its
    sums stay within the rectangle of the root and cannot leave [int]. *)
Theorem X10_computeCoordinates_completes ks w0 root w1 fuel w2 fuel' :
  Forall valid_token ks -> input w0 = render ks ->
  buildTree w0 = Done (root, w1) ->
  computeDimensions fuel root w1 = Done (tt, w2) ->
  (length (mem w2) <= fuel')%nat ->
  exists w3, computeCoordinates fuel' root 0 0 w2 = Done (tt, w3).
Proof.
  intros Hvalid Hin Hbuild Hdim Hfuel.
  apply buildTree_returns in Hbuild
    as (s & b & new & -> & Hrep & Hlen & _ & _ & _ & Hint & Hnn).
  rewrite Hin in Hnn. specialize (Hnn (render_no_minus _ Hvalid)).
  destruct (computeDimensions_Done _ _ _ _ _ Hrep Hdim)
    as (t' & Hd & Hrep' & Hlen' & _).
  pose proof (dims_size _ _ Hd) as S1.
  rewrite <- (root_of_size b _ t' S1).
  pose proof (computeCoordinates_rep t' fuel' b 0 0 w2 Hrep' ltac:(lia)) as H.
  rewrite <- (erase_initial s) in Hint.
  destruct (dims_in_int _ _ Hint Hd) as [Hw Hh].
  apply in_int_spec in Hw. apply in_int_spec in Hh.
  destruct (coords_total t' (dims_dimensioned _ _ Hd) (dims_leaves_nonneg _ _ Hd Hnn)
                         0 0 ltac:(lia) ltac:(lia) ltac:(lia) ltac:(lia)) as [t'' Hc].
  rewrite Hc in H. destruct H as (h' & Run & _). eauto.
Qed.

Lemma X10_computeCoordinates_completes_witness :
  Forall valid_token [TLeaf 1 2 3; TLeaf 2 4 5; TOp Horizontal] /\
  input (start example_input) = render [TLeaf 1 2 3; TLeaf 2 4 5; TOp Horizontal] /\
  buildTree (start example_input) = Done (Some 2%nat, example_built) /\
  computeDimensions 3 (Some 2%nat) example_built = Done (tt, example_dimensioned) /\
  (length (mem example_dimensioned) <= 3)%nat /\
  exists w3, computeCoordinates 3 (Some 2%nat) 0 0 example_dimensioned = Done (tt, w3).
Proof.
  split; [exact example_valid|]. split; [reflexivity|].
  split; [vm_compute; reflexivity|]. split; [vm_compute; reflexivity|].
  split; [vm_compute; lia|].
  apply (X10_computeCoordinates_completes
           [TLeaf 1 2 3; TLeaf 2 4 5; TOp Horizontal] (start example_input)
           (Some 2%nat) example_built 3 example_dimensioned 3).
  - exact example_valid.
  - reflexivity.
  - vm_compute; reflexivity.
  - vm_compute; reflexivity.
  - vm_compute; lia.
Defined.

(** ** The enclosing rectangle against the blocks *)

Lemma shape_at_rep t : forall fuel h b,
  rep_at h b t -> (size t <= fuel)%nat ->
  shape_at fuel h (Some (root_of b t)) = Some (erase t).
Proof.
  induction t as [l0 w0 h0 cx0 cy0|o w0 h0 tl IHl tr IHr]; intros fuel h b Hrep Hfuel;
    (destruct fuel as [|fuel]; [simpl in Hfuel; lia|]);
    pose proof (rep_at_root _ _ _ Hrep) as Hroot; cbn [shape_at erase].
  - rewrite Hroot. reflexivity.
  - rewrite Hroot. cbn [root_node type left right].
    rewrite cut_char_not_NUL. simpl in Hfuel.
    rewrite (IHl fuel h b) by (try lia; eapply rep_at_left; eauto).
    rewrite (IHr fuel h _) by (try lia; eapply rep_at_right; eauto).
    destruct o; reflexivity.
Qed.

Lemma dimensioned_area t :
  dimensioned t -> leaves_nonneg t -> area (erase t) <= twidth t * theight t.
Proof.
  induction t as [l0 w0 h0 cx0 cy0|o w0 h0 tl IHl tr IHr]; simpl.
  - lia.
  - destruct o; intros (-> & -> & Dl & Dr) (Nl & Nr);
      specialize (IHl Dl Nl); specialize (IHr Dr Nr);
      pose proof (dimensioned_nonneg _ Dl Nl);
      pose proof (dimensioned_nonneg _ Dr Nr); nia.
Qed.

(** ** [freeTree] on a tree *)

Lemma live_load_at {A} w freed a n (f : Node -> A) :
  ~ elem_of a freed -> mem w !! a = Some n -> live_load w freed (Some a) f = Done (f n).
Proof.
  intros Hn Ha. unfold live_load. destruct (decide (elem_of a freed)); [contradiction|].
  rewrite Ha. reflexivity.
Qed.

Lemma free_at w freed a n :
  ~ elem_of a freed -> mem w !! a = Some n -> free w freed a = Done (freed ++ [a]).
Proof.
  intros Hn Ha. unfold free. destruct (decide (elem_of a freed)); [contradiction|].
  rewrite Ha. reflexivity.
Qed.

Lemma elem_of_seq_range (b k a : nat) : elem_of a (seq b k) <-> (b <= a < b + k)%nat.
Proof. rewrite list_elem_of_In, in_seq. reflexivity. Qed.

(** The structs of a tree are freed one by one in the order of their
    addresses, which is post-order: the children before their parent. *)
Lemma freeTree_rep t :
  forall fuel b w freed,
    rep_at (mem w) b t -> (size t < fuel)%nat ->
    (forall a, elem_of a freed -> (a < b \/ b + size t <= a)%nat) ->
    freeTree fuel (Some (root_of b t)) w freed = Done (freed ++ seq b (size t)).
Proof.
  induction t as [l0 w0 h0 cx0 cy0|o w0 h0 tl IHl tr IHr];
    intros fuel b w freed Hrep Hfuel Hfreed;
    (destruct fuel as [|fuel]; [simpl in Hfuel; lia|]);
    pose proof (rep_at_root _ _ _ Hrep) as Hroot; cbn [freeTree].
  - simpl in Hroot, Hfreed.
    assert (Hb : ~ elem_of b freed) by (intros Hb; apply Hfreed in Hb; lia).
    destruct fuel as [|fuel]; [simpl in Hfuel; lia|].
    cbn [root_of]. rewrite (live_load_at _ _ _ _ _ Hb Hroot). cbn [rbind freeTree root_node left].
    rewrite (live_load_at _ _ _ _ _ Hb Hroot). cbn [rbind freeTree root_node right].
    apply (free_at _ _ _ _ Hb Hroot).
  - simpl in Hfuel, Hfreed.
    set (a := root_of b (Cut o w0 h0 tl tr)) in *.
    assert (Ha : a = (b + size tl + size tr)%nat) by reflexivity.
    assert (H0 : ~ elem_of a freed) by (intros H0; apply Hfreed in H0; lia).
    rewrite (live_load_at _ _ _ _ _ H0 Hroot). cbn [rbind root_node left].
    rewrite (IHl fuel b w freed (rep_at_left _ _ _ _ _ _ _ Hrep) ltac:(lia))
      by (intros c Hc; apply Hfreed in Hc; lia).
    cbn [rbind].
    assert (H1 : ~ elem_of a (freed ++ seq b (size tl))).
    { rewrite elem_of_app, elem_of_seq_range. intros [H|H]; [contradiction | lia]. }
    rewrite (live_load_at _ _ _ _ _ H1 Hroot). cbn [rbind root_node right].
    rewrite (IHr fuel _ w _ (rep_at_right _ _ _ _ _ _ _ Hrep) ltac:(lia)).
    2:{ intros c Hc. apply elem_of_app in Hc as [Hc|Hc].
        - apply Hfreed in Hc. lia.
        - apply elem_of_seq_range in Hc. lia. }
    cbn [rbind].
    assert (H2 : ~ elem_of a ((freed ++ seq b (size tl)) ++ seq (b + size tl) (size tr))).
    { rewrite !elem_of_app, !elem_of_seq_range. intros [[H|H]|H]; [contradiction | lia | lia]. }
    rewrite (free_at _ _ _ _ H2 Hroot).
    cbn [size].
    rewrite (seq_app (size tl + size tr) 1 b), (seq_app (size tl) (size tr) b).
    cbn [seq]. rewrite Ha, Nat.add_assoc, <- !app_assoc. reflexivity.
Qed.

Lemma rep_at_bound h b t : rep_at h b t -> (b + size t <= length h)%nat.
Proof.
  intros Hrep. pose proof (rep_at_root _ _ _ Hrep) as H.
  apply lookup_lt_Some in H. pose proof (root_of_last b t). lia.
Qed.

(** X12.  At the end of [main], [freeTree] frees every struct of the tree
    exactly once and nothing else: the addresses it frees are those
    reachable from the root, each once, every child before its parent, and
    it never reads a struct it has already freed. *)
Theorem X12_freeTree_frees_the_tree_once w0 root w1 fuel w2 fuel' cx cy w3 fuel'' :
  buildTree w0 = Done (root, w1) ->
  computeDimensions fuel root w1 = Done (tt, w2) ->
  computeCoordinates fuel' root cx cy w2 = Done (tt, w3) ->
  (length (mem w3) < fuel'')%nat ->
  exists b k,
    freeTree fuel'' root w3 [] = Done (seq b k) /\
    forall a, reach (mem w3) root a <-> (b <= a < b + k)%nat.
Proof.
  intros Hbuild Hdim Hco Hfuel.
  destruct (pipeline_trees _ _ _ _ _ _ _ _ _ Hbuild Hdim Hco)
    as (t & t' & t'' & b & -> & _ & _ & Hrep & _).
  pose proof (rep_at_bound _ _ _ Hrep) as Hb.
  exists b, (size t''). split.
  - rewrite (freeTree_rep t'' fuel'' b w3 [] Hrep ltac:(lia)); [reflexivity|].
    intros a Ha. inversion Ha.
  - intros a. apply reach_range. exact Hrep.
Qed.

Lemma X12_freeTree_frees_the_tree_once_witness :
  buildTree (start example_input) = Done (Some 2%nat, example_built) /\
  computeDimensions 3 (Some 2%nat) example_built = Done (tt, example_dimensioned) /\
  computeCoordinates 3 (Some 2%nat) 0 0 example_dimensioned = Done (tt, example_placed) /\
  (length (mem example_placed) < 4)%nat /\
  exists b k,
    freeTree 4 (Some 2%nat) example_placed [] = Done (seq b k) /\
    forall a, reach (mem example_placed) (Some 2%nat) a <-> (b <= a < b + k)%nat.
Proof.
  split; [vm_compute; reflexivity|]. split; [vm_compute; reflexivity|].
  split; [vm_compute; reflexivity|]. split; [vm_compute; lia|].
  apply (X12_freeTree_frees_the_tree_once (start example_input) (Some 2%nat)
           example_built 3 example_dimensioned 3 0 0 example_placed 4).
  - vm_compute; reflexivity.
  - vm_compute; reflexivity.
  - vm_compute; reflexivity.
  - vm_compute; lia.
Defined.

Lemma forest_size_pos ts : ts <> [] -> (1 <= forest_size ts)%nat.
Proof.
  destruct ts as [|t ts]; [congruence|]. intros _. simpl.
  pose proof (size_pos t). lia.
Qed.

(** ** Moving the origin *)

Lemma shift_size dx dy t : size (shift dx dy t) = size t.
Proof. induction t as [|o w h tl IHl tr IHr]; simpl; [reflexivity | lia]. Qed.

Lemma coords_shift t : forall cx cy dx dy t1 t2,
  coords cx cy t = Some t1 -> coords (cx + dx) (cy + dy) t = Some t2 ->
  t2 = shift dx dy t1.
Proof.
  induction t as [l0 w0 h0 cx0 cy0|o w0 h0 tl IHl tr IHr];
    intros cx cy dx dy t1 t2 H1 H2.
  - injection H1 as <-. injection H2 as <-. reflexivity.
  - simpl in H1, H2. destruct o.
    + destruct (in_int (cy + theight tr)); [|discriminate].
      destruct (in_int (cy + dy + theight tr)); [|discriminate].
      destruct (coords cx (cy + theight tr) tl) as [tl1|] eqn:El1; [|discriminate].
      destruct (coords cx cy tr) as [tr1|] eqn:Er1; [|discriminate].
      replace (cy + dy + theight tr) with (cy + theight tr + dy) in H2 by lia.
      destruct (coords (cx + dx) (cy + theight tr + dy) tl) as [tl2|] eqn:El2;
        [|discriminate].
      destruct (coords (cx + dx) (cy + dy) tr) as [tr2|] eqn:Er2; [|discriminate].
      injection H1 as <-. injection H2 as <-. simpl.
      rewrite (IHl _ _ _ _ _ _ El1 El2), (IHr _ _ _ _ _ _ Er1 Er2). reflexivity.
    + destruct (in_int (cx + twidth tl)); [|discriminate].
      destruct (in_int (cx + dx + twidth tl)); [|discriminate].
      destruct (coords cx cy tl) as [tl1|] eqn:El1; [|discriminate].
      destruct (coords (cx + twidth tl) cy tr) as [tr1|] eqn:Er1; [|discriminate].
      replace (cx + dx + twidth tl) with (cx + twidth tl + dx) in H2 by lia.
      destruct (coords (cx + dx) (cy + dy) tl) as [tl2|] eqn:El2; [|discriminate].
      destruct (coords (cx + twidth tl + dx) (cy + dy) tr) as [tr2|] eqn:Er2;
        [|discriminate].
      injection H1 as <-. injection H2 as <-. simpl.
      rewrite (IHl _ _ _ _ _ _ El1 El2), (IHr _ _ _ _ _ _ Er1 Er2). reflexivity.
Qed.

Lemma moved_cut dx dy b o w h tl tr :
  moved dx dy (root_node b (Cut o w h tl tr)) = root_node b (Cut o w h tl tr).
Proof. unfold moved. cbn [root_node type]. rewrite cut_char_not_NUL. reflexivity. Qed.

Lemma heap_of_shift dx dy t : forall b,
  heap_of b (shift dx dy t) = map (moved dx dy) (heap_of b t).
Proof.
  induction t as [l0 w0 h0 cx0 cy0|o w0 h0 tl IHl tr IHr]; intros b.
  - reflexivity.
  - cbn [shift heap_of]. rewrite !map_app, IHl, IHr, !shift_size.
    cbn [map]. rewrite moved_cut.
    rewrite (root_node_size b o w0 h0 tl tr _ _ (shift_size dx dy tl) (shift_size dx dy tr)).
    reflexivity.
Qed.

(** ** A last line without newline *)

Lemma chop_append a b : b <> "" -> chop (a +++ b) = a +++ chop b.
Proof.
  intros Hb. induction a as [|c a IH]; [reflexivity|].
  cbn [String.append chop]. rewrite IH.
  destruct (a +++ b) eqn:E; [|reflexivity].
  destruct a; simpl in E; [congruence | discriminate].
Qed.

Lemma append_nonempty a b : b <> "" -> a +++ b <> "".
Proof. destruct a; simpl; [auto | discriminate]. Qed.

Lemma chop_line body : chop (body +++ eol) = body.
Proof.
  induction body as [|c body IH]; [reflexivity|].
  cbn [String.append chop]. rewrite IH.
  destruct (body +++ eol) eqn:E; [|reflexivity].
  destruct body; discriminate.
Qed.

Lemma fgets_chars_eof body : forall n,
  no_lf body = true -> (String.length body <= n)%nat ->
  fgets_chars n body = (body, "").
Proof.
  induction body as [|c body IH]; intros n Hb Hn.
  - destruct n; reflexivity.
  - destruct n as [|n]; [simpl in Hn; lia|]. simpl in *.
    apply andb_true_iff in Hb as [Hc Hb].
    destruct (Ascii.eqb c LF); [discriminate|].
    rewrite IH by (assumption || lia). reflexivity.
Qed.

Lemma leaf_body_head l w h :
  exists c s, leaf_body l w h = String c s /\ is_cut_char c = false.
Proof.
  destruct (fmt_d_head l) as (c & s & E & Hc). unfold leaf_body. rewrite E.
  simpl. eauto.
Qed.

(** The last line is a leaf descriptor that ends with the file. *)
Lemma buildTree_loop_last_leaf fuel stack m o l w h :
  leaf_fits l w h ->
  buildTree_loop (S (S fuel)) stack (mkWorld m (leaf_body l w h) o) =
  if (length stack <? STACK_SIZE)%nat then
    Done (Some (length m) :: stack,
          mkWorld (m ++ [mkNode l w h 0 0 NUL None None]) "" o)
  else Undef OutOfBounds.
Proof.
  intros (Hl & Hw & Hh & Hlen).
  destruct (leaf_body_head l w h) as (c & s & E & Hc).
  cbn [buildTree_loop]. unfold bind at 1. unfold fgets. cbn [input].
  rewrite fgets_chars_eof; [|apply leaf_body_no_lf|].
  2:{ rewrite fmt_leaf_body, string_length_append in Hlen. simpl in Hlen |- *. lia. }
  rewrite E. unfold set_input. cbn [mem output].
  pose proof (sscanf_fields l w h ")" Hl Hw Hh eq_refl) as Hs.
  change (fmt_d l +++ "(" +++ fmt_d w +++ "," +++ fmt_d h +++ ")")
    with (leaf_body l w h) in Hs.
  rewrite E in Hs. unfold bind at 1.
  rewrite (buildTree_line_leaf _ _ _ _ _ _ _ Hc Hs). cbn [mem].
  destruct (length stack <? STACK_SIZE)%nat; reflexivity.
Qed.

(** The last line is an operator that ends with the file. *)
Lemma buildTree_loop_last_cut fuel stack m out o :
  buildTree_loop (S (S fuel)) stack (mkWorld m (String (cut_char o) "") out) =
  match stack with
  | r :: l :: st =>
    if (length st <? STACK_SIZE)%nat then
      Done (Some (length m) :: st,
            mkWorld (m ++ [mkNode 0 0 0 0 0 (cut_char o) l r]) "" out)
    else Undef OutOfBounds
  | _ => Undef OutOfBounds
  end.
Proof.
  cbn [buildTree_loop]. unfold bind at 1. unfold fgets. cbn [input].
  replace (fgets_chars (LINE_SIZE - 1) (String (cut_char o) ""))
    with (String (cut_char o) "", "") by (destruct o; reflexivity).
  unfold set_input. cbn [mem output]. unfold bind at 1.
  rewrite buildTree_line_cut by (destruct o; reflexivity). cbn [mem].
  destruct stack as [|r [|l st]]; try reflexivity.
  destruct (length st <? STACK_SIZE)%nat; reflexivity.
Qed.

(** X15.  The newline at the end of the last line may be missing: on the
    tokens of a tree that the builder can read and hold, [buildTree]
    returns the same root and builds the same structs whether or not the
    file ends with a newline. *)
Theorem X15_last_newline_is_optional s w0 :
  fits s -> (need s <= STACK_SIZE)%nat ->
  input w0 = chop (render (postorder s)) ->
  buildTree w0 = buildTree (set_input (render (postorder s)) w0).
Proof.
  intros Hfits Hneed Hin.
  rewrite (buildTree_shape s (set_input (render (postorder s)) w0) Hfits eq_refl).
  destruct (Nat.leb_spec (need s) STACK_SIZE); [|lia].
  destruct w0 as [m inp out]. simpl in Hin. subst inp. cbn [set_input mem output input].
  unfold buildTree. cbn [input].
  destruct s as [l w h|o sl sr].
  - cbn [postorder render render_token].
    rewrite append_nil_r, fmt_leaf_body, chop_line.
    destruct (leaf_body_head l w h) as (c & r & E & _).
    assert (Hlen : (1 <= String.length (leaf_body l w h))%nat)
      by (rewrite E; simpl; lia).
    destruct (String.length (leaf_body l w h)) as [|k] eqn:Ek; [lia|].
    unfold bind. rewrite (buildTree_loop_last_leaf k [] m out l w h Hfits).
    reflexivity.
  - destruct Hfits as [Fl Fr]. cbn [postorder need] in *.
    rewrite !render_app. cbn [render render_token].
    rewrite append_nil_r.
    rewrite (chop_append (render (postorder sl)))
      by (apply append_nonempty; destruct o; discriminate).
    rewrite (chop_append (render (postorder sr))) by (destruct o; discriminate).
    replace (chop (fmt_cut (cut_char o))) with (String (cut_char o) "")
      by (destruct o; reflexivity).
    pose proof (render_length (postorder sl)) as Ll.
    pose proof (render_length (postorder sr)) as Lr.
    pose proof (need_pos sl). pose proof (need_pos sr).
    rewrite !string_length_append. cbn [String.length].
    replace (S (String.length (render (postorder sl)) +
                (String.length (render (postorder sr)) + 1)))
      with (length (postorder sl) +
            (length (postorder sr) +
             S (S (String.length (render (postorder sl)) - length (postorder sl) +
                   (String.length (render (postorder sr)) - length (postorder sr))))))%nat
      by lia.
    unfold bind.
    rewrite (buildTree_loop_shape sl Fl).
    match goal with
    | |- context [(?a <=? ?b)%nat] =>
      destruct (Nat.leb_spec a b); [|simpl in *; lia]
    end.
    rewrite (buildTree_loop_shape sr Fr).
    match goal with
    | |- context [(?a <=? ?b)%nat] =>
      destruct (Nat.leb_spec a b); [|simpl in *; lia]
    end.
    rewrite buildTree_loop_last_cut. cbn [length Nat.ltb Nat.leb STACK_SIZE].
    rewrite !length_app, !heap_of_length.
    cbn [initial heap_of root_of root_node]. rewrite <- !app_assoc.
    reflexivity.
Qed.

Lemma X15_last_newline_is_optional_witness :
  fits (SCut Horizontal (SLeaf 1 2 3) (SLeaf 2 4 5)) /\
  (need (SCut Horizontal (SLeaf 1 2 3) (SLeaf 2 4 5)) <= STACK_SIZE)%nat /\
  input (start ("1(2,3)" +++ eol +++ "2(4,5)" +++ eol +++ "H")) =
    chop (render (postorder (SCut Horizontal (SLeaf 1 2 3) (SLeaf 2 4 5)))) /\
  buildTree (start ("1(2,3)" +++ eol +++ "2(4,5)" +++ eol +++ "H")) =
  buildTree (set_input (render (postorder (SCut Horizontal (SLeaf 1 2 3) (SLeaf 2 4 5))))
                       (start ("1(2,3)" +++ eol +++ "2(4,5)" +++ eol +++ "H"))).
Proof.
  assert (Hfits : fits (SCut Horizontal (SLeaf 1 2 3) (SLeaf 2 4 5))).
  { repeat split; try reflexivity; vm_compute; lia. }
  assert (Hneed : (need (SCut Horizontal (SLeaf 1 2 3) (SLeaf 2 4 5)) <= STACK_SIZE)%nat).
  { vm_compute. lia. }
  split; [exact Hfits|]. split; [exact Hneed|]. split; [reflexivity|].
  apply (X15_last_newline_is_optional _ _ Hfits Hneed). reflexivity.
Defined.

(** ** When [main] completes *)

Lemma totals_nonneg t :
  leaves_nonneg t -> 0 <= total_width (erase t) /\ 0 <= total_height (erase t).
Proof.
  induction t as [l0 w0 h0 cx0 cy0|o w0 h0 tl IHl tr IHr]; simpl; [tauto|].
  intros [Nl Nr]. specialize (IHl Nl). specialize (IHr Nr). lia.
Qed.

Lemma dims_total t :
  leaves_nonneg t ->
  total_width (erase t) <= INT_MAX -> total_height (erase t) <= INT_MAX ->
  exists t', dims t = Some t' /\
             0 <= twidth t' <= total_width (erase t) /\
             0 <= theight t' <= total_height (erase t).
Proof.
  induction t as [l0 w0 h0 cx0 cy0|o w0 h0 tl IHl tr IHr]; simpl.
  - intros [Hw Hh] _ _. eexists. split; [reflexivity|]. simpl. lia.
  - intros [Nl Nr] Hw Hh.
    pose proof (totals_nonneg _ Nl). pose proof (totals_nonneg _ Nr).
    destruct (IHl Nl ltac:(lia) ltac:(lia)) as (tl' & -> & Wl & Hl).
    destruct (IHr Nr ltac:(lia) ltac:(lia)) as (tr' & -> & Wr & Hr).
    assert (Hmin : INT_MIN <= 0) by (unfold INT_MIN; lia).
    destruct o.
    + replace (in_int (theight tl' + theight tr')) with true
        by (symmetry; apply in_int_spec; lia).
      eexists. split; [reflexivity|]. simpl. rewrite int_max_max. lia.
    + replace (in_int (twidth tl' + twidth tr')) with true
        by (symmetry; apply in_int_spec; lia).
      eexists. split; [reflexivity|]. simpl. rewrite int_max_max. lia.
Qed.

Lemma valid_leaves_nonneg s :
  Forall valid_token (postorder s) -> leaves_nonneg (initial s).
Proof.
  induction s as [l w h|o sl IHl sr IHr]; simpl.
  - intros H. inversion H as [|? ? Hk _]; subst.
    destruct Hk as (Hl & Hw & Hh). lia.
  - intros H. apply Forall_app in H as [Hl H]. apply Forall_app in H as [Hr _].
    auto.
Qed.

(** X16.  [main] completes and writes its three reports on the tokens of
    every tree that the builder can read and hold, with positive fields,
    whose leaves' widths together and heights together are within [int]:
    then no sum of the dimension pass or of the coordinate pass can
    overflow. *)
Theorem X16_main_completes s :
  fits s -> (need s <= STACK_SIZE)%nat ->
  Forall valid_token (postorder s) ->
  total_width s <= INT_MAX -> total_height s <= INT_MAX ->
  exists o1 o2 o3, run_main (render (postorder s)) = Done [o1; o2; o3].
Proof.
  intros Hfits Hneed Hvalid Hw Hh.
  rewrite run_main_outputs. unfold start.
  rewrite (main_readable s [] "" "" "" Hfits Hneed).
  pose proof (valid_leaves_nonneg s Hvalid) as Hnn.
  rewrite <- (erase_initial s) in Hw, Hh.
  destruct (dims_total _ Hnn Hw Hh) as (t' & Hd & Hw' & Hh').
  rewrite Hd.
  destruct (coords_total t' (dims_dimensioned _ _ Hd) (dims_leaves_nonneg _ _ Hd Hnn)
                         0 0 ltac:(lia) ltac:(lia) ltac:(lia) ltac:(lia)) as [t'' ->].
  eauto.
Qed.

Lemma X16_main_completes_witness :
  fits (SCut Horizontal (SLeaf 1 2 3) (SLeaf 2 4 5)) /\
  (need (SCut Horizontal (SLeaf 1 2 3) (SLeaf 2 4 5)) <= STACK_SIZE)%nat /\
  Forall valid_token (postorder (SCut Horizontal (SLeaf 1 2 3) (SLeaf 2 4 5))) /\
  total_width (SCut Horizontal (SLeaf 1 2 3) (SLeaf 2 4 5)) <= INT_MAX /\
  total_height (SCut Horizontal (SLeaf 1 2 3) (SLeaf 2 4 5)) <= INT_MAX /\
  exists o1 o2 o3,
    run_main (render (postorder (SCut Horizontal (SLeaf 1 2 3) (SLeaf 2 4 5)))) =
    Done [o1; o2; o3].
Proof.
  assert (Hfits : fits (SCut Horizontal (SLeaf 1 2 3) (SLeaf 2 4 5))).
  { repeat split; try reflexivity; vm_compute; lia. }
  assert (Hneed : (need (SCut Horizontal (SLeaf 1 2 3) (SLeaf 2 4 5)) <= STACK_SIZE)%nat).
  { vm_compute. lia. }
  assert (Hw : total_width (SCut Horizontal (SLeaf 1 2 3) (SLeaf 2 4 5)) <= INT_MAX).
  { vm_compute. discriminate. }
  assert (Hh : total_height (SCut Horizontal (SLeaf 1 2 3) (SLeaf 2 4 5)) <= INT_MAX).
  { vm_compute. discriminate. }
  split; [exact Hfits|]. split; [exact Hneed|]. split; [exact example_valid|].
  split; [exact Hw|]. split; [exact Hh|].
  apply (X16_main_completes _ Hfits Hneed example_valid Hw Hh).
Defined.



(* ================================================================= *)
(** * The passes within the limits of [int] *)

(** ** The enclosing rectangle against [int] *)

Lemma fits_ints s : fits s -> ints s.
Proof.
  induction s as [l w h|o sl IHl sr IHr]; simpl.
  - unfold leaf_fits. tauto.
  - tauto.
Qed.

Lemma rect_nonneg s :
  leaves_nonneg (initial s) -> 0 <= rect_width s /\ 0 <= rect_height s.
Proof.
  induction s as [l w h|o sl IHl sr IHr]; simpl; [tauto|].
  intros [Nl Nr]. specialize (IHl Nl). specialize (IHr Nr). destruct o; lia.
Qed.

(** On a tree without negative dimensions the dimension pass meets a sum
    outside [int] exactly when the enclosing rectangle of the whole tree is
    wider or higher than [INT_MAX]; otherwise it computes that rectangle. *)
Lemma dims_rect s :
  ints s -> leaves_nonneg (initial s) ->
  (rect_in_int s ->
   exists t', dims (initial s) = Some t' /\
              twidth t' = rect_width s /\ theight t' = rect_height s) /\
  (~ rect_in_int s -> dims (initial s) = None).
Proof.
  unfold rect_in_int.
  induction s as [l w h|o sl IHl sr IHr]; simpl.
  - intros (_ & Hw & Hh) _. apply in_int_spec in Hw. apply in_int_spec in Hh.
    split; [intros _; eexists; split; [reflexivity | split; reflexivity] | lia].
  - intros [Il Ir] [Nl Nr].
    destruct (IHl Il Nl) as [Okl Kol]. destruct (IHr Ir Nr) as [Okr Kor].
    pose proof (rect_nonneg _ Nl). pose proof (rect_nonneg _ Nr).
    assert (Hmin : INT_MIN <= 0) by (unfold INT_MIN; lia).
    destruct (Z_le_dec (rect_width sl) INT_MAX) as [Wl|Wl];
      [destruct (Z_le_dec (rect_height sl) INT_MAX) as [Hl|Hl]|].
    2,3: (rewrite Kol by lia; split; [destruct o; lia | reflexivity]).
    destruct (Okl (conj Wl Hl)) as (tl' & -> & Ewl & Ehl).
    destruct (Z_le_dec (rect_width sr) INT_MAX) as [Wr|Wr];
      [destruct (Z_le_dec (rect_height sr) INT_MAX) as [Hr|Hr]|].
    2,3: (rewrite Kor by lia; split; [destruct o; lia | reflexivity]).
    destruct (Okr (conj Wr Hr)) as (tr' & -> & Ewr & Ehr).
    rewrite Ewl, Ewr, Ehl, Ehr.
    destruct o.
    + destruct (Z_le_dec (rect_height sl + rect_height sr) INT_MAX) as [Hs|Hs].
      * replace (in_int (rect_height sl + rect_height sr)) with true
          by (symmetry; apply in_int_spec; lia).
        split; [|lia]. intros _. eexists. split; [reflexivity|].
        simpl. rewrite int_max_max. lia.
      * replace (in_int (rect_height sl + rect_height sr)) with false
          by (symmetry; apply not_true_is_false; rewrite in_int_spec; lia).
        split; [lia | reflexivity].
    + destruct (Z_le_dec (rect_width sl + rect_width sr) INT_MAX) as [Ws|Ws].
      * replace (in_int (rect_width sl + rect_width sr)) with true
          by (symmetry; apply in_int_spec; lia).
        split; [|lia]. intros _. eexists. split; [reflexivity|].
        simpl. rewrite int_max_max. lia.
      * replace (in_int (rect_width sl + rect_width sr)) with false
          by (symmetry; apply not_true_is_false; rewrite in_int_spec; lia).
        split; [lia | reflexivity].
Qed.

(** ** The passes complete, or a sum leaves [int] *)

(** With fuel for every struct of the tree the dimension pass has one
    outcome, whatever the fuel. *)
Lemma computeDimensions_total t b w :
  rep_at (mem w) b t ->
  match dims t with
  | Some t' =>
    exists w',
      rep_at (mem w') b t' /\ length (mem w') = length (mem w) /\
      (forall a, (a < b \/ b + size t <= a)%nat -> mem w' !! a = mem w !! a) /\
      forall fuel, (size t <= fuel)%nat ->
        computeDimensions fuel (Some (root_of b t)) w = Done (tt, w')
  | None =>
    forall fuel, (size t <= fuel)%nat ->
      computeDimensions fuel (Some (root_of b t)) w = Undef IntOverflow
  end.
Proof.
  intros Hrep.
  pose proof (computeDimensions_rep t (size t) b w Hrep (le_n _)) as H.
  destruct (dims t) as [t'|] eqn:Hd.
  - destruct H as (h' & Run & Hrep' & Hlen & Hfr).
    exists (set_mem h' w). split; [exact Hrep'|]. split; [exact Hlen|].
    split; [exact Hfr|].
    intros fuel Hf. exact (computeDimensions_fuel (size t) fuel _ Hf _ _ Run).
  - intros fuel Hf.
    pose proof (computeDimensions_rep t fuel b w Hrep Hf) as H'.
    rewrite Hd in H'. exact H'.
Qed.

Lemma computeCoordinates_total t b cx cy w :
  rep_at (mem w) b t ->
  match coords cx cy t with
  | Some t' =>
    exists w',
      rep_at (mem w') b t' /\ length (mem w') = length (mem w) /\
      (forall a, (a < b \/ b + size t <= a)%nat -> mem w' !! a = mem w !! a) /\
      forall fuel, (size t <= fuel)%nat ->
        computeCoordinates fuel (Some (root_of b t)) cx cy w = Done (tt, w')
  | None =>
    forall fuel, (size t <= fuel)%nat ->
      computeCoordinates fuel (Some (root_of b t)) cx cy w = Undef IntOverflow
  end.
Proof.
  intros Hrep.
  pose proof (computeCoordinates_rep t (size t) b cx cy w Hrep (le_n _)) as H.
  destruct (coords cx cy t) as [t'|] eqn:Hc.
  - destruct H as (h' & Run & Hrep' & Hlen & Hfr).
    exists (set_mem h' w). split; [exact Hrep'|]. split; [exact Hlen|].
    split; [exact Hfr|].
    intros fuel Hf. exact (computeCoordinates_fuel (size t) fuel _ _ _ Hf _ _ Run).
  - intros fuel Hf.
    pose proof (computeCoordinates_rep t fuel b cx cy w Hrep Hf) as H'.
    rewrite Hc in H'. exact H'.
Qed.

(** After the dimension pass every struct of the tree obeys the rule of its
    kind, and the leaves are the structs that were there before. *)
Lemma dims_dimension_rule t t' b h h' :
  dims t = Some t' -> rep_at h b t -> rep_at h' b t' ->
  forall a n,
    reach h' (Some (root_of b t)) a -> h' !! a = Some n ->
    dimension_rule h' n /\ (type n = NUL -> h !! a = Some n).
Proof.
  intros Hd Hrep Hrep' a n Hreach Hn.
  rewrite <- (root_of_size b t t' (dims_size _ _ Hd)) in Hreach.
  destruct (reach_sub _ _ _ Hreach _ _ Hrep' eq_refl) as (s' & bs & Hsub & ->).
  pose proof (rep_at_sub _ _ _ _ _ Hsub Hrep') as Hreps.
  rewrite (rep_at_root _ _ _ Hreps) in Hn. injection Hn as <-.
  destruct (dims_sub _ _ _ _ _ Hd Hsub) as (s & Hsub0 & Hds).
  destruct s' as [l0 w0' h0 cx cy|o w' ht' tl' tr'].
  - split; [split; discriminate|]. intros _.
    apply dims_leaf_inv in Hds as ->.
    apply (rep_at_root _ _ _ (rep_at_sub _ _ _ _ _ Hsub0 Hrep)).
  - destruct (rep_at_children _ _ _ _ _ _ _ Hreps) as [Hl Hr].
    apply dims_cut_inv in Hds.
    split; [|destruct o; discriminate].
    split; intros Ht; destruct o; try discriminate Ht;
      exists (root_node bs tl'), (root_node (bs + size tl') tr');
      rewrite !width_root_node, !height_root_node;
      (split; [exact Hl | split; [exact Hr | exact Hds]]).
Qed.

(** [buildTree] and the two passes on the tokens of a tree that the
    builder can read and hold and that has no negative dimension. *)
Lemma passes_on_shape s w0 :
  fits s -> (need s <= STACK_SIZE)%nat ->
  Forall valid_token (postorder s) ->
  input w0 = render (postorder s) ->
  exists b w1,
    buildTree w0 = Done (Some (root_of b (initial s)), w1) /\
    rep_at (mem w1) b (initial s) /\
    (size (initial s) <= length (mem w1))%nat /\
    output w1 = output w0 /\
    (rect_in_int s ->
     exists t' t'' w2 w3,
       dims (initial s) = Some t' /\ coords 0 0 t' = Some t'' /\
       twidth t' = rect_width s /\ theight t' = rect_height s /\
       rep_at (mem w2) b t' /\ rep_at (mem w3) b t'' /\
       forall fuel, (length (mem w1) <= fuel)%nat ->
         computeDimensions fuel (Some (root_of b (initial s))) w1 = Done (tt, w2) /\
         computeCoordinates fuel (Some (root_of b (initial s))) 0 0 w2 = Done (tt, w3)) /\
    (~ rect_in_int s ->
     forall fuel, (length (mem w1) <= fuel)%nat ->
       computeDimensions fuel (Some (root_of b (initial s))) w1 = Undef IntOverflow).
Proof.
  intros Hfits Hneed Hvalid Hin.
  pose proof (buildTree_shape s w0 Hfits Hin) as Hb.
  destruct (Nat.leb_spec (need s) STACK_SIZE); [|lia].
  eexists _, _. split; [exact Hb|]. cbn [mem output].
  assert (Hrep : rep_at (mem w0 ++ heap_of (length (mem w0)) (initial s))
                        (length (mem w0)) (initial s)).
  { rewrite <- (app_nil_r (heap_of _ _)). apply rep_at_app. }
  split; [exact Hrep|].
  split; [rewrite length_app, heap_of_length; lia|].
  split; [reflexivity|].
  pose proof (valid_leaves_nonneg s Hvalid) as Hnn.
  destruct (dims_rect s (fits_ints s Hfits) Hnn) as [Hok Hko].
  set (w1 := mkWorld (mem w0 ++ heap_of (length (mem w0)) (initial s)) ""
                     (output w0)) in *.
  assert (Hsz : (size (initial s) <= length (mem w1))%nat).
  { unfold w1. cbn [mem]. rewrite length_app, heap_of_length. lia. }
  pose proof (computeDimensions_total (initial s) (length (mem w0)) w1 Hrep) as Hd.
  split.
  - intros Hrect. destruct (Hok Hrect) as (t' & Dt & Ew & Eh).
    rewrite Dt in Hd. destruct Hd as (w2 & Hrep2 & Hlen2 & _ & Run2).
    pose proof (dims_size _ _ Dt) as S1.
    destruct Hrect as [Hw Hh].
    destruct (coords_total t' (dims_dimensioned _ _ Dt) (dims_leaves_nonneg _ _ Dt Hnn)
                           0 0 ltac:(lia) ltac:(lia) ltac:(lia) ltac:(lia))
      as [t'' Ct].
    pose proof (computeCoordinates_total t' (length (mem w0)) 0 0 w2 Hrep2) as Hc.
    rewrite Ct in Hc. destruct Hc as (w3 & Hrep3 & Hlen3 & _ & Run3).
    exists t', t'', w2, w3. repeat (split; [assumption|]).
    intros fuel Hf. rewrite length_app, heap_of_length in Hf.
    split; [apply Run2; lia|].
    rewrite <- (root_of_size _ _ _ S1). apply Run3. lia.
  - intros Hrect. rewrite (Hko Hrect) in Hd.
    intros fuel Hf. rewrite length_app, heap_of_length in Hf. apply Hd. lia.
Qed.

(** ** The rules of the two passes *)

(** C1, as the program has it.  On every tree [buildTree] returns, the
    dimension pass run with fuel for every struct has one of two outcomes.
    Either it completes, and then every struct of the tree obeys the rule of
    its kind: a horizontal cut has the larger of its children's widths and
    the sum of their heights, a vertical cut the sum of the widths and the
    larger of the heights, and a leaf is as [buildTree] made it.  Or one of
    these sums is not an [int], which the C standard leaves undefined.  On
    the tree of valid tokens the pass completes exactly when the enclosing
    rectangle of the whole tree is at most [INT_MAX] wide and high. *)
Theorem C1_dimension_pass_rule w0 root w1 fuel :
  buildTree w0 = Done (root, w1) -> (length (mem w1) <= fuel)%nat ->
  ((exists w2,
       computeDimensions fuel root w1 = Done (tt, w2) /\
       forall a n,
         reach (mem w2) root a -> mem w2 !! a = Some n ->
         dimension_rule (mem w2) n /\ (type n = NUL -> mem w1 !! a = Some n)) \/
   computeDimensions fuel root w1 = Undef IntOverflow) /\
  (forall s,
      fits s -> Forall valid_token (postorder s) ->
      input w0 = render (postorder s) ->
      (rect_in_int s ->
       exists w2, computeDimensions fuel root w1 = Done (tt, w2)) /\
      (~ rect_in_int s ->
       computeDimensions fuel root w1 = Undef IntOverflow)).
Proof.
  intros Hbuild Hfuel. split.
  - apply buildTree_returns in Hbuild
      as (s & b & new & -> & Hrep & Hlen & _).
    pose proof (computeDimensions_total (initial s) b w1 Hrep) as Hd.
    destruct (dims (initial s)) as [t'|] eqn:Dt.
    + destruct Hd as (w2 & Hrep2 & _ & _ & Run). left. exists w2.
      split; [apply Run; lia|].
      apply (dims_dimension_rule _ _ _ _ _ Dt Hrep Hrep2).
    + right. apply Hd. lia.
  - intros s Hfits Hvalid Hin.
    assert (Hneed : (need s <= STACK_SIZE)%nat).
    { pose proof (buildTree_shape s w0 Hfits Hin) as Hb.
      destruct (Nat.leb_spec (need s) STACK_SIZE); [assumption|congruence]. }
    destruct (passes_on_shape s w0 Hfits Hneed Hvalid Hin)
      as (b & w1' & Hb & _ & _ & _ & Hok & Hko).
    rewrite Hb in Hbuild. injection Hbuild as <- <-.
    split.
    + intros Hrect. destruct (Hok Hrect) as (t' & t'' & w2 & w3 & _ & _ & _ & _ & _ & _ & Run).
      exists w2. apply Run. exact Hfuel.
    + intros Hrect. apply Hko; assumption.
Qed.

Lemma floorplan_fits : fits floorplan.
Proof. repeat split; try reflexivity; vm_compute; lia. Qed.

Lemma floorplan_need : (need floorplan <= STACK_SIZE)%nat.
Proof. vm_compute. lia. Qed.

Lemma floorplan_valid : Forall valid_token (postorder floorplan).
Proof. repeat constructor. Qed.

Lemma floorplan_rect : rect_in_int floorplan.
Proof. split; vm_compute; discriminate. Qed.

Lemma C1_dimension_pass_rule_witness :
  buildTree (start floorplan_input) = Done (Some 4%nat, floorplan_built) /\
  (length (mem floorplan_built) <= 5)%nat /\
  computeDimensions 5 (Some 4%nat) floorplan_built = Done (tt, floorplan_dimensioned) /\
  mem floorplan_dimensioned !! 4%nat =
    Some (mkNode 0 6 6 0 0 chV (Some 0%nat) (Some 3%nat)) /\
  forall a n,
    reach (mem floorplan_dimensioned) (Some 4%nat) a ->
    mem floorplan_dimensioned !! a = Some n ->
    dimension_rule (mem floorplan_dimensioned) n /\
    (type n = NUL -> mem floorplan_built !! a = Some n).
Proof.
  assert (Hb : buildTree (start floorplan_input) = Done (Some 4%nat, floorplan_built))
    by (vm_compute; reflexivity).
  assert (Hf : (length (mem floorplan_built) <= 5)%nat) by (vm_compute; lia).
  assert (Hd : computeDimensions 5 (Some 4%nat) floorplan_built
               = Done (tt, floorplan_dimensioned)) by (vm_compute; reflexivity).
  split; [exact Hb|]. split; [exact Hf|]. split; [exact Hd|]. split; [reflexivity|].
  destruct (C1_dimension_pass_rule (start floorplan_input) (Some 4%nat)
              floorplan_built 5 Hb Hf) as [[(w2 & Run & Hrule)|Hover] _].
  - rewrite Hd in Run. injection Run as <-. exact Hrule.
  - rewrite Hd in Hover. discriminate.
Defined.

(** C1 as it is stated fails: two blocks of valid tokens side by side whose
    widths together exceed [INT_MAX] make the pass add two [int]s whose sum
    is not an [int]. *)
Lemma C1_counterexample_sum_leaves_int :
  Forall valid_token (postorder too_wide) /\
  rect_width too_wide = 2147483648 /\
  exists root w1,
    buildTree (start (render (postorder too_wide))) = Done (root, w1) /\
    computeDimensions (S (length (mem w1))) root w1 = Undef IntOverflow.
Proof.
  split; [repeat constructor|]. split; [reflexivity|].
  eexists _, _. split; [vm_compute; reflexivity|].
  vm_compute. reflexivity.
Qed.

Lemma sub_dimensioned t b s bs : sub t b s bs -> dimensioned t -> dimensioned s.
Proof.
  induction 1 as [| o w h tl tr b s bs _ IH | o w h tl tr b s bs _ IH]; intros Hd.
  - exact Hd.
  - apply IH. destruct o; simpl in Hd; tauto.
  - apply IH. destruct o; simpl in Hd; tauto.
Qed.

Lemma sub_leaves_nonneg t b s bs : sub t b s bs -> leaves_nonneg t -> leaves_nonneg s.
Proof.
  induction 1 as [| o w h tl tr b s bs _ IH | o w h tl tr b s bs _ IH]; intros Hn.
  - exact Hn.
  - apply IH. simpl in Hn. tauto.
  - apply IH. simpl in Hn. tauto.
Qed.

(** C2, as the program has it.  Once the dimension pass has completed on
    the tree [buildTree] returned, [computeCoordinates] called on any
    struct of that tree with the origin [(cx, cy)] and fuel for every
    struct has one of two outcomes.  Either it completes, and then the
    subtree is placed as the rules say: under a horizontal cut the right
    subtree at [(cx, cy)] and the left one at [(cx, cy + right->height)],
    under a vertical cut the left subtree at [(cx, cy)] and the right one
    at [(cx + left->width, cy)], and a leaf with [(cx, cy)] as its
    coordinates.  Or one of the sums [cx + left->width],
    [cy + right->height] is not an [int], which the C standard leaves
    undefined.  On a tree of valid tokens it completes whenever the origin
    is not negative and the rectangle of the struct, put at the origin,
    ends at or before [INT_MAX] in both directions. *)
Theorem C2_coordinate_pass_rule w0 root w1 fuel w2 a n fuel' cx cy :
  buildTree w0 = Done (root, w1) ->
  computeDimensions fuel root w1 = Done (tt, w2) ->
  reach (mem w2) root a -> mem w2 !! a = Some n ->
  (length (mem w2) <= fuel')%nat ->
  ((exists w3,
       computeCoordinates fuel' (Some a) cx cy w2 = Done (tt, w3) /\
       placed (mem w3) (Some a) cx cy) \/
   computeCoordinates fuel' (Some a) cx cy w2 = Undef IntOverflow) /\
  (forall ks,
      Forall valid_token ks -> input w0 = render ks ->
      0 <= cx -> 0 <= cy ->
      cx + width n <= INT_MAX -> cy + height n <= INT_MAX ->
      exists w3, computeCoordinates fuel' (Some a) cx cy w2 = Done (tt, w3)).
Proof.
  intros Hbuild Hdim Hreach Hn Hfuel.
  apply buildTree_returns in Hbuild
    as (s0 & b & new & -> & Hrep & Hlen & _ & _ & _ & _ & Hnn).
  destruct (computeDimensions_Done _ _ _ _ _ Hrep Hdim)
    as (t' & Hd & Hrep' & Hlen' & _).
  rewrite <- (root_of_size b _ t' (dims_size _ _ Hd)) in Hreach.
  destruct (reach_sub _ _ _ Hreach _ _ Hrep' eq_refl) as (s & bs & Hsub & ->).
  pose proof (rep_at_sub _ _ _ _ _ Hsub Hrep') as Hreps.
  pose proof (sub_range _ _ _ _ Hsub) as Hrange.
  pose proof (dims_size _ _ Hd) as S1.
  assert (Hsz : (size s <= fuel')%nat) by lia.
  rewrite (rep_at_root _ _ _ Hreps) in Hn. injection Hn as <-.
  pose proof (computeCoordinates_total s bs cx cy w2 Hreps) as Hc.
  split.
  - destruct (coords cx cy s) as [s'|] eqn:Cs.
    + destruct Hc as (w3 & Hrep3 & _ & _ & Run). left. exists w3.
      split; [apply Run; exact Hsz|].
      destruct (coords_same _ _ _ _ Cs) as (Hsize & _).
      rewrite <- (root_of_size bs s s' Hsize).
      eapply coords_placed; eauto.
    + right. apply Hc. exact Hsz.
  - intros ks Hvalid Hin Hx Hy Hw Hh.
    rewrite Hin in Hnn. specialize (Hnn (render_no_minus _ Hvalid)).
    rewrite width_root_node in Hw. rewrite height_root_node in Hh.
    destruct (coords_total s
                (sub_dimensioned _ _ _ _ Hsub (dims_dimensioned _ _ Hd))
                (sub_leaves_nonneg _ _ _ _ Hsub (dims_leaves_nonneg _ _ Hd Hnn))
                cx cy Hx Hy Hw Hh) as [s' Cs].
    rewrite Cs in Hc. destruct Hc as (w3 & _ & _ & _ & Run).
    exists w3. apply Run. exact Hsz.
Qed.

Lemma floorplan_reach_3 : reach (mem floorplan_dimensioned) (Some 4%nat) 3%nat.
Proof.
  apply (reach_right _ 4%nat (mkNode 0 6 6 0 0 chV (Some 0%nat) (Some 3%nat)) 3%nat);
    [reflexivity | apply reach_root].
Qed.

Lemma C2_coordinate_pass_rule_witness :
  buildTree (start floorplan_input) = Done (Some 4%nat, floorplan_built) /\
  computeDimensions 5 (Some 4%nat) floorplan_built = Done (tt, floorplan_dimensioned) /\
  reach (mem floorplan_dimensioned) (Some 4%nat) 3%nat /\
  mem floorplan_dimensioned !! 3%nat =
    Some (mkNode 0 4 6 0 0 chH (Some 1%nat) (Some 2%nat)) /\
  (length (mem floorplan_dimensioned) <= 5)%nat /\
  exists w3,
    computeCoordinates 5 (Some 3%nat) 2 0 floorplan_dimensioned = Done (tt, w3) /\
    placed (mem w3) (Some 3%nat) 2 0 /\
    mem w3 !! 1%nat = Some (mkNode 2 4 5 2 1 NUL None None) /\
    mem w3 !! 2%nat = Some (mkNode 3 1 1 2 0 NUL None None).
Proof.
  assert (Hb : buildTree (start floorplan_input) = Done (Some 4%nat, floorplan_built))
    by (vm_compute; reflexivity).
  assert (Hd : computeDimensions 5 (Some 4%nat) floorplan_built
               = Done (tt, floorplan_dimensioned)) by (vm_compute; reflexivity).
  assert (Hn : mem floorplan_dimensioned !! 3%nat =
               Some (mkNode 0 4 6 0 0 chH (Some 1%nat) (Some 2%nat))) by reflexivity.
  assert (Hf : (length (mem floorplan_dimensioned) <= 5)%nat) by (vm_compute; lia).
  split; [exact Hb|]. split; [exact Hd|]. split; [exact floorplan_reach_3|].
  split; [exact Hn|]. split; [exact Hf|].
  destruct (C2_coordinate_pass_rule (start floorplan_input) (Some 4%nat)
              floorplan_built 5 floorplan_dimensioned 3%nat _ 5 2 0
              Hb Hd floorplan_reach_3 Hn Hf) as [[(w3 & Run & Hplaced)|Hover] _].
  - exists w3. split; [exact Run|]. split; [exact Hplaced|].
    assert (E : computeCoordinates 5 (Some 3%nat) 2 0 floorplan_dimensioned =
                Done (tt, state_after
                            (computeCoordinates 5 (Some 3%nat) 2 0 floorplan_dimensioned)))
      by (vm_compute; reflexivity).
    rewrite E in Run. injection Run as <-. split; vm_compute; reflexivity.
  - exfalso. vm_compute in Hover. discriminate.
Defined.

(** C2 as it is stated fails: on the tree of two unit blocks side by side,
    whose dimension pass has completed, the coordinate pass called on the
    root with the origin [(INT_MAX, 0)] adds the width of the left block to
    [INT_MAX]. *)
Lemma C2_counterexample_origin_at_int_max :
  Forall valid_token (postorder two_blocks) /\
  exists root w1 w2,
    buildTree (start (render (postorder two_blocks))) = Done (root, w1) /\
    computeDimensions (S (length (mem w1))) root w1 = Done (tt, w2) /\
    computeCoordinates (S (length (mem w2))) root INT_MAX 0 w2 = Undef IntOverflow.
Proof.
  split; [repeat constructor|].
  eexists _, _, _. split; [vm_compute; reflexivity|].
  split; [vm_compute; reflexivity|].
  vm_compute. reflexivity.
Qed.

(** ** Where the passes put the blocks *)

(** C4, as the program has it.  On the tokens of a tree with positive
    fields that the builder can read and hold, whose enclosing rectangle is
    at most [INT_MAX] wide and high, [buildTree] and both passes from the
    origin [(0, 0)] complete and the rectangles of two different leaves
    share no area.  When the enclosing rectangle is wider or higher than
    [INT_MAX], the dimension pass adds two [int]s whose sum is not an
    [int], which the C standard leaves undefined. *)
Theorem C4_leaves_do_not_overlap s w0 :
  fits s -> (need s <= STACK_SIZE)%nat ->
  Forall valid_token (postorder s) ->
  input w0 = render (postorder s) ->
  exists root w1,
    buildTree w0 = Done (root, w1) /\
    (rect_in_int s ->
     exists w2 w3,
       (forall fuel, (length (mem w1) <= fuel)%nat ->
          computeDimensions fuel root w1 = Done (tt, w2) /\
          computeCoordinates fuel root 0 0 w2 = Done (tt, w3)) /\
       forall a1 a2 n1 n2,
         reach (mem w3) root a1 -> mem w3 !! a1 = Some n1 -> type n1 = NUL ->
         reach (mem w3) root a2 -> mem w3 !! a2 = Some n2 -> type n2 = NUL ->
         a1 <> a2 ->
         overlap n1 n2 = false) /\
    (~ rect_in_int s ->
     forall fuel, (length (mem w1) <= fuel)%nat ->
       computeDimensions fuel root w1 = Undef IntOverflow).
Proof.
  intros Hfits Hneed Hvalid Hin.
  destruct (passes_on_shape s w0 Hfits Hneed Hvalid Hin)
    as (b & w1 & Hb & _ & _ & _ & Hok & Hko).
  exists (Some (root_of b (initial s))), w1.
  split; [exact Hb|]. split; [|exact Hko].
  intros Hrect.
  destruct (Hok Hrect) as (t' & t'' & w2 & w3 & Dt & Ct & _ & _ & _ & Hrep3 & Run).
  exists w2, w3. split; [exact Run|].
  intros a1 a2 n1 n2 R1 N1 T1 R2 N2 T2 Hne.
  pose proof (valid_leaves_nonneg s Hvalid) as Hnn.
  destruct (coords_same _ _ _ _ Ct) as (S2 & _).
  pose proof (dims_size _ _ Dt) as S1.
  rewrite <- (root_of_size b _ _ S1), <- (root_of_size b _ _ S2) in R1, R2.
  destruct (reach_leaf _ _ _ _ _ Hrep3 R1 N1 T1) as (l1 & L1).
  destruct (reach_leaf _ _ _ _ _ Hrep3 R2 N2 T2) as (l2 & L2).
  pose proof (coords_leaves_apart _ _ _ _ _ _ _ _ _ _ _ _ _ _ _ _ _
                (dims_dimensioned _ _ Dt) (dims_leaves_nonneg _ _ Dt Hnn)
                Ct L1 L2 Hne) as H.
  unfold overlap. rewrite !andb_false_iff, !Z.ltb_ge. lia.
Qed.

(** C10, as the program has it.  On the tokens of a tree with positive
    fields that the builder can read and hold, whose enclosing rectangle is
    at most [INT_MAX] wide and high, [buildTree] and both passes from the
    origin [(0, 0)] complete, the root struct holds that enclosing
    rectangle, and the rectangle of every leaf lies inside it.  When the
    enclosing rectangle is wider or higher than [INT_MAX], the dimension
    pass adds two [int]s whose sum is not an [int], which the C standard
    leaves undefined. *)
Theorem C10_leaves_inside_root s w0 :
  fits s -> (need s <= STACK_SIZE)%nat ->
  Forall valid_token (postorder s) ->
  input w0 = render (postorder s) ->
  exists root w1,
    buildTree w0 = Done (root, w1) /\
    (rect_in_int s ->
     exists w2 w3 nroot,
       (forall fuel, (length (mem w1) <= fuel)%nat ->
          computeDimensions fuel root w1 = Done (tt, w2) /\
          computeCoordinates fuel root 0 0 w2 = Done (tt, w3)) /\
       node_at (mem w3) root nroot /\
       width nroot = rect_width s /\ height nroot = rect_height s /\
       forall a n,
         reach (mem w3) root a -> mem w3 !! a = Some n -> type n = NUL ->
         0 <= x n /\ 0 <= y n /\
         x n + width n <= width nroot /\ y n + height n <= height nroot) /\
    (~ rect_in_int s ->
     forall fuel, (length (mem w1) <= fuel)%nat ->
       computeDimensions fuel root w1 = Undef IntOverflow).
Proof.
  intros Hfits Hneed Hvalid Hin.
  destruct (passes_on_shape s w0 Hfits Hneed Hvalid Hin)
    as (b & w1 & Hb & _ & _ & _ & Hok & Hko).
  exists (Some (root_of b (initial s))), w1.
  split; [exact Hb|]. split; [|exact Hko].
  intros Hrect.
  destruct (Hok Hrect)
    as (t' & t'' & w2 & w3 & Dt & Ct & Ew & Eh & _ & Hrep3 & Run).
  pose proof (valid_leaves_nonneg s Hvalid) as Hnn.
  destruct (coords_same _ _ _ _ Ct) as (S2 & Hw & Hh).
  pose proof (dims_size _ _ Dt) as S1.
  exists w2, w3, (root_node b t''). split; [exact Run|].
  split.
  { exists (root_of b t''). split; [|apply (rep_at_root _ _ _ Hrep3)].
    rewrite (root_of_size b _ _ S2), (root_of_size b _ _ S1). reflexivity. }
  rewrite width_root_node, height_root_node, Hw, Hh.
  split; [exact Ew|]. split; [exact Eh|].
  intros a n R N T.
  rewrite <- (root_of_size b _ _ S1), <- (root_of_size b _ _ S2) in R.
  destruct (reach_leaf _ _ _ _ _ Hrep3 R N T) as (l & L).
  pose proof (coords_leaf_inside _ _ _ _ _ _ _ _ _ _ _
                (dims_dimensioned _ _ Dt) (dims_leaves_nonneg _ _ Dt Hnn)
                Ct L) as H.
  lia.
Qed.

Lemma floorplan_text : input (start floorplan_input) = render (postorder floorplan).
Proof. reflexivity. Qed.

Lemma floorplan_runs :
  buildTree (start floorplan_input) = Done (Some 4%nat, floorplan_built) /\
  computeDimensions 5 (Some 4%nat) floorplan_built = Done (tt, floorplan_dimensioned) /\
  computeCoordinates 5 (Some 4%nat) 0 0 floorplan_dimensioned = Done (tt, floorplan_placed).
Proof. repeat split; vm_compute; reflexivity. Qed.

Lemma C4_leaves_do_not_overlap_witness :
  fits floorplan /\ (need floorplan <= STACK_SIZE)%nat /\
  Forall valid_token (postorder floorplan) /\
  input (start floorplan_input) = render (postorder floorplan) /\
  rect_in_int floorplan /\
  buildTree (start floorplan_input) = Done (Some 4%nat, floorplan_built) /\
  computeDimensions 5 (Some 4%nat) floorplan_built = Done (tt, floorplan_dimensioned) /\
  computeCoordinates 5 (Some 4%nat) 0 0 floorplan_dimensioned = Done (tt, floorplan_placed) /\
  forall a1 a2 n1 n2,
    reach (mem floorplan_placed) (Some 4%nat) a1 ->
    mem floorplan_placed !! a1 = Some n1 -> type n1 = NUL ->
    reach (mem floorplan_placed) (Some 4%nat) a2 ->
    mem floorplan_placed !! a2 = Some n2 -> type n2 = NUL ->
    a1 <> a2 ->
    overlap n1 n2 = false.
Proof.
  destruct floorplan_runs as (Hb & Hd & Hc).
  split; [exact floorplan_fits|]. split; [exact floorplan_need|].
  split; [exact floorplan_valid|]. split; [exact floorplan_text|].
  split; [exact floorplan_rect|].
  split; [exact Hb|]. split; [exact Hd|]. split; [exact Hc|].
  destruct (C4_leaves_do_not_overlap floorplan (start floorplan_input)
              floorplan_fits floorplan_need floorplan_valid floorplan_text)
    as (root & w1 & Hb' & Hok & _).
  rewrite Hb in Hb'. injection Hb' as <- <-.
  destruct (Hok floorplan_rect) as (w2 & w3 & Run & Hapart).
  destruct (Run 5%nat ltac:(vm_compute; lia)) as [Hd' Hc'].
  rewrite Hd in Hd'. injection Hd' as <-.
  rewrite Hc in Hc'. injection Hc' as <-.
  exact Hapart.
Defined.

(** C4 as it is stated fails: two blocks of valid tokens one above the
    other whose heights together exceed [INT_MAX] make the dimension pass
    overflow before any coordinate is computed. *)
Lemma C4_counterexample_too_high :
  Forall valid_token (postorder too_high) /\
  fits too_high /\ (need too_high <= STACK_SIZE)%nat /\
  rect_height too_high = 2147483648 /\
  exists root w1,
    buildTree (start (render (postorder too_high))) = Done (root, w1) /\
    computeDimensions (S (length (mem w1))) root w1 = Undef IntOverflow.
Proof.
  split; [repeat constructor|].
  split; [repeat split; try reflexivity; vm_compute; lia|].
  split; [vm_compute; lia|]. split; [reflexivity|].
  eexists _, _. split; [vm_compute; reflexivity|].
  vm_compute. reflexivity.
Qed.

Lemma C10_leaves_inside_root_witness :
  fits floorplan /\ (need floorplan <= STACK_SIZE)%nat /\
  Forall valid_token (postorder floorplan) /\
  input (start floorplan_input) = render (postorder floorplan) /\
  rect_in_int floorplan /\
  buildTree (start floorplan_input) = Done (Some 4%nat, floorplan_built) /\
  computeDimensions 5 (Some 4%nat) floorplan_built = Done (tt, floorplan_dimensioned) /\
  computeCoordinates 5 (Some 4%nat) 0 0 floorplan_dimensioned = Done (tt, floorplan_placed) /\
  mem floorplan_placed !! 4%nat =
    Some (mkNode 0 6 6 0 0 chV (Some 0%nat) (Some 3%nat)) /\
  forall a n,
    reach (mem floorplan_placed) (Some 4%nat) a ->
    mem floorplan_placed !! a = Some n -> type n = NUL ->
    0 <= x n /\ 0 <= y n /\ x n + width n <= 6 /\ y n + height n <= 6.
Proof.
  destruct floorplan_runs as (Hb & Hd & Hc).
  split; [exact floorplan_fits|]. split; [exact floorplan_need|].
  split; [exact floorplan_valid|]. split; [exact floorplan_text|].
  split; [exact floorplan_rect|].
  split; [exact Hb|]. split; [exact Hd|]. split; [exact Hc|].
  split; [reflexivity|].
  destruct (C10_leaves_inside_root floorplan (start floorplan_input)
              floorplan_fits floorplan_need floorplan_valid floorplan_text)
    as (root & w1 & Hb' & Hok & _).
  rewrite Hb in Hb'. injection Hb' as <- <-.
  destruct (Hok floorplan_rect)
    as (w2 & w3 & nroot & Run & (ar & Har & Hroot) & Hw & Hh & Hinside).
  destruct (Run 5%nat ltac:(vm_compute; lia)) as [Hd' Hc'].
  rewrite Hd in Hd'. injection Hd' as <-.
  rewrite Hc in Hc'. injection Hc' as <-.
  intros a n R N T. pose proof (Hinside a n R N T) as H.
  rewrite Hw, Hh in H. exact H.
Defined.

(** C10 as it is stated fails: on two blocks of valid tokens side by side
    whose widths together exceed [INT_MAX] the program computes no root
    rectangle: the sum of the two widths is not an [int]. *)
Lemma C10_counterexample_too_wide :
  Forall valid_token (postorder too_wide) /\
  fits too_wide /\ (need too_wide <= STACK_SIZE)%nat /\
  rect_width too_wide = 2147483648 /\
  run_main (render (postorder too_wide)) = Undef IntOverflow.
Proof.
  split; [repeat constructor|].
  split; [repeat split; try reflexivity; vm_compute; lia|].
  split; [vm_compute; lia|]. split; [reflexivity|].
  vm_compute. reflexivity.
Qed.

(** ** The lines [sscanf] takes for a leaf *)

























(* ================================================================= *)
(** * Further properties, within the limits of the program *)

(** ** The tree [buildTree] returns, struct by struct *)

(** X2.  Whenever [buildTree] completes (it stays inside its stack array,
    and [sscanf] assigns three [int]s on every leaf line), the pointer it
    returns is the root of a finite binary tree in the heap: following
    [left] and [right] from it ends, every struct met is either a leaf
    (type ['\0']) with both links [NULL] or a cut of type ['H'] or ['V']
    with two links that are not [NULL] and lead to structs allocated before
    it, and every leaf field is an [int]. *)
Theorem X2_buildTree_returns_a_binary_tree w0 root w1 :
  buildTree w0 = Done (root, w1) ->
  (exists s, shape_at (length (mem w1)) (mem w1) root = Some s /\ ints s) /\
  forall a,
    reach (mem w1) root a ->
    exists n,
      mem w1 !! a = Some n /\
      ((type n = NUL /\ left n = None /\ right n = None) \/
       ((type n = chH \/ type n = chV) /\
        exists l r, left n = Some l /\ right n = Some r /\
                    (l < a)%nat /\ (r < a)%nat)).
Proof.
  intros H.
  apply buildTree_returns in H
    as (s & b & new & -> & Hrep & Hlen & _ & _ & _ & Hint & _).
  split.
  - exists s. split; [|exact Hint].
    apply shape_at_initial; [exact Hrep | lia].
  - intros a Hreach.
    destruct (reach_sub _ _ _ Hreach _ _ Hrep eq_refl) as (s' & bs & Hsub & ->).
    pose proof (rep_at_root _ _ _ (rep_at_sub _ _ _ _ _ Hsub Hrep)) as Hroot.
    exists (root_node bs s'). split; [exact Hroot|].
    destruct s' as [l0 w0' h0 cx cy|o w' h' tl tr].
    + left. repeat split.
    + right. split; [destruct o; auto|].
      exists (root_of bs tl), (root_of (bs + size tl) tr).
      split; [reflexivity|]. split; [reflexivity|].
      pose proof (root_of_last bs tl). pose proof (root_of_last (bs + size tl) tr).
      pose proof (size_pos tl). pose proof (size_pos tr).
      cbn [root_of]. lia.
Qed.

Lemma X2_buildTree_returns_a_binary_tree_witness :
  buildTree (start floorplan_input) = Done (Some 4%nat, floorplan_built) /\
  (exists s, shape_at (length (mem floorplan_built)) (mem floorplan_built) (Some 4%nat)
             = Some s /\ ints s) /\
  forall a,
    reach (mem floorplan_built) (Some 4%nat) a ->
    exists n,
      mem floorplan_built !! a = Some n /\
      ((type n = NUL /\ left n = None /\ right n = None) \/
       ((type n = chH \/ type n = chV) /\
        exists l r, left n = Some l /\ right n = Some r /\
                    (l < a)%nat /\ (r < a)%nat)).
Proof.
  split; [vm_compute; reflexivity|].
  apply (X2_buildTree_returns_a_binary_tree (start floorplan_input)).
  vm_compute; reflexivity.
Defined.

(** ** The reports against the input, when [main] completes *)

(** [main] on the tokens of a tree with positive fields that the builder
    can read and hold and whose enclosing rectangle is within [int]. *)
Lemma main_on_valid s :
  fits s -> (need s <= STACK_SIZE)%nat ->
  Forall valid_token (postorder s) -> rect_in_int s ->
  exists t' t'',
    dims (initial s) = Some t' /\ coords 0 0 t' = Some t'' /\
    run_main (render (postorder s)) =
    Done [pre_report (initial s); dim_report t'; coord_report t''].
Proof.
  intros Hfits Hneed Hvalid Hrect.
  pose proof (valid_leaves_nonneg s Hvalid) as Hnn.
  destruct (dims_rect s (fits_ints s Hfits) Hnn) as [Hok _].
  destruct (Hok Hrect) as (t' & Dt & Ew & Eh). destruct Hrect as [Hw Hh].
  destruct (coords_total t' (dims_dimensioned _ _ Dt) (dims_leaves_nonneg _ _ Dt Hnn)
                         0 0 ltac:(lia) ltac:(lia) ltac:(lia) ltac:(lia)) as [t'' Ct].
  exists t', t''. split; [exact Dt|]. split; [exact Ct|].
  rewrite run_main_outputs. unfold start.
  rewrite (main_readable s [] "" "" "" Hfits Hneed), Dt, Ct. reflexivity.
Qed.

(** X5.  When the input is the post-order token lines of a tree with
    positive fields, written as [%d] prints them, that the builder can read
    and hold and whose enclosing rectangle is within [int], [main]
    completes and its structure report has the lines of the input in
    pre-order: every operator line before the lines of its two subtrees.
    It is a rearrangement of the input lines. *)
Theorem X5_structure_report_is_the_input_in_preorder s :
  fits s -> (need s <= STACK_SIZE)%nat ->
  Forall valid_token (postorder s) -> rect_in_int s ->
  exists o1 o2 o3,
    run_main (render (postorder s)) = Done [o1; o2; o3] /\
    o1 = render (preorder s) /\ Permutation (preorder s) (postorder s).
Proof.
  intros Hfits Hneed Hvalid Hrect.
  destruct (main_on_valid s Hfits Hneed Hvalid Hrect) as (t' & t'' & _ & _ & Run).
  eexists _, _, _. split; [exact Run|].
  split; [apply pre_report_initial | apply preorder_postorder].
Qed.

(** X6.  On such input [main] completes and its dimension report answers
    the input line by line, in the order of the input: a leaf line is
    repeated, an operator line is the operator followed by dimensions. *)
Theorem X6_dimension_report_follows_the_input s :
  fits s -> (need s <= STACK_SIZE)%nat ->
  Forall valid_token (postorder s) -> rect_in_int s ->
  exists o1 o2 o3 lines,
    run_main (render (postorder s)) = Done [o1; o2; o3] /\
    o2 = cat lines /\ Forall2 dim_line_of (postorder s) lines.
Proof.
  intros Hfits Hneed Hvalid Hrect.
  destruct (main_on_valid s Hfits Hneed Hvalid Hrect) as (t' & t'' & Dt & _ & Run).
  exists (pre_report (initial s)), (dim_report t'), (coord_report t''), (dim_lines t').
  split; [exact Run|]. split; [apply dim_report_lines|].
  pose proof (dim_lines_answer t') as H.
  rewrite (dims_erase _ _ Dt), erase_initial in H. exact H.
Qed.

(** X7.  On such input [main] completes and its coordinate report has one
    line per leaf line of the input, in the order of the input, with the
    label, width and height of that line. *)
Theorem X7_coordinate_report_lists_the_leaves_in_input_order s :
  fits s -> (need s <= STACK_SIZE)%nat ->
  Forall valid_token (postorder s) -> rect_in_int s ->
  exists o1 o2 o3 placed_leaves,
    run_main (render (postorder s)) = Done [o1; o2; o3] /\
    o3 = cat (map coord_line placed_leaves) /\
    map leaf_token placed_leaves = List.filter is_leaf_token (postorder s).
Proof.
  intros Hfits Hneed Hvalid Hrect.
  destruct (main_on_valid s Hfits Hneed Hvalid Hrect) as (t' & t'' & Dt & Ct & Run).
  exists (pre_report (initial s)), (dim_report t'), (coord_report t''), (leaves t'').
  split; [exact Run|]. split; [apply coord_report_lines|].
  rewrite leaves_tokens, (coords_erase _ _ _ _ Ct), (dims_erase _ _ Dt), erase_initial.
  reflexivity.
Qed.

Lemma X5_structure_report_is_the_input_in_preorder_witness :
  fits floorplan /\ (need floorplan <= STACK_SIZE)%nat /\
  Forall valid_token (postorder floorplan) /\ rect_in_int floorplan /\
  exists o1 o2 o3,
    run_main (render (postorder floorplan)) = Done [o1; o2; o3] /\
    o1 = render (preorder floorplan) /\
    Permutation (preorder floorplan) (postorder floorplan).
Proof.
  split; [exact floorplan_fits|]. split; [exact floorplan_need|].
  split; [exact floorplan_valid|]. split; [exact floorplan_rect|].
  apply (X5_structure_report_is_the_input_in_preorder floorplan
           floorplan_fits floorplan_need floorplan_valid floorplan_rect).
Defined.

Lemma X6_dimension_report_follows_the_input_witness :
  fits floorplan /\ (need floorplan <= STACK_SIZE)%nat /\
  Forall valid_token (postorder floorplan) /\ rect_in_int floorplan /\
  exists o1 o2 o3 lines,
    run_main (render (postorder floorplan)) = Done [o1; o2; o3] /\
    o2 = cat lines /\ Forall2 dim_line_of (postorder floorplan) lines.
Proof.
  split; [exact floorplan_fits|]. split; [exact floorplan_need|].
  split; [exact floorplan_valid|]. split; [exact floorplan_rect|].
  apply (X6_dimension_report_follows_the_input floorplan
           floorplan_fits floorplan_need floorplan_valid floorplan_rect).
Defined.

Lemma X7_coordinate_report_lists_the_leaves_in_input_order_witness :
  fits floorplan /\ (need floorplan <= STACK_SIZE)%nat /\
  Forall valid_token (postorder floorplan) /\ rect_in_int floorplan /\
  exists o1 o2 o3 placed_leaves,
    run_main (render (postorder floorplan)) = Done [o1; o2; o3] /\
    o3 = cat (map coord_line placed_leaves) /\
    map leaf_token placed_leaves = List.filter is_leaf_token (postorder floorplan).
Proof.
  split; [exact floorplan_fits|]. split; [exact floorplan_need|].
  split; [exact floorplan_valid|]. split; [exact floorplan_rect|].
  apply (X7_coordinate_report_lists_the_leaves_in_input_order floorplan
           floorplan_fits floorplan_need floorplan_valid floorplan_rect).
Defined.

(** ** Running the dimension pass again *)

(** X9.  On every tree [buildTree] returns, the dimension pass run with
    fuel for every struct either meets a sum that is not an [int], or
    completes, and then it is idempotent: run a second time on the tree it
    has annotated, it completes again and leaves the whole state as it
    is. *)
Theorem X9_computeDimensions_twice w0 root w1 fuel fuel2 :
  buildTree w0 = Done (root, w1) ->
  (length (mem w1) <= fuel)%nat -> (length (mem w1) <= fuel2)%nat ->
  (exists w2,
      computeDimensions fuel root w1 = Done (tt, w2) /\
      computeDimensions fuel2 root w2 = Done (tt, w2)) \/
  computeDimensions fuel root w1 = Undef IntOverflow.
Proof.
  intros Hbuild Hfuel Hfuel2.
  apply buildTree_returns in Hbuild as (s & b & new & -> & Hrep & Hlen & _).
  pose proof (computeDimensions_total (initial s) b w1 Hrep) as Hd.
  destruct (dims (initial s)) as [t'|] eqn:Dt; [|right; apply Hd; lia].
  destruct Hd as (w2 & Hrep2 & Hlen2 & _ & Run). left. exists w2.
  split; [apply Run; lia|].
  pose proof (dims_size _ _ Dt) as S1.
  pose proof (computeDimensions_total t' b w2 Hrep2) as Hd2.
  rewrite (dims_again _ _ Dt) in Hd2.
  destruct Hd2 as (w2' & Hrep2' & Hlen2' & Hfr2 & Run2).
  rewrite <- (root_of_size b _ t' S1).
  rewrite (Run2 fuel2 ltac:(lia)). do 2 f_equal.
  pose proof (Run2 fuel2 ltac:(lia)) as Hrun.
  destruct (computeDimensions_Done _ _ _ _ _ Hrep2 Hrun)
    as (t2 & Hd2 & _ & _ & Hin2 & Hout2 & _).
  pose proof (rep_at_unique _ _ _ _ Hrep2 Hrep2' Hlen2' Hfr2) as Hmem.
  destruct w2, w2'. simpl in *. congruence.
Qed.

Lemma X9_computeDimensions_twice_witness :
  buildTree (start floorplan_input) = Done (Some 4%nat, floorplan_built) /\
  (length (mem floorplan_built) <= 5)%nat /\
  computeDimensions 5 (Some 4%nat) floorplan_built = Done (tt, floorplan_dimensioned) /\
  computeDimensions 7 (Some 4%nat) floorplan_dimensioned = Done (tt, floorplan_dimensioned).
Proof.
  assert (Hb : buildTree (start floorplan_input) = Done (Some 4%nat, floorplan_built))
    by (vm_compute; reflexivity).
  assert (Hf : (length (mem floorplan_built) <= 5)%nat) by (vm_compute; lia).
  assert (Hf2 : (length (mem floorplan_built) <= 7)%nat) by (vm_compute; lia).
  assert (Hd : computeDimensions 5 (Some 4%nat) floorplan_built
               = Done (tt, floorplan_dimensioned)) by (vm_compute; reflexivity).
  split; [exact Hb|]. split; [exact Hf|]. split; [exact Hd|].
  destruct (X9_computeDimensions_twice (start floorplan_input) (Some 4%nat)
              floorplan_built 5 7 Hb Hf Hf2) as [(w2 & Run & Again)|Hover].
  - rewrite Hd in Run. injection Run as <-. exact Again.
  - rewrite Hd in Hover. discriminate.
Defined.

(** ** The enclosing rectangle against the blocks *)

(** X11.  On the tokens of a tree with positive fields that the builder
    can read and hold, whose enclosing rectangle is at most [INT_MAX] wide
    and high, the dimension pass completes and leaves in the root struct a
    rectangle at least as large as all the blocks together:
    [root->width * root->height] is no less than the sum of
    [width * height] over the leaves. *)
Theorem X11_root_rectangle_holds_the_blocks s w0 :
  fits s -> (need s <= STACK_SIZE)%nat ->
  Forall valid_token (postorder s) ->
  input w0 = render (postorder s) ->
  rect_in_int s ->
  exists root w1 w2 nroot,
    buildTree w0 = Done (root, w1) /\
    (forall fuel, (length (mem w1) <= fuel)%nat ->
       computeDimensions fuel root w1 = Done (tt, w2)) /\
    node_at (mem w2) root nroot /\
    area s <= width nroot * height nroot.
Proof.
  intros Hfits Hneed Hvalid Hin Hrect.
  destruct (passes_on_shape s w0 Hfits Hneed Hvalid Hin)
    as (b & w1 & Hb & _ & _ & _ & Hok & _).
  destruct (Hok Hrect) as (t' & t'' & w2 & w3 & Dt & _ & _ & _ & Hrep2 & _ & Run).
  pose proof (dims_size _ _ Dt) as S1.
  exists (Some (root_of b (initial s))), w1, w2, (root_node b t').
  split; [exact Hb|]. split; [intros fuel Hf; apply (Run fuel Hf)|].
  split.
  { exists (root_of b t'). split; [|apply (rep_at_root _ _ _ Hrep2)].
    rewrite (root_of_size b _ _ S1). reflexivity. }
  rewrite width_root_node, height_root_node.
  rewrite <- (erase_initial s) at 1. rewrite <- (dims_erase _ _ Dt).
  apply dimensioned_area;
    [apply (dims_dimensioned _ _ Dt)
    |apply (dims_leaves_nonneg _ _ Dt (valid_leaves_nonneg s Hvalid))].
Qed.

Lemma X11_root_rectangle_holds_the_blocks_witness :
  fits floorplan /\ (need floorplan <= STACK_SIZE)%nat /\
  Forall valid_token (postorder floorplan) /\
  input (start floorplan_input) = render (postorder floorplan) /\
  rect_in_int floorplan /\
  area floorplan = 27 /\
  exists root w1 w2 nroot,
    buildTree (start floorplan_input) = Done (root, w1) /\
    (forall fuel, (length (mem w1) <= fuel)%nat ->
       computeDimensions fuel root w1 = Done (tt, w2)) /\
    node_at (mem w2) root nroot /\
    area floorplan <= width nroot * height nroot.
Proof.
  split; [exact floorplan_fits|]. split; [exact floorplan_need|].
  split; [exact floorplan_valid|]. split; [exact floorplan_text|].
  split; [exact floorplan_rect|]. split; [reflexivity|].
  apply (X11_root_rectangle_holds_the_blocks floorplan (start floorplan_input)
           floorplan_fits floorplan_need floorplan_valid floorplan_text floorplan_rect).
Defined.

(** ** What [freeTree] leaves behind *)

Lemma forest_size_app ts1 ts2 :
  forest_size (ts1 ++ ts2) = (forest_size ts1 + forest_size ts2)%nat.
Proof. induction ts1 as [|t ts1 IH]; simpl; [reflexivity | rewrite IH; lia]. Qed.

Lemma forest_size_rev ts : forest_size (rev ts) = forest_size ts.
Proof.
  induction ts as [|t ts IH]; simpl; [reflexivity|].
  rewrite forest_size_app, IH. simpl. lia.
Qed.

Lemma forest_size_tokens ss :
  forest_size (map initial ss) = length (forest_tokens ss).
Proof.
  induction ss as [|s ss IH]; simpl; [reflexivity|].
  rewrite length_app, IH, size_initial. lia.
Qed.

(** X13.  When the input holds the tokens of several trees one after the
    other, each readable and all within the stack, [buildTree] allocates
    one struct per token and returns the root of the last tree; the structs
    reachable from that root are those of the tokens of the last tree, and
    [freeTree], called on what [buildTree] returned, frees exactly these,
    each once and in the order of their allocation.  The structs of the
    earlier trees, which are at least one, are never freed. *)
Theorem X13_earlier_trees_are_never_freed ss s :
  ss <> [] -> Forall fits (ss ++ [s]) -> forest_ok 0 (ss ++ [s]) ->
  exists root w1,
    buildTree (start (render (forest_tokens (ss ++ [s])))) = Done (root, w1) /\
    shape_at (length (mem w1)) (mem w1) root = Some s /\
    (1 <= length (forest_tokens ss))%nat /\
    length (mem w1) = (length (forest_tokens ss) + length (postorder s))%nat /\
    (forall a, reach (mem w1) root a <->
               (length (forest_tokens ss) <= a < length (mem w1))%nat) /\
    freeTree (S (length (mem w1))) root w1 [] =
      Done (seq (length (forest_tokens ss)) (length (postorder s))).
Proof.
  intros Hne Hfits Hok.
  rewrite (buildTree_forest _ (start (render (forest_tokens (ss ++ [s])))) Hfits Hok eq_refl).
  rewrite map_app, rev_app_distr. cbn [map rev app forest_roots forest_heap start mem].
  set (ts := rev (map initial ss)).
  assert (Hk : forest_size ts = length (forest_tokens ss)).
  { unfold ts. rewrite forest_size_rev. apply forest_size_tokens. }
  assert (Hts : (1 <= forest_size ts)%nat).
  { apply forest_size_pos. unfold ts. intros H.
    apply (f_equal (@length tree)) in H. rewrite length_rev, length_map in H.
    destruct ss; [congruence | discriminate]. }
  eexists _, _. split; [reflexivity|]. cbn [mem length Nat.add].
  assert (Hrep : rep_at (forest_heap 0 ts ++ heap_of (forest_size ts) (initial s))
                        (forest_size ts) (initial s)).
  { pose proof (rep_at_app (forest_heap 0 ts) (initial s) []) as H.
    rewrite forest_heap_length, app_nil_r in H. exact H. }
  assert (Hlen : length (forest_heap 0 ts ++ heap_of (forest_size ts) (initial s))
                 = (forest_size ts + size (initial s))%nat)
    by (rewrite length_app, forest_heap_length, heap_of_length; reflexivity).
  rewrite Hlen, <- Hk, <- size_initial.
  split; [apply shape_at_initial; [exact Hrep | lia]|].
  split; [exact Hts|]. split; [reflexivity|].
  split; [intros a; apply (reach_range _ _ _ _ Hrep)|].
  rewrite (freeTree_rep (initial s) _ (forest_size ts)
             (mkWorld (forest_heap 0 ts ++ heap_of (forest_size ts) (initial s))
                      "" [""; ""; ""]) [] Hrep).
  - reflexivity.
  - lia.
  - intros a Ha. inversion Ha.
Qed.

Lemma X13_earlier_trees_are_never_freed_witness :
  [SLeaf 7 1 1; floorplan] <> [] /\
  Forall fits ([SLeaf 7 1 1; floorplan] ++ [example_shape]) /\
  forest_ok 0 ([SLeaf 7 1 1; floorplan] ++ [example_shape]) /\
  exists root w1,
    buildTree (start (render (forest_tokens ([SLeaf 7 1 1; floorplan] ++ [example_shape]))))
      = Done (root, w1) /\
    shape_at (length (mem w1)) (mem w1) root = Some example_shape /\
    (1 <= length (forest_tokens [SLeaf 7 1 1; floorplan]))%nat /\
    length (mem w1) =
      (length (forest_tokens [SLeaf 7 1 1; floorplan]) + length (postorder example_shape))%nat /\
    (forall a, reach (mem w1) root a <->
               (length (forest_tokens [SLeaf 7 1 1; floorplan]) <= a < length (mem w1))%nat) /\
    freeTree (S (length (mem w1))) root w1 [] =
      Done (seq (length (forest_tokens [SLeaf 7 1 1; floorplan]))
                (length (postorder example_shape))).
Proof.
  assert (Hne : [SLeaf 7 1 1; floorplan] <> []) by discriminate.
  assert (Hfits : Forall fits ([SLeaf 7 1 1; floorplan] ++ [example_shape])).
  { repeat constructor; vm_compute; lia. }
  assert (Hok : forest_ok 0 ([SLeaf 7 1 1; floorplan] ++ [example_shape]))
    by (vm_compute; lia).
  split; [exact Hne|]. split; [exact Hfits|]. split; [exact Hok|].
  apply (X13_earlier_trees_are_never_freed [SLeaf 7 1 1; floorplan] example_shape
           Hne Hfits Hok).
Defined.

(** ** Moving the origin *)

(** X14.  On a tree built from valid tokens whose dimension pass has
    completed, let the origin [(cx, cy)] be not negative and such that the
    rectangle of the root, put there, ends at or before [INT_MAX] in both
    directions.  Then the coordinate pass completes from [(0, 0)] and from
    [(cx, cy)], and against the pass from [(0, 0)] the pass from
    [(cx, cy)] leaves each leaf of the tree with [cx] added to its [x] and
    [cy] to its [y], and every other struct and field as it is. *)
Theorem X14_moving_the_origin ks w0 root w1 fuel w2 nroot f1 f2 cx cy :
  Forall valid_token ks -> input w0 = render ks ->
  buildTree w0 = Done (root, w1) ->
  computeDimensions fuel root w1 = Done (tt, w2) ->
  node_at (mem w2) root nroot ->
  0 <= cx -> 0 <= cy ->
  cx + width nroot <= INT_MAX -> cy + height nroot <= INT_MAX ->
  (length (mem w2) <= f1)%nat -> (length (mem w2) <= f2)%nat ->
  exists w3 w3',
    computeCoordinates f1 root 0 0 w2 = Done (tt, w3) /\
    computeCoordinates f2 root cx cy w2 = Done (tt, w3') /\
    forall a n,
      mem w3 !! a = Some n ->
      (reach (mem w3) root a -> mem w3' !! a = Some (moved cx cy n)) /\
      (~ reach (mem w3) root a -> mem w3' !! a = Some n).
Proof.
  intros Hvalid Hin Hbuild Hdim (ar & Har & Hroot) Hx Hy Hw Hh Hf1 Hf2.
  apply buildTree_returns in Hbuild
    as (s & b & new & -> & Hrep & Hlen & _ & _ & _ & _ & Hnn).
  rewrite Hin in Hnn. specialize (Hnn (render_no_minus _ Hvalid)).
  destruct (computeDimensions_Done _ _ _ _ _ Hrep Hdim)
    as (t' & Hd & Hrep' & Hlen' & _).
  pose proof (dims_size _ _ Hd) as S1.
  injection Har as <-. rewrite <- (root_of_size b _ t' S1) in Hroot |- *.
  rewrite (rep_at_root _ _ _ Hrep') in Hroot. injection Hroot as <-.
  rewrite width_root_node in Hw. rewrite height_root_node in Hh.
  pose proof (dims_dimensioned _ _ Hd) as Hdd.
  pose proof (dims_leaves_nonneg _ _ Hd Hnn) as Hnn'.
  pose proof (dimensioned_nonneg _ Hdd Hnn') as [Hw0 Hh0].
  destruct (coords_total t' Hdd Hnn' 0 0 ltac:(lia) ltac:(lia) ltac:(lia) ltac:(lia))
    as [t1 Hc1].
  destruct (coords_total t' Hdd Hnn' cx cy Hx Hy Hw Hh) as [t2 Hc2].
  pose proof (computeCoordinates_total t' b 0 0 w2 Hrep') as R1. rewrite Hc1 in R1.
  pose proof (computeCoordinates_total t' b cx cy w2 Hrep') as R2. rewrite Hc2 in R2.
  destruct R1 as (w3 & Hrep1 & _ & Hfr1 & Run1).
  destruct R2 as (w3' & Hrep2 & _ & Hfr2 & Run2).
  exists w3, w3'.
  split; [apply Run1; lia|]. split; [apply Run2; lia|].
  intros a n Hn.
  pose proof (coords_shift t' 0 0 cx cy t1 t2 Hc1 Hc2) as ->.
  destruct (coords_same _ _ _ _ Hc1) as (S2 & _).
  rewrite <- (root_of_size b t' t1 S2).
  split.
  - intros Hreach. apply (reach_range _ _ _ _ Hrep1) in Hreach.
    pose proof (rep_at_lookup _ _ _ _ _ Hrep1 Hreach Hn) as Hh'.
    replace a with (b + (a - b))%nat by lia. apply Hrep2.
    rewrite heap_of_shift, list_lookup_fmap, Hh'. reflexivity.
  - intros Hnr.
    assert (Hout : ~ (b <= a < b + size t1)%nat)
      by (intros H; apply Hnr; apply (reach_range _ _ _ _ Hrep1); exact H).
    rewrite Hfr2 by lia. rewrite <- Hfr1 by lia. exact Hn.
Qed.

Lemma X14_moving_the_origin_witness :
  Forall valid_token (postorder floorplan) /\
  input (start floorplan_input) = render (postorder floorplan) /\
  buildTree (start floorplan_input) = Done (Some 4%nat, floorplan_built) /\
  computeDimensions 5 (Some 4%nat) floorplan_built = Done (tt, floorplan_dimensioned) /\
  node_at (mem floorplan_dimensioned) (Some 4%nat)
          (mkNode 0 6 6 0 0 chV (Some 0%nat) (Some 3%nat)) /\
  computeCoordinates 5 (Some 4%nat) 0 0 floorplan_dimensioned = Done (tt, floorplan_placed) /\
  computeCoordinates 5 (Some 4%nat) 10 20 floorplan_dimensioned =
    Done (tt, floorplan_placed_10_20) /\
  forall a n,
    mem floorplan_placed !! a = Some n ->
    (reach (mem floorplan_placed) (Some 4%nat) a ->
     mem floorplan_placed_10_20 !! a = Some (moved 10 20 n)) /\
    (~ reach (mem floorplan_placed) (Some 4%nat) a ->
     mem floorplan_placed_10_20 !! a = Some n).
Proof.
  destruct floorplan_runs as (Hb & Hd & Hc).
  assert (Hc' : computeCoordinates 5 (Some 4%nat) 10 20 floorplan_dimensioned =
                Done (tt, floorplan_placed_10_20)) by (vm_compute; reflexivity).
  assert (Hnode : node_at (mem floorplan_dimensioned) (Some 4%nat)
                          (mkNode 0 6 6 0 0 chV (Some 0%nat) (Some 3%nat)))
    by (exists 4%nat; split; reflexivity).
  split; [exact floorplan_valid|]. split; [exact floorplan_text|].
  split; [exact Hb|]. split; [exact Hd|]. split; [exact Hnode|].
  split; [exact Hc|]. split; [exact Hc'|].
  destruct (X14_moving_the_origin (postorder floorplan) (start floorplan_input)
              (Some 4%nat) floorplan_built 5 floorplan_dimensioned
              (mkNode 0 6 6 0 0 chV (Some 0%nat) (Some 3%nat)) 5 5 10 20
              floorplan_valid floorplan_text Hb Hd Hnode
              ltac:(lia) ltac:(lia) ltac:(vm_compute; discriminate)
              ltac:(vm_compute; discriminate)
              ltac:(vm_compute; lia) ltac:(vm_compute; lia))
    as (w3 & w3' & R1 & R2 & Hmoved).
  rewrite Hc in R1. injection R1 as <-.
  rewrite Hc' in R2. injection R2 as <-.
  exact Hmoved.
Defined.
